(** * QWOP: the articulated character controller

    A shallow embedding of [src/constants.js], [src/physics.js],
    [src/input.js], [src/ui.js], [src/character.js] and [src/game.js].

    Numbers.  JavaScript numbers are IEEE-754 doubles.  They are modelled
    as rationals [Q]: every literal of the source is the rational it
    denotes in decimal, and [Math.PI] is the rational value of the double
    the engine uses.  In the controller and the game the four operations
    are exact (rounding is left out).  In [src/utils.js] and in the gyro
    controller, whose properties are about the arithmetic itself, every
    operation is rounded to binary64 ([Double]).  Comparisons are the
    boolean ones of the source.

    The physics engine.  Rapier is a collaborator outside the repository.
    A rigid body and an impulse joint are modelled as the records of what
    the character controller can set and read on them; what the
    constraint solver does during [world.step()] is an arbitrary function
    supplied to the game loop.

    Time.  [performance.now()] is an explicit argument of every function
    that reads it, and [setTimeout] callbacks are first-order timers kept
    in a pending list, fired by the event loop when due.

    Left out: the meshes and force indicators of [graphics.js] and
    rendering.  The ground and the hurdles of [physics.js], the helpers
    of [src/utils.js], the accumulator of [Game.gameLoop] and the target
    angles of the gyro controller are modelled after the controller, for
    the further properties at the end.  Duck-typing tests on Rapier joints
    ([joint.configureMotorPosition], [typeof joint.configureMotorVelocity])
    hold for every joint the engine returns and are not modelled. *)

From Stdlib Require Import QArith Qminmax Qround Qpower Lqa ZArith List Bool
  Lia.
From stdpp Require Import base option list gmap strings.

Local Open Scope Q_scope.
Local Open Scope string_scope.

(** ** JavaScript comparison operators on numbers *)

Definition js_ge (a b : Q) : bool := Qle_bool b a.          (* a >= b *)
Definition js_le (a b : Q) : bool := Qle_bool a b.          (* a <= b *)
Definition js_gt (a b : Q) : bool := negb (Qle_bool a b).   (* a > b  *)
Definition js_eq (a b : Q) : bool := Qeq_bool a b.          (* a === b *)

(** [Math.PI]: the double 0x1.921fb54442d18p+1, as a rational. *)
Definition Math_PI : Q := 884279719003555 # 281474976710656.

(** ** src/constants.js *)

Module KEYS.
Definition Q := "KeyQ".
Definition W := "KeyW".
Definition O := "KeyO".
Definition P := "KeyP".
Definition SPACE := "Space".
Definition ESC := "Escape".
End KEYS.

(** A 2-vector, the [{x, y}] objects of the source. *)
Module Vec.
Record t : Type := mk { x : Q; y : Q }.
Definition add (a b : t) : t := mk (x a + x b) (y a + y b).
Definition scale (k : Q) (a : t) : t := mk (k * x a) (k * y a).
Definition zero : t := mk 0 0.
End Vec.

Module PHYSICS.
Definition GRAVITY : Q := -10.0.
Definition FIXED_TIMESTEP : Q := 1 / 60.
Definition SOLVER_ITERATIONS : Z := 10.
Definition GROUND_FRICTION : Q := 0.85.
Definition JOINT_MOTOR_MAX_FORCE : Q := 100.0.
Definition MAX_MOTOR_VELOCITY : Q := 20.0.
Definition INITIAL_POSITION : Vec.t := Vec.mk 0 (-3.5).
Definition LINEAR_DAMPING : Q := 0.15.
Definition ANGULAR_DAMPING : Q := 0.15.
Definition INITIAL_STIFFNESS : Q := 35.0.
Definition INITIAL_DAMPING : Q := 3.0.
End PHYSICS.

Module CHARACTER.
Module PARTS.
Module TORSO.
Definition WIDTH : Q := 0.3.
Definition HEIGHT : Q := 0.6.
Definition DENSITY : Q := 1.2.
End TORSO.
Module THIGH.
Definition WIDTH : Q := 0.15.
Definition HEIGHT : Q := 0.45.
Definition DENSITY : Q := 0.7.
End THIGH.
Module CALF.
Definition WIDTH : Q := 0.12.
Definition HEIGHT : Q := 0.45.
Definition DENSITY : Q := 0.5.
End CALF.
Module FOOT.
Definition WIDTH : Q := 0.25.
Definition HEIGHT : Q := 0.08.
Definition DENSITY : Q := 0.6.
End FOOT.
Module ARM.
Definition WIDTH : Q := 0.1.
Definition HEIGHT : Q := 0.4.
Definition DENSITY : Q := 0.4.
End ARM.
End PARTS.
Module JOINTS.
Module HIP.
Definition MIN_ANGLE : Q := - Math_PI / 2.
Definition MAX_ANGLE : Q := Math_PI * 1.25.
End HIP.
Module KNEE.
Definition MIN_ANGLE : Q := - Math_PI * 0.8.
Definition MAX_ANGLE : Q := 0.05.
Definition STIFFNESS : Q := 10.0.
Definition DAMPING : Q := 1.0.
Definition REST_ANGLE : Q := -0.05.
End KNEE.
Module ANKLE.
Definition MIN_ANGLE : Q := - Math_PI / 3.
Definition MAX_ANGLE : Q := Math_PI / 3.
End ANKLE.
Module SHOULDER.
Definition MIN_ANGLE : Q := - Math_PI / 2.
Definition MAX_ANGLE : Q := Math_PI / 2.
Definition STIFFNESS : Q := 8.0.
Definition DAMPING : Q := 1.2.
Definition REST_ANGLE : Q := Math_PI / 8.
End SHOULDER.
End JOINTS.
End CHARACTER.

Module GAME_STATES.
Inductive t : Type := MAIN_MENU | PLAYING | GAME_OVER | PAUSED.
Definition eqb (a b : t) : bool :=
    match a, b with
    | MAIN_MENU, MAIN_MENU | PLAYING, PLAYING
    | GAME_OVER, GAME_OVER | PAUSED, PAUSED => true
    | _, _ => false
    end.
End GAME_STATES.

Module GAME_OVER.
Definition HEAD_GROUND_THRESHOLD : Q := -4.8.
End GAME_OVER.

(** ** The Rapier objects the controller holds

    A collider gives its body a mass (area times density) and an angular
    inertia; [applyImpulse] and [applyAngularImpulse] change the velocity
    right away, by the impulse divided by the mass (resp. the inertia),
    as the engine documents them.  Every impulse applied to a body is also
    kept in the body's [impulses] log, oldest first. *)

Module Rapier.

Inductive Shape : Type :=
  | cuboid (hx hy : Q)
  | capsule (halfHeight radius : Q).

Record ColliderDesc : Type := mkCollider {
    shape : Shape;
    density : Q;
    friction : Q;
    restitution : Q;
    collisionGroups : option Z
  }.

Definition area (s : Shape) : Q :=
    match s with
    | cuboid hx hy => (2 * hx) * (2 * hy)
    | capsule hh r => (2 * r) * (2 * hh) + Math_PI * r * r
    end.

  (** Second moment of area about the centre. *)
Definition areaInertia (s : Shape) : Q :=
    match s with
    | cuboid hx hy =>
        (2 * hx) * (2 * hy) * ((2 * hx) * (2 * hx) + (2 * hy) * (2 * hy)) / 12
    | capsule hh r =>
        (2 * r) * (2 * hh) * ((2 * r) * (2 * r) + (2 * hh) * (2 * hh)) / 12
        + Math_PI * r * r * (r * r / 2 + hh * hh + 8 * r * hh / (3 * Math_PI))
    end.

Record RigidBody : Type := mkBody {
    translation : Vec.t;
    rotation : Q;
    linvel : Vec.t;
    angvel : Q;
    linearDamping : Q;
    angularDamping : Q;
    collider : ColliderDesc;
    impulses : list Vec.t
  }.

Definition mass (b : RigidBody) : Q :=
    density (collider b) * area (shape (collider b)).
Definition inertia (b : RigidBody) : Q :=
    density (collider b) * areaInertia (shape (collider b)).

Definition setLinvel (v : Vec.t) (b : RigidBody) : RigidBody :=
    mkBody (translation b) (rotation b) v (angvel b)
           (linearDamping b) (angularDamping b) (collider b) (impulses b).

Definition setAngvel (w : Q) (b : RigidBody) : RigidBody :=
    mkBody (translation b) (rotation b) (linvel b) w
           (linearDamping b) (angularDamping b) (collider b) (impulses b).

Definition setLinearDamping (d : Q) (b : RigidBody) : RigidBody :=
    mkBody (translation b) (rotation b) (linvel b) (angvel b)
           d (angularDamping b) (collider b) (impulses b).

Definition setAngularDamping (d : Q) (b : RigidBody) : RigidBody :=
    mkBody (translation b) (rotation b) (linvel b) (angvel b)
           (linearDamping b) d (collider b) (impulses b).

Definition applyImpulse (i : Vec.t) (b : RigidBody) : RigidBody :=
    mkBody (translation b) (rotation b)
           (Vec.add (linvel b) (Vec.scale (/ mass b) i)) (angvel b)
           (linearDamping b) (angularDamping b) (collider b)
           (impulses b ++ [i])%list.

Definition applyAngularImpulse (i : Q) (b : RigidBody) : RigidBody :=
    mkBody (translation b) (rotation b) (linvel b) (angvel b + i / inertia b)
           (linearDamping b) (angularDamping b) (collider b) (impulses b).

  (** The motor of a joint is whatever the last [configureMotor...] call
      made it; a joint just created has none. *)
Inductive Motor : Type :=
  | MotorNone
  | MotorVelocity (targetVel factor : Q)
  | MotorPosition (targetPos stiffness damping : Q).

Record ImpulseJoint : Type := mkJoint {
    anchor1 : Vec.t;
    anchor2 : Vec.t;
    limits : option (Q * Q);       (* [params.limits], set with [limitsEnabled] *)
    motor : Motor
  }.

Definition configureMotorVelocity (targetVel factor : Q) (j : ImpulseJoint)
    : ImpulseJoint :=
    mkJoint (anchor1 j) (anchor2 j) (limits j) (MotorVelocity targetVel factor).

Definition configureMotorPosition (targetPos stiffness damping : Q)
    (j : ImpulseJoint) : ImpulseJoint :=
    mkJoint (anchor1 j) (anchor2 j) (limits j)
            (MotorPosition targetPos stiffness damping).

  (** What [world.step()] may change on a body: where it is and how it
      moves.  Damping, collider and the impulse log are kept. *)
Definition moved (b solved : RigidBody) : RigidBody :=
    mkBody (translation solved) (rotation solved) (linvel solved)
           (angvel solved) (linearDamping b) (angularDamping b)
           (collider b) (impulses b).

  (** The initialised [RAPIER.World]; [jointFaults] names the
      [createImpulseJoint] calls that the engine makes throw. *)
Record World : Type := mkWorld {
    gravity : Vec.t;
    timestep : Q;
    numSolverIterations : Z;
    jointFaults : gset string
  }.

End Rapier.

(** ** src/physics.js *)

Module CollisionGroups.
Definition DEFAULT : Z := 0xFFFF.
Definition TORSO : Z := 0x0001.
Definition LEFT_LEG : Z := 0x0002.
Definition RIGHT_LEG : Z := 0x0004.
Definition GROUND : Z := 0x0008.
End CollisionGroups.

Module CollisionFilters.
Record t : Type := mk { memberships : Z; filter : Z }.
Definition TORSO : t :=
    mk CollisionGroups.TORSO
       (Z.lor (Z.lor CollisionGroups.GROUND CollisionGroups.LEFT_LEG)
              CollisionGroups.RIGHT_LEG).
Definition LEFT_LEG : t :=
    mk CollisionGroups.LEFT_LEG
       (Z.lor CollisionGroups.GROUND CollisionGroups.TORSO).
Definition RIGHT_LEG : t :=
    mk CollisionGroups.RIGHT_LEG
       (Z.lor CollisionGroups.GROUND CollisionGroups.TORSO).
Definition GROUND : t :=
    mk CollisionGroups.GROUND
       (Z.lor (Z.lor CollisionGroups.TORSO CollisionGroups.LEFT_LEG)
              CollisionGroups.RIGHT_LEG).
End CollisionFilters.

(** The limits object handed to [createRevoluteJoint]: [min] and [max]
    always, the three spring constants only for the shoulders. *)
Record Limits : Type := mkLimits {
  min : Q;
  max : Q;
  REST_ANGLE : option Q;
  STIFFNESS : option Q;
  DAMPING : option Q
}.

Module PhysicsWorld.
Import Rapier.

  (** The class after [init()]: the world exists and [initialized] is
      [true]; the character is only ever built on such a world. *)
Record t : Type := mk {
    world : World;
    initialized : bool
  }.

Definition init (faults : gset string) : t :=
    mk (mkWorld (Vec.mk 0 PHYSICS.GRAVITY) PHYSICS.FIXED_TIMESTEP
                PHYSICS.SOLVER_ITERATIONS faults)
       true.

Definition createDynamicBody (x y width height density : Q)
    (isRound : bool) (collisionFilter : option CollisionFilters.t)
    : RigidBody :=
    let colliderShape :=
      if isRound
      then (let radius := width / 2 in capsule (height / 2 - radius) radius)
      else cuboid (width / 2) (height / 2) in
    let groups :=
      match collisionFilter with
      | Some f =>
          Some (Z.lor (Z.shiftl (CollisionFilters.memberships f) 16)
                      (CollisionFilters.filter f))
      | None => None
      end in
    mkBody (Vec.mk x y) 0 Vec.zero 0
           PHYSICS.LINEAR_DAMPING PHYSICS.ANGULAR_DAMPING
           (mkCollider colliderShape density PHYSICS.GROUND_FRICTION 0.1 groups)
           [].

  (** [site] is the name under which the caller stores the joint; it only
      selects whether the engine's [createImpulseJoint] throws. *)
Definition createRevoluteJoint (p : t) (site : string)
    (bodyA bodyB : option RigidBody) (anchorA anchorB : Vec.t)
    (lim : Limits) (isKnee : bool) : option ImpulseJoint :=
    match bodyA, bodyB with
    | Some _, Some _ =>
        let joint :=
          mkJoint anchorA anchorB
                  (Some (Qmin (min lim) (max lim), Qmax (min lim) (max lim)))
                  MotorNone in
        if bool_decide (site ∈ jointFaults (world p)) then None
        else
          Some (if isKnee then
                  match REST_ANGLE lim, STIFFNESS lim, DAMPING lim with
                  | Some rest, Some k, Some d =>
                      configureMotorPosition rest (k * 1.5) (d * 1.5) joint
                  | _, _, _ => joint
                  end
                else joint)
    | _, _ => None
    end.

  (** [step()]: the engine moves the bodies; [solve] is what it computes
      from the bodies and the joints. *)
Definition step (p : t)
    (solve : gmap string RigidBody -> gmap string ImpulseJoint ->
             gmap string RigidBody)
    (bodies : gmap string RigidBody) (joints : gmap string ImpulseJoint)
    : gmap string RigidBody :=
    if initialized p then
      map_imap (fun name b =>
                  Some (match solve bodies joints !! name with
                        | Some b' => moved b b'
                        | None => b
                        end)) bodies
    else bodies.

End PhysicsWorld.

(** ** src/input.js *)

Module InputHandler.
Record t : Type := mk { keyState : gmap string bool }.

Definition new : t :=
    mk (<[KEYS.Q := false]> (<[KEYS.W := false]> (<[KEYS.O := false]>
       (<[KEYS.P := false]> (<[KEYS.SPACE := false]>
       (<[KEYS.ESC := false]> ∅)))))).

Definition keydown (code : string) (h : t) : t :=
    match keyState h !! code with
    | Some _ => mk (<[code := true]> (keyState h))
    | None => h
    end.

Definition keyup (code : string) (h : t) : t :=
    match keyState h !! code with
    | Some _ => mk (<[code := false]> (keyState h))
    | None => h
    end.

Definition isKeyPressed (h : t) (keyCode : string) : bool :=
    default false (keyState h !! keyCode).

Definition reset (h : t) : t := mk ((fun _ => false) <$> keyState h).
End InputHandler.

(** ** Timers

    The three [setTimeout] callbacks of the source.  A callback closes
    over [this], so when it runs it sees the character as it is then. *)

Inductive TimerAction : Type :=
| RelaxDamping      (* stabilizeJoints, outer callback: damping 0.5 *)
| RestoreDamping    (* stabilizeJoints, inner callback: nominal damping *)
| StartImpulse.     (* Game.start: torso impulses before play *)

Record Timer : Type := mkTimer { due : Q; action : TimerAction }.

(** ** src/character.js *)

Module Character.
Import Rapier.

Record t : Type := mk {
  physics : PhysicsWorld.t;
  bodies : gmap string RigidBody;
  joints : gmap string ImpulseJoint;
  impulseTimer : Q;
  impulseInterval : Q;
  lastTimestamp : Q
}.

Definition setBodies (bs : gmap string RigidBody) (c : t) : t :=
  mk (physics c) bs (joints c) (impulseTimer c) (impulseInterval c)
     (lastTimestamp c).

Definition setJoints (js : gmap string ImpulseJoint) (c : t) : t :=
  mk (physics c) (bodies c) js (impulseTimer c) (impulseInterval c)
     (lastTimestamp c).

(** [this.joints.name = value], where [value] may be [null]. *)
Definition assign (name : string) (value : option ImpulseJoint)
  (js : gmap string ImpulseJoint) : gmap string ImpulseJoint :=
  match value with
  | Some j => <[name := j]> js
  | None => delete name js
  end.

(** [constructor(physicsWorld)]; [now] is [performance.now()]. *)
Definition new (physicsWorld : PhysicsWorld.t) (now : Q) : t :=
  mk physicsWorld ∅ ∅ 0 80 now.

Definition createPhysicsBodies (c : t) : t :=
  let x := Vec.x PHYSICS.INITIAL_POSITION in
  let y := Vec.y PHYSICS.INITIAL_POSITION in
  let TORSO_WIDTH := CHARACTER.PARTS.TORSO.WIDTH in
  let TORSO_HEIGHT := CHARACTER.PARTS.TORSO.HEIGHT in
  let torso :=
    PhysicsWorld.createDynamicBody x y TORSO_WIDTH TORSO_HEIGHT
      CHARACTER.PARTS.TORSO.DENSITY false (Some CollisionFilters.TORSO) in
  let leftArm :=
    PhysicsWorld.createDynamicBody
      (x - TORSO_WIDTH / 2 - CHARACTER.PARTS.ARM.WIDTH / 2)
      (y + TORSO_HEIGHT / 4)
      CHARACTER.PARTS.ARM.WIDTH CHARACTER.PARTS.ARM.HEIGHT
      CHARACTER.PARTS.ARM.DENSITY true (Some CollisionFilters.LEFT_LEG) in
  let rightArm :=
    PhysicsWorld.createDynamicBody
      (x + TORSO_WIDTH / 2 + CHARACTER.PARTS.ARM.WIDTH / 2)
      (y + TORSO_HEIGHT / 4)
      CHARACTER.PARTS.ARM.WIDTH CHARACTER.PARTS.ARM.HEIGHT
      CHARACTER.PARTS.ARM.DENSITY true (Some CollisionFilters.RIGHT_LEG) in
  let hipOffsetY := -0.3 in
  let thighXOffset := 0 in
  let thighYOffset := CHARACTER.PARTS.THIGH.HEIGHT / 2 in
  let leftThigh :=
    PhysicsWorld.createDynamicBody
      (x - TORSO_WIDTH / 4 + thighXOffset) (y + hipOffsetY - thighYOffset)
      CHARACTER.PARTS.THIGH.WIDTH CHARACTER.PARTS.THIGH.HEIGHT
      CHARACTER.PARTS.THIGH.DENSITY true (Some CollisionFilters.LEFT_LEG) in
  let rightThigh :=
    PhysicsWorld.createDynamicBody
      (x + TORSO_WIDTH / 4 + thighXOffset) (y + hipOffsetY - thighYOffset)
      CHARACTER.PARTS.THIGH.WIDTH CHARACTER.PARTS.THIGH.HEIGHT
      CHARACTER.PARTS.THIGH.DENSITY true (Some CollisionFilters.RIGHT_LEG) in
  let leftKneeX := x - TORSO_WIDTH / 4 + 2 * thighXOffset in
  let leftKneeY := y + hipOffsetY - 2 * thighYOffset in
  let rightKneeX := x + TORSO_WIDTH / 4 + 2 * thighXOffset in
  let rightKneeY := y + hipOffsetY - 2 * thighYOffset in
  let calfXOffset := 0 in
  let calfYOffset := CHARACTER.PARTS.CALF.HEIGHT / 2 in
  let leftCalf :=
    PhysicsWorld.createDynamicBody
      (leftKneeX + calfXOffset) (leftKneeY - calfYOffset)
      CHARACTER.PARTS.CALF.WIDTH CHARACTER.PARTS.CALF.HEIGHT
      CHARACTER.PARTS.CALF.DENSITY true (Some CollisionFilters.LEFT_LEG) in
  let rightCalf :=
    PhysicsWorld.createDynamicBody
      (rightKneeX + calfXOffset) (rightKneeY - calfYOffset)
      CHARACTER.PARTS.CALF.WIDTH CHARACTER.PARTS.CALF.HEIGHT
      CHARACTER.PARTS.CALF.DENSITY true (Some CollisionFilters.RIGHT_LEG) in
  let leftAnkleX := leftKneeX + 2 * calfXOffset in
  let leftAnkleY := leftKneeY - 2 * calfYOffset in
  let rightAnkleX := rightKneeX + 2 * calfXOffset in
  let rightAnkleY := rightKneeY - 2 * calfYOffset in
  let footXOffset := 0.05 in
  let leftFoot :=
    PhysicsWorld.createDynamicBody
      (leftAnkleX + footXOffset) (leftAnkleY - CHARACTER.PARTS.FOOT.HEIGHT / 2)
      CHARACTER.PARTS.FOOT.WIDTH CHARACTER.PARTS.FOOT.HEIGHT
      CHARACTER.PARTS.FOOT.DENSITY false (Some CollisionFilters.LEFT_LEG) in
  let rightFoot :=
    PhysicsWorld.createDynamicBody
      (rightAnkleX + footXOffset)
      (rightAnkleY - CHARACTER.PARTS.FOOT.HEIGHT / 2)
      CHARACTER.PARTS.FOOT.WIDTH CHARACTER.PARTS.FOOT.HEIGHT
      CHARACTER.PARTS.FOOT.DENSITY false (Some CollisionFilters.RIGHT_LEG) in
  setBodies
    (<["rightFoot" := rightFoot]> (<["leftFoot" := leftFoot]>
    (<["rightCalf" := rightCalf]> (<["leftCalf" := leftCalf]>
    (<["rightThigh" := rightThigh]> (<["leftThigh" := leftThigh]>
    (<["rightArm" := rightArm]> (<["leftArm" := leftArm]>
    (<["torso" := torso]> (bodies c))))))))))
    c.

Definition createJoints (c : t) : t :=
  let TORSO_WIDTH := CHARACTER.PARTS.TORSO.WIDTH in
  let TORSO_HEIGHT := CHARACTER.PARTS.TORSO.HEIGHT in
  let THIGH_HEIGHT := CHARACTER.PARTS.THIGH.HEIGHT in
  let CALF_HEIGHT := CHARACTER.PARTS.CALF.HEIGHT in
  let body name := bodies c !! name in
  let create := PhysicsWorld.createRevoluteJoint (physics c) in
  let torsoShoulderAnchorLeft := Vec.mk (- TORSO_WIDTH / 2) (TORSO_HEIGHT / 3) in
  let torsoShoulderAnchorRight := Vec.mk (TORSO_WIDTH / 2) (TORSO_HEIGHT / 3) in
  let armShoulderAnchor := Vec.mk 0 (CHARACTER.PARTS.ARM.HEIGHT / 2 - 0.05) in
  let shoulderLimits :=
    mkLimits CHARACTER.JOINTS.SHOULDER.MIN_ANGLE
             CHARACTER.JOINTS.SHOULDER.MAX_ANGLE
             (Some CHARACTER.JOINTS.SHOULDER.REST_ANGLE)
             (Some CHARACTER.JOINTS.SHOULDER.STIFFNESS)
             (Some CHARACTER.JOINTS.SHOULDER.DAMPING) in
  let leftShoulder :=
    create "leftShoulder" (body "torso") (body "leftArm")
           torsoShoulderAnchorLeft armShoulderAnchor shoulderLimits false in
  let rightShoulder :=
    create "rightShoulder" (body "torso") (body "rightArm")
           torsoShoulderAnchorRight armShoulderAnchor shoulderLimits false in
  let torsoHipAnchorLeft :=
    Vec.mk (- TORSO_WIDTH / 4) (- TORSO_HEIGHT / 2 + 0.05) in
  let torsoHipAnchorRight :=
    Vec.mk (TORSO_WIDTH / 4) (- TORSO_HEIGHT / 2 + 0.05) in
  let thighHipAnchor := Vec.mk 0 (THIGH_HEIGHT / 2 - 0.05) in
  let hipLimits :=
    mkLimits CHARACTER.JOINTS.HIP.MIN_ANGLE CHARACTER.JOINTS.HIP.MAX_ANGLE
             None None None in
  let leftHip :=
    create "leftHip" (body "torso") (body "leftThigh")
           torsoHipAnchorLeft thighHipAnchor hipLimits false in
  let rightHip :=
    create "rightHip" (body "torso") (body "rightThigh")
           torsoHipAnchorRight thighHipAnchor hipLimits false in
  let thighKneeAnchor := Vec.mk 0 (- THIGH_HEIGHT / 2 + 0.05) in
  let calfKneeAnchor := Vec.mk 0 (CALF_HEIGHT / 2 - 0.05) in
  let kneeLimits :=
    mkLimits CHARACTER.JOINTS.KNEE.MIN_ANGLE CHARACTER.JOINTS.KNEE.MAX_ANGLE
             None None None in
  let leftKnee :=
    create "leftKnee" (body "leftThigh") (body "leftCalf")
           thighKneeAnchor calfKneeAnchor kneeLimits true in
  let rightKnee :=
    create "rightKnee" (body "rightThigh") (body "rightCalf")
           thighKneeAnchor calfKneeAnchor kneeLimits true in
  let calfAnkleAnchor := Vec.mk 0 (- CALF_HEIGHT / 2 + 0.05) in
  let footAnkleAnchor := Vec.mk (- CHARACTER.PARTS.FOOT.WIDTH / 3) 0 in
  let ankleLimits :=
    mkLimits CHARACTER.JOINTS.ANKLE.MIN_ANGLE CHARACTER.JOINTS.ANKLE.MAX_ANGLE
             None None None in
  let leftAnkle :=
    create "leftAnkle" (body "leftCalf") (body "leftFoot")
           calfAnkleAnchor footAnkleAnchor ankleLimits false in
  let rightAnkle :=
    create "rightAnkle" (body "rightCalf") (body "rightFoot")
           calfAnkleAnchor footAnkleAnchor ankleLimits false in
  setJoints
    (assign "rightAnkle" rightAnkle (assign "leftAnkle" leftAnkle
    (assign "rightKnee" rightKnee (assign "leftKnee" leftKnee
    (assign "rightHip" rightHip (assign "leftHip" leftHip
    (assign "rightShoulder" rightShoulder (assign "leftShoulder" leftShoulder
    (joints c)))))))))
    c.

(** [disableJointMotor(joint)] and [applyJointMotor(joint, v, f)], on the
    joint stored under [name]: nothing happens when the joint is [null]. *)
Definition disableJointMotor (name : string) (c : t) : t :=
  match joints c !! name with
  | None => c
  | Some joint =>
      setJoints (<[name := configureMotorVelocity 0 0.1 joint]> (joints c)) c
  end.

Definition applyJointMotor (name : string) (targetVelocity maxForce : Q)
  (c : t) : t :=
  match joints c !! name with
  | None => c
  | Some joint =>
      setJoints
        (<[name := configureMotorVelocity targetVelocity maxForce joint]>
           (joints c)) c
  end.

(** [body.applyImpulse(v, true)] on the body stored under [name]. *)
Definition impulse (name : string) (v : Vec.t) (c : t) : t :=
  match bodies c !! name with
  | None => c
  | Some body => setBodies (<[name := applyImpulse v body]> (bodies c)) c
  end.

(** One hip branch of [applyQWOPControls]: key [key] drives the joint
    [hip] and kicks the body [thigh]. *)
Definition hipControl (key hip thigh : string) (inputHandler : InputHandler.t)
  (shouldApplyImpulse : bool) (c : t) : t :=
  if InputHandler.isKeyPressed inputHandler key then
    let c1 := applyJointMotor hip PHYSICS.MAX_MOTOR_VELOCITY
                              PHYSICS.JOINT_MOTOR_MAX_FORCE c in
    if shouldApplyImpulse then impulse thigh (Vec.mk 0.1 0.2) c1 else c1
  else
    disableJointMotor hip c.

(** One knee branch of [applyQWOPControls]. *)
Definition kneeControl (key knee calf : string) (inputHandler : InputHandler.t)
  (shouldApplyImpulse : bool) (c : t) : t :=
  if InputHandler.isKeyPressed inputHandler key then
    let c1 := applyJointMotor knee (- PHYSICS.MAX_MOTOR_VELOCITY)
                              PHYSICS.JOINT_MOTOR_MAX_FORCE c in
    if shouldApplyImpulse then impulse calf (Vec.mk 0.1 0.2) c1 else c1
  else
    match joints c !! knee with
    | Some joint =>
        setJoints
          (<[knee := configureMotorPosition
                       CHARACTER.JOINTS.KNEE.REST_ANGLE
                       (CHARACTER.JOINTS.KNEE.STIFFNESS * 2)
                       (CHARACTER.JOINTS.KNEE.DAMPING * 2) joint]>
             (joints c)) c
    | None => disableJointMotor knee c
    end.

Definition applyQWOPControls (inputHandler : InputHandler.t)
  (shouldApplyImpulse : bool) (c : t) : t :=
  let c1 := hipControl KEYS.Q "leftHip" "leftThigh"
                       inputHandler shouldApplyImpulse c in
  let c2 := hipControl KEYS.W "rightHip" "rightThigh"
                       inputHandler shouldApplyImpulse c1 in
  let c3 := kneeControl KEYS.O "leftKnee" "leftCalf"
                        inputHandler shouldApplyImpulse c2 in
  kneeControl KEYS.P "rightKnee" "rightCalf"
              inputHandler shouldApplyImpulse c3.

(** The shoulder target of [applyArmBalancing]. *)
Definition armTargetAngle (torsoRotation torsoAngularVel : Q) : Q :=
  let counterbalanceStrength := -3.0 in
  let predictiveStrength := -2.0 in
  (counterbalanceStrength * torsoRotation)
  + (predictiveStrength * torsoAngularVel)
  + CHARACTER.JOINTS.SHOULDER.REST_ANGLE.

Definition applyArmBalancing (c : t) : t :=
  match bodies c !! "torso", bodies c !! "leftArm", bodies c !! "rightArm",
        joints c !! "leftShoulder", joints c !! "rightShoulder" with
  | Some torso, Some _, Some _, Some leftShoulder, Some rightShoulder =>
      let shouldApplyImpulse := js_eq (impulseTimer c) 0 in
      let torsoRotation := rotation torso in
      let torsoAngularVel := angvel torso in
      let leftArmTargetAngle := armTargetAngle torsoRotation torsoAngularVel in
      let rightArmTargetAngle := armTargetAngle torsoRotation torsoAngularVel in
      let balanceStiffness := CHARACTER.JOINTS.SHOULDER.STIFFNESS * 2.0 in
      let balanceDamping := CHARACTER.JOINTS.SHOULDER.DAMPING * 1.5 in
      let c1 :=
        setJoints
          (<["rightShoulder" :=
               configureMotorPosition rightArmTargetAngle balanceStiffness
                                      balanceDamping rightShoulder]>
          (<["leftShoulder" :=
               configureMotorPosition leftArmTargetAngle balanceStiffness
                                      balanceDamping leftShoulder]>
             (joints c))) c in
      match bodies c !! "leftThigh", bodies c !! "rightThigh" with
      | Some leftThigh, Some rightThigh =>
          let leftThighPos := translation leftThigh in
          let rightThighPos := translation rightThigh in
          let torsoPos := translation torso in
          let leftThighRelativeX := Vec.x leftThighPos - Vec.x torsoPos in
          let rightThighRelativeX := Vec.x rightThighPos - Vec.x torsoPos in
          if js_gt leftThighRelativeX rightThighRelativeX && shouldApplyImpulse
          then impulse "leftArm" (Vec.mk (-0.05) 0)
                 (impulse "rightArm" (Vec.mk 0.1 0) c1)
          else if js_gt rightThighRelativeX leftThighRelativeX
                  && shouldApplyImpulse
          then impulse "rightArm" (Vec.mk (-0.05) 0)
                 (impulse "leftArm" (Vec.mk 0.1 0) c1)
          else c1
      | _, _ => c1
      end
  | _, _, _, _, _ => c
  end.

(** [applyInputForces(inputHandler)]; [now] is [performance.now()]. *)
Definition applyInputForces (inputHandler : InputHandler.t) (now : Q)
  (c : t) : t :=
  match joints c !! "leftHip", joints c !! "rightHip",
        joints c !! "leftKnee", joints c !! "rightKnee" with
  | Some _, Some _, Some _, Some _ =>
      let currentTime := now in
      let deltaTime := currentTime - lastTimestamp c in
      let timer := impulseTimer c + deltaTime in
      let shouldApplyImpulse := js_ge timer (impulseInterval c) in
      let c1 :=
        mk (physics c) (bodies c) (joints c)
           (if shouldApplyImpulse then 0 else timer)
           (impulseInterval c) currentTime in
      applyArmBalancing (applyQWOPControls inputHandler shouldApplyImpulse c1)
  | _, _, _, _ => c
  end.

(** The outcome of a block that may throw: the state it leaves behind
    either way. *)
Inductive Completion : Type :=
| Normal (c : t)
| Thrown (c : t).

Definition stateOf (r : Completion) : t :=
  match r with
  | Normal c => c
  | Thrown c => c
  end.

Definition andThen (r : Completion) (next : t -> Completion) : Completion :=
  match r with
  | Normal c => next c
  | Thrown c => Thrown c
  end.

(** A pair of [configureMotorPosition] calls of [stabilizeJoints].  The
    test [if (this.joints.first ...)] is null-safe only for the shoulders
    ([guarded]); reading a property of a [null] joint throws. *)
Definition holdPair (guarded : bool) (first second : string)
  (target stiffness damping : Q) (c : t) : Completion :=
  match joints c !! first with
  | None => if guarded then Normal c else Thrown c
  | Some j1 =>
      let c1 :=
        setJoints (<[first := configureMotorPosition target stiffness
                                                     damping j1]> (joints c))
                  c in
      match joints c1 !! second with
      | None => Thrown c1
      | Some j2 =>
          Normal (setJoints
                    (<[second := configureMotorPosition target stiffness
                                                        damping j2]>
                       (joints c1)) c1)
      end
  end.

Definition setDamping (linear angular : Q) (body : RigidBody) : RigidBody :=
  setAngularDamping angular (setLinearDamping linear body).

(** [stabilizeJoints()]: the state it leaves and the timers it schedules. *)
Definition stabilizeJoints (now : Q) (c : t) : t * list Timer :=
  let stiffness := PHYSICS.INITIAL_STIFFNESS in
  let damping := PHYSICS.INITIAL_DAMPING in
  let motors :=
    andThen (andThen
      (holdPair true "leftShoulder" "rightShoulder"
                CHARACTER.JOINTS.SHOULDER.REST_ANGLE stiffness damping c)
      (holdPair false "leftHip" "rightHip" 0 stiffness damping))
      (holdPair false "leftKnee" "rightKnee" (-0.05) stiffness damping) in
  match motors with
  | Thrown c1 => (c1, [])
  | Normal c1 =>
      let c2 := setBodies (setDamping 0.8 0.8 <$> bodies c1) c1 in
      let c3 :=
        match bodies c2 !! "torso" with
        | Some torso =>
            setBodies (<["torso" := setDamping 1.0 1.0 torso]> (bodies c2)) c2
        | None => c2
        end in
      (impulse "torso" (Vec.mk 0 1.5) c3, [mkTimer (now + 500) RelaxDamping])
  end.

(** The body of a timer callback that runs at time [now]. *)
Definition fire (a : TimerAction) (now : Q) (c : t) : t * list Timer :=
  match a with
  | RelaxDamping =>
      (setBodies (setDamping 0.5 0.5 <$> bodies c) c,
       [mkTimer (now + 500) RestoreDamping])
  | RestoreDamping =>
      (setBodies (setDamping PHYSICS.LINEAR_DAMPING PHYSICS.ANGULAR_DAMPING
                    <$> bodies c) c, [])
  | StartImpulse =>
      (match bodies c !! "torso" with
       | Some torso =>
           setBodies
             (<["torso" := applyAngularImpulse (-0.1)
                             (applyImpulse (Vec.mk 0 1.0) torso)]> (bodies c))
             c
       | None => c
       end, [])
  end.

Definition init (now : Q) (c : t) : t * list Timer :=
  stabilizeJoints now (createJoints (createPhysicsBodies c)).

Definition zeroVelocity (body : RigidBody) : RigidBody :=
  setAngvel 0 (setLinvel (Vec.mk 0 0) body).

Definition reset (now : Q) (c : t) : t * list Timer :=
  let c1 := createPhysicsBodies c in
  let c2 := setBodies (zeroVelocity <$> bodies c1) c1 in
  let c3 := createJoints c2 in
  stabilizeJoints now c3.

Definition getPosition (c : t) : option Vec.t :=
  translation <$> bodies c !! "torso".

Section Trigonometry.
Variables Math_sin Math_cos : Q -> Q.

(** The head's centre, as [isHeadTouchingGround] and [syncGraphics]
    compute it from the torso. *)
Definition headPosition (torso : RigidBody) : Vec.t :=
  let torsoPosition := translation torso in
  let torsoRotation := rotation torso in
  let torsoHeight := CHARACTER.PARTS.TORSO.HEIGHT in
  let torsoHeadOffset := torsoHeight / 2 + 0.1 in
  let headX := Vec.x torsoPosition - Math_sin torsoRotation * torsoHeadOffset in
  let headY := Vec.y torsoPosition + Math_cos torsoRotation * torsoHeadOffset in
  Vec.mk headX headY.

Definition isHeadTouchingGround (c : t) : bool :=
  match bodies c !! "torso" with
  | None => false
  | Some torso =>
      let headRadius := 0.15 in
      let headY := Vec.y (headPosition torso) in
      js_le (headY - headRadius) GAME_OVER.HEAD_GROUND_THRESHOLD
  end.

End Trigonometry.

End Character.

(** ** src/ui.js

    A display holds the number whose [toFixed(1)] rendering is its text;
    [None] is the text the page came with. *)

Module UI.

Inductive Panel : Type := mainMenuPanel | gameUIPanel | gameOverPanel.

Record t : Type := mk {
  scoreDisplay : option Q;
  finalScoreDisplay : option Q;
  shown : option Panel
}.

Definition new : t := mk None None None.

Definition updateScore (distance : Q) (ui : t) : t :=
  let formattedDistance := inject_Z (Qfloor (distance * 10)) / 10 in
  mk (Some formattedDistance) (finalScoreDisplay ui) (shown ui).

Definition showMainMenu (ui : t) : t :=
  mk (scoreDisplay ui) (finalScoreDisplay ui) (Some mainMenuPanel).

Definition showGameUI (ui : t) : t :=
  mk (scoreDisplay ui) (finalScoreDisplay ui) (Some gameUIPanel).

Definition showGameOver (finalScore : Q) (ui : t) : t :=
  mk (scoreDisplay ui) (Some finalScore) (Some gameOverPanel).

End UI.

(** ** src/game.js *)

Module Game.

Record t : Type := mk {
  physics : PhysicsWorld.t;
  input : InputHandler.t;
  ui : UI.t;
  character : Character.t;
  lastTime : Q;
  gameState : GAME_STATES.t;
  maxDistance : Q
}.

Definition setCharacter (c : Character.t) (g : t) : t :=
  mk (physics g) (input g) (ui g) c (lastTime g) (gameState g) (maxDistance g).

Definition setInput (h : InputHandler.t) (g : t) : t :=
  mk (physics g) h (ui g) (character g) (lastTime g) (gameState g)
     (maxDistance g).

(** [new Game(canvas)] followed by [init()], at time [now]; [faults]
    names the joints the engine will fail to create. *)
Definition init (faults : gset string) (now : Q) : t * list Timer :=
  let physicsWorld := PhysicsWorld.init faults in
  let '(c, timers) :=
    Character.init now (Character.new physicsWorld now) in
  (mk physicsWorld InputHandler.new (UI.showMainMenu UI.new) c 0
      GAME_STATES.MAIN_MENU 0,
   timers).

Definition start (now : Q) (g : t) : t * list Timer :=
  let '(c, timers) := Character.reset now (character g) in
  (mk (physics g) (InputHandler.reset (input g))
      (UI.updateScore 0 (UI.showGameUI (ui g))) c now
      GAME_STATES.PLAYING 0,
   (timers ++ [mkTimer (now + 100) StartImpulse])%list).

Definition restart (now : Q) (g : t) : t * list Timer := start now g.

Definition gameOver (g : t) : t :=
  mk (physics g) (input g) (UI.showGameOver (maxDistance g) (ui g))
     (character g) (lastTime g) GAME_STATES.GAME_OVER (maxDistance g).

Section Engine.
Variables Math_sin Math_cos : Q -> Q.
Variable solve : gmap string Rapier.RigidBody ->
                 gmap string Rapier.ImpulseJoint ->
                 gmap string Rapier.RigidBody.

Definition checkGameOver (g : t) : bool :=
  Character.isHeadTouchingGround Math_sin Math_cos (character g).

(** [this.physics.step()] as the character sees it. *)
Definition stepPhysics (p : PhysicsWorld.t) (c : Character.t) : Character.t :=
  Character.setBodies
    (PhysicsWorld.step p solve (Character.bodies c) (Character.joints c)) c.

(** [update()]; [now] is the [performance.now()] that [applyInputForces]
    reads.  [None] is the [TypeError] of [getPosition] on a missing
    torso. *)
Definition update (now : Q) (g : t) : option t :=
  if negb (GAME_STATES.eqb (gameState g) GAME_STATES.PLAYING) then Some g
  else
    let g1 :=
      setCharacter
        (stepPhysics (physics g)
           (Character.applyInputForces (input g) now (character g))) g in
    if checkGameOver g1 then Some (gameOver g1)
    else
      match Character.getPosition (character g1) with
      | None => None
      | Some position =>
          if js_gt (Vec.x position) (maxDistance g1) then
            Some (mk (physics g1) (input g1)
                     (UI.updateScore (Vec.x position) (ui g1))
                     (character g1) (lastTime g1) (gameState g1)
                     (Vec.x position))
          else Some g1
      end.

End Engine.

End Game.

(** ** The browser's event loop

    What happens to the game is a sequence of events: the two buttons,
    key presses, one fixed update, and a timer task.  A timer task at
    time [now] runs the pending callback that is due first, if one is
    due. *)

Module EventLoop.

Record Runtime : Type := mkRuntime {
  game : Game.t;
  pending : list Timer
}.

Inductive Event : Type :=
| Start (now : Q)
| Update (now : Q)
| KeyDown (code : string)
| KeyUp (code : string)
| Timeout (now : Q).

(** The pending timer that is due at [now] with the least due time (the
    earliest scheduled among equals), and the others. *)
Fixpoint pickDue (now : Q) (timers : list Timer)
  : option (Timer * list Timer) :=
  match timers with
  | [] => None
  | tm :: rest =>
      match pickDue now rest with
      | Some (best, others) =>
          if js_le (due tm) now && js_le (due tm) (due best)
          then Some (tm, rest)
          else Some (best, tm :: others)
      | None => if js_le (due tm) now then Some (tm, rest) else None
      end
  end.

Definition boot (faults : gset string) (now : Q) : Runtime :=
  let '(g, timers) := Game.init faults now in mkRuntime g timers.

Section Engine.
Variables Math_sin Math_cos : Q -> Q.
Variable solve : gmap string Rapier.RigidBody ->
                 gmap string Rapier.ImpulseJoint ->
                 gmap string Rapier.RigidBody.

Definition handle (e : Event) (r : Runtime) : option Runtime :=
  match e with
  | Start now =>
      let '(g, timers) := Game.start now (game r) in
      Some (mkRuntime g (pending r ++ timers)%list)
  | Update now =>
      match Game.update Math_sin Math_cos solve now (game r) with
      | Some g => Some (mkRuntime g (pending r))
      | None => None
      end
  | KeyDown code =>
      Some (mkRuntime
              (Game.setInput (InputHandler.keydown code (Game.input (game r)))
                             (game r))
              (pending r))
  | KeyUp code =>
      Some (mkRuntime
              (Game.setInput (InputHandler.keyup code (Game.input (game r)))
                             (game r))
              (pending r))
  | Timeout now =>
      match pickDue now (pending r) with
      | None => Some r
      | Some (tm, others) =>
          let '(c, timers) :=
            Character.fire (action tm) now (Game.character (game r)) in
          Some (mkRuntime (Game.setCharacter c (game r))
                          (others ++ timers)%list)
      end
  end.

Fixpoint run (events : list Event) (r : Runtime) : option Runtime :=
  match events with
  | [] => Some r
  | e :: rest =>
      match handle e r with
      | Some r' => run rest r'
      | None => None
      end
  end.

End Engine.

End EventLoop.

(** ** What the statements observe *)

Definition motorOf (name : string) (c : Character.t) : option Rapier.Motor :=
  Rapier.motor <$> Character.joints c !! name.

Definition impulsesOf (name : string) (c : Character.t)
  : option (list Vec.t) :=
  Rapier.impulses <$> Character.bodies c !! name.

(** The number of impulses a link has received since it was built. *)
Definition kicks (name : string) (c : Character.t) : nat :=
  length (default [] (impulsesOf name c)).

Definition bodyNames : list string :=
  ["torso"; "leftArm"; "rightArm"; "leftThigh"; "rightThigh";
   "leftCalf"; "rightCalf"; "leftFoot"; "rightFoot"].

Definition jointNames : list string :=
  ["leftShoulder"; "rightShoulder"; "leftHip"; "rightHip";
   "leftKnee"; "rightKnee"; "leftAnkle"; "rightAnkle"].

(** The four joints [applyInputForces] insists on. *)
Definition legJoints (c : Character.t) : Prop :=
  Forall (fun name => is_Some (Character.joints c !! name))
         ["leftHip"; "rightHip"; "leftKnee"; "rightKnee"].





Section Stepping.
Variable solve : gmap string Rapier.RigidBody ->
                 gmap string Rapier.ImpulseJoint ->
                 gmap string Rapier.RigidBody.

(** One fixed step of the controller and the engine, outside the fall
    check: what [Game.update] does to the character. *)
Definition tick (p : PhysicsWorld.t) (inputHandler : InputHandler.t)
  (now : Q) (c : Character.t) : Character.t :=
  Game.stepPhysics solve p (Character.applyInputForces inputHandler now c).

Fixpoint ticks (p : PhysicsWorld.t) (inputHandler : InputHandler.t)
  (times : list Q) (c : Character.t) : Character.t :=
  match times with
  | [] => c
  | now :: later => ticks p inputHandler later (tick p inputHandler now c)
  end.

End Stepping.



(** The torso abscissas that [Game.update] samples along a run: one for
    each update that is played and does not end the game. *)
Section Sampling.
Variables Math_sin Math_cos : Q -> Q.
Variable solve : gmap string Rapier.RigidBody ->
                 gmap string Rapier.ImpulseJoint ->
                 gmap string Rapier.RigidBody.

Definition sample (now : Q) (g : Game.t) : option Q :=
  if negb (GAME_STATES.eqb (Game.gameState g) GAME_STATES.PLAYING) then None
  else
    let c := tick solve (Game.physics g) (Game.input g) now
                  (Game.character g) in
    if Character.isHeadTouchingGround Math_sin Math_cos c then None
    else Vec.x <$> Character.getPosition c.

Fixpoint sampled (events : list EventLoop.Event) (r : EventLoop.Runtime)
  : list Q :=
  match events with
  | [] => []
  | e :: rest =>
      let here :=
        match e with
        | EventLoop.Update now =>
            match sample now (EventLoop.game r) with
            | Some x => [x]
            | None => []
            end
        | _ => []
        end in
      match EventLoop.handle Math_sin Math_cos solve e r with
      | Some r' => here ++ sampled rest r'
      | None => here
      end
  end%list.

End Sampling.




(** The key state with [Q] held down. *)
Definition holdingQ : InputHandler.t :=
  InputHandler.keydown KEYS.Q InputHandler.new.



Definition isStart (e : EventLoop.Event) : bool :=
  match e with EventLoop.Start _ => true | _ => false end.

(** ** Concrete inputs *)

(** Stand-ins for [Math.sin] and [Math.cos] that agree with them at 0. *)
Definition sinTaylor (r : Q) : Q := r - r * r * r / 6.
Definition cosTaylor (r : Q) : Q := 1 - r * r / 2.

(** An engine that leaves every body where it is. *)
Definition still (bs : gmap string Rapier.RigidBody)
  (js : gmap string Rapier.ImpulseJoint) : gmap string Rapier.RigidBody := bs.

(** An engine that carries every body one metre forward and one metre
    down at each step. *)
Definition drift (bs : gmap string Rapier.RigidBody)
  (js : gmap string Rapier.ImpulseJoint) : gmap string Rapier.RigidBody :=
  (fun b =>
     Rapier.mkBody
       (Vec.add (Rapier.translation b) (Vec.mk 1 (-1)))
       (Rapier.rotation b) (Rapier.linvel b) (Rapier.angvel b)
       (Rapier.linearDamping b) (Rapier.angularDamping b)
       (Rapier.collider b) (Rapier.impulses b)) <$> bs.

(** The page loaded at time 0 with a sound engine, and the same after the
    start button at 2000 ms. *)
Definition loaded : EventLoop.Runtime := EventLoop.boot ∅ 0.

Definition started : EventLoop.Runtime :=
  let '(g, timers) := Game.start 2000 (EventLoop.game loaded) in
  EventLoop.mkRuntime g (EventLoop.pending loaded ++ timers)%list.



(** ** JavaScript numbers that are rounded

    A JavaScript number is an IEEE 754 binary64 value: 53 significant
    bits, every arithmetic result rounded to the nearest such value, ties
    to the even significand.  [Double.round] is that rounding on exact
    rationals, and [Double.add], [Double.sub], [Double.mul] and
    [Double.div] are the four operations.  The exponent is not bounded
    here: overflow to infinity, the subnormal numbers, NaN and the sign
    of zero are outside the model. *)

Module Double.

(** The nearest integer, the even one on a tie. *)
Definition nearest (x : Q) : Z :=
  let f := Qfloor x in
  match (x - inject_Z f ?= 1 # 2)%Q with
  | Lt => f
  | Eq => if Z.even f then f else (f + 1)%Z
  | Gt => (f + 1)%Z
  end.

(** The binary exponent of a positive number: the [e] with
    2^e <= x < 2^(e+1). *)
Definition ilog2 (x : Q) : Z :=
  let k := (Z.log2 (Qnum x) - Z.log2 (Zpos (Qden x)))%Z in
  if Qle_bool (2 ^ k) x then k else (k - 1)%Z.

(** The unit in the last of the 53 places of a positive number. *)
Definition ulp (x : Q) : Q := 2 ^ (ilog2 x - 52).

Definition roundPositive (x : Q) : Q :=
  inject_Z (nearest (x / ulp x)) * ulp x.

Definition round (x : Q) : Q :=
  match Qnum x with
  | Z0 => 0
  | Zpos _ => roundPositive x
  | Zneg _ => - roundPositive (- x)
  end.

Definition add (a b : Q) : Q := round (a + b).
Definition sub (a b : Q) : Q := round (a - b).
Definition mul (a b : Q) : Q := round (a * b).
Definition div (a b : Q) : Q := round (a / b).

(** The numbers that are binary64 values. *)
Definition representable (x : Q) : Prop := round x == x.

End Double.

(** ** src/utils.js *)

Module Utils.

Definition lerp (start stop alpha : Q) : Q :=
  Double.add (Double.mul start (Double.sub 1 alpha)) (Double.mul stop alpha).

(** [Math.min] and [Math.max] return one of their arguments: no
    rounding. *)
Definition clamp (value lo hi : Q) : Q := Qmin (Qmax value lo) hi.

Definition toDegrees (radians : Q) : Q :=
  Double.mul radians (Double.div 180 Math_PI).

Definition toRadians (degrees : Q) : Q :=
  Double.mul degrees (Double.div Math_PI 180).

(** [formatDistance(distance, decimals)]: the number whose
    [toFixed(decimals)] rendering is returned.  [toFixed] throws a
    [RangeError] unless 0 <= decimals <= 100; [None] is that error.
    [10 ** decimals] is exact for 0 <= decimals <= 22; beyond that the
    engine's power is an approximation, for which the rounded power
    stands. *)
Definition formatDistance (distance : Q) (decimals : Z) : option Q :=
  let scale := Double.round (10 ^ decimals) in
  let truncated :=
    Double.div (inject_Z (Qfloor (Double.mul distance scale))) scale in
  if ((0 <=? decimals) && (decimals <=? 100))%Z then Some truncated
  else None.

End Utils.

(** ** The ground and the hurdles of src/physics.js *)

Module Track.

Record Collider : Type := mkCollider {
  halfWidth : Q;
  halfHeight : Q;
  offset : Vec.t;            (* translation relative to the body *)
  friction : Q;
  restitution : Q;
  collisionGroups : Z
}.

Record Body : Type := mkBody {
  translation : Vec.t;
  colliders : list Collider
}.

Definition groundGroups : Z :=
  Z.lor (Z.shiftl (CollisionFilters.memberships CollisionFilters.GROUND) 16)
        (CollisionFilters.filter CollisionFilters.GROUND).

(** The [for (let i = 15; i < 500; i += 15)] loop of
    [createHurdleColliders], with the colliders in the order they are
    created; [fuel] bounds the number of iterations. *)
Fixpoint hurdleLoop (fuel : nat) (i : Z) : list Collider :=
  match fuel with
  | O => []
  | S fuel' =>
      if (i <? 500)%Z then
        if (i <? 15)%Z then hurdleLoop fuel' (i + 15)%Z
        else
          mkCollider 0.05 0.25 (Vec.mk (inject_Z i) 0.5) 0.2 0.5 groundGroups
          :: hurdleLoop fuel' (i + 15)%Z
      else []
  end.

Definition createHurdleColliders : list Collider := hurdleLoop 500 15.

Definition createGround : Body :=
  let cameraHeight := 10 in
  let cameraBottom := - cameraHeight / 2 in
  let groundY := cameraBottom + 0.25 in
  let trackLength := 250 in
  mkBody (Vec.mk 0 groundY)
         (mkCollider trackLength 0.25 Vec.zero PHYSICS.GROUND_FRICTION 0.0
                     groundGroups
          :: createHurdleColliders).

(** The world extent of a collider of a body that is not rotated. *)
Definition left (b : Body) (k : Collider) : Q :=
  Vec.x (translation b) + Vec.x (offset k) - halfWidth k.
Definition right (b : Body) (k : Collider) : Q :=
  Vec.x (translation b) + Vec.x (offset k) + halfWidth k.
Definition bottom (b : Body) (k : Collider) : Q :=
  Vec.y (translation b) + Vec.y (offset k) - halfHeight k.
Definition top (b : Body) (k : Collider) : Q :=
  Vec.y (translation b) + Vec.y (offset k) + halfHeight k.

(** The surface the character stands on: the top of the track collider. *)
Definition surface : Q :=
  match colliders createGround with
  | track :: _ => top createGround track
  | [] => 0
  end.

End Track.

(** Rapier's test on two packed collision groups (memberships in the
    high 16 bits, filter in the low 16): the colliders interact when each
    one's memberships meet the other's filter. *)
Module InteractionGroups.

Definition memberships (groups : Z) : Z := Z.shiftr groups 16.
Definition filter (groups : Z) : Z := Z.land groups 0xFFFF.

Definition test (a b : Z) : bool :=
  negb (Z.land (memberships a) (filter b) =? 0)%Z
  && negb (Z.land (memberships b) (filter a) =? 0)%Z.

(** A collider that was given no groups has the engine's default: every
    membership, every filter. *)
Definition interact (a b : option Z) : bool :=
  test (default 0xFFFFFFFF%Z a) (default 0xFFFFFFFF%Z b).

End InteractionGroups.

(** ** The colour of the score and the medal of src/ui.js *)

Module UIStyle.

(** The colour [updateScore(distance)] leaves on the score display that
    had the colour [color]. *)
Definition updateScoreColor (distance : Q) (color : string) : string :=
  if js_ge distance 100 then "#FFD700"
  else if js_ge distance 50 then "#C0C0C0"
  else if js_ge distance 25 then "#CD7F32"
  else color.

(** The colour [showGameOver(finalScore)] gives the medal display. *)
Definition medalColor (finalScore : Q) : string :=
  if js_ge finalScore 100 then "#FFD700"
  else if js_ge finalScore 50 then "#C0C0C0"
  else if js_ge finalScore 25 then "#CD7F32"
  else "white".

End UIStyle.

(** ** [Game.gameLoop]

    The accumulator is a field of the game object that the rest of the
    model does not need; it is carried beside the game.  [clock k] is the
    value of [performance.now()] during the [k]-th update of the frame.
    Rendering and the request for the next frame are left out. *)

Module GameLoop.

Section Engine.
Variables Math_sin Math_cos : Q -> Q.
Variable solve : gmap string Rapier.RigidBody ->
                 gmap string Rapier.ImpulseJoint ->
                 gmap string Rapier.RigidBody.



End Engine.

End GameLoop.

(** ** The gyro controller (second part of src/graphics.js)

    The last raw angles [beta] and [gamma] are numbers or [null].
    [handleOrientation] reads [PHYSICS.GYRO.SMOOTHING_FACTOR], which is
    not among the constants of the repository, and is left out.  The
    arithmetic of the targets is the rounded arithmetic of [Double]. *)

Module GyroController.

Record t : Type := mk {
  active : bool;
  beta : option Q;
  gamma : option Q;
  smoothedBeta : Q;
  smoothedGamma : Q;
  isCalibrated : bool;
  neutralBeta : Q;
  neutralGamma : Q;
  maxBetaTilt : Q;
  maxGammaTilt : Q;
  thighAngleRange : Q;
  thighDiffRange : Q;
  calfTargetAngle : Q
}.

Record TargetAngles : Type := mkTargets {
  leftThigh : Q;
  rightThigh : Q;
  leftCalf : Q;
  rightCalf : Q
}.

Definition new : t :=
  mk false (Some 0) (Some 0) 0 0 false 15 0 45 30
     (Double.div Math_PI 2) (Double.div Math_PI 4)
     (Double.div (- Math_PI) 6).

(** The successful paths of [enable()], and [disable()]. *)
Definition enabled (s : t) : t :=
  mk true (beta s) (gamma s) (smoothedBeta s) (smoothedGamma s)
     (isCalibrated s) (neutralBeta s) (neutralGamma s) (maxBetaTilt s)
     (maxGammaTilt s) (thighAngleRange s) (thighDiffRange s)
     (calfTargetAngle s).

Definition disable (s : t) : t :=
  mk false (beta s) (gamma s) (smoothedBeta s) (smoothedGamma s)
     (isCalibrated s) (neutralBeta s) (neutralGamma s) (maxBetaTilt s)
     (maxGammaTilt s) (thighAngleRange s) (thighDiffRange s)
     (calfTargetAngle s).

Definition calibrate (s : t) : t :=
  match beta s, gamma s with
  | Some b, Some g =>
      mk (active s) (beta s) (gamma s) (smoothedBeta s) (smoothedGamma s)
         true b g (maxBetaTilt s) (maxGammaTilt s) (thighAngleRange s)
         (thighDiffRange s) (calfTargetAngle s)
  | _, _ => s
  end.

Definition resetCalibration (s : t) : t :=
  mk (active s) (beta s) (gamma s) (smoothedBeta s) (smoothedGamma s)
     false (neutralBeta s) (neutralGamma s) (maxBetaTilt s)
     (maxGammaTilt s) (thighAngleRange s) (thighDiffRange s)
     (calfTargetAngle s).

Definition calculateTargetAngles (s : t) : TargetAngles :=
  if negb (active s) || negb (isCalibrated s) then mkTargets 0 0 0 0
  else
    let pitchInput :=
      Double.div (Double.sub (smoothedBeta s) (neutralBeta s))
                 (maxBetaTilt s) in
    let rollInput :=
      Double.div (Double.sub (smoothedGamma s) (neutralGamma s))
                 (maxGammaTilt s) in
    let pitchInput := Qmax (-1) (Qmin 1 pitchInput) in
    let rollInput := Qmax (-1) (Qmin 1 rollInput) in
    let baseThighTarget :=
      Double.mul (- pitchInput) (Double.div (thighAngleRange s) 2) in
    let thighDiffTarget :=
      Double.mul rollInput (Double.div (thighDiffRange s) 2) in
    let targetLeftThighAngle := Double.add baseThighTarget thighDiffTarget in
    let targetRightThighAngle :=
      Double.sub baseThighTarget thighDiffTarget in
    mkTargets targetLeftThighAngle targetRightThighAngle
              (calfTargetAngle s) (calfTargetAngle s).

End GyroController.

(** ** More of what the statements observe *)

(** The world ordinate of the point of a body given in the body's frame,
    the way the head is placed from the torso. *)
Definition worldY (Math_sin Math_cos : Q -> Q) (b : Rapier.RigidBody)
  (local : Vec.t) : Q :=
  Vec.y (Rapier.translation b)
  + Vec.x local * Math_sin (Rapier.rotation b)
  + Vec.y local * Math_cos (Rapier.rotation b).

(** The packed collision groups of a link. *)
Definition groupsOf (b : Rapier.RigidBody) : option Z :=
  Rapier.collisionGroups (Rapier.collider b).

(** A joint whose limits are enabled and in order. *)
Definition orderedLimits (j : Rapier.ImpulseJoint) : Prop :=
  match Rapier.limits j with
  | Some (lo, hi) => lo <= hi
  | None => False
  end.

(** Every joint the character holds is one of the eight of the skeleton
    and has ordered limits. *)
Definition jointsInOrder (c : Character.t) : Prop :=
  forall name j,
    Character.joints c !! name = Some j ->
    name ∈ jointNames /\ orderedLimits j.

(** The stabilization can finish: the legs are jointed, and the right
    shoulder is not missing beside a left one. *)
Definition canStabilize (c : Character.t) : Prop :=
  legJoints c
  /\ (is_Some (Character.joints c !! "leftShoulder") ->
      is_Some (Character.joints c !! "rightShoulder")).

(** The keys the input handler tracks. *)
Definition trackedKeys : list string :=
  [KEYS.Q; KEYS.W; KEYS.O; KEYS.P; KEYS.SPACE; KEYS.ESC].

(** The names every object inherits from [Object.prototype]; the [in]
    test of the key listeners answers true for them.  No keyboard code is
    among them. *)
Definition inherited : list string :=
  ["constructor"; "toString"; "toLocaleString"; "valueOf";
   "hasOwnProperty"; "isPrototypeOf"; "propertyIsEnumerable"; "__proto__";
   "__defineGetter__"; "__defineSetter__"; "__lookupGetter__";
   "__lookupSetter__"].

(** An input handler whose table holds exactly the tracked keys, as the
    constructor builds it. *)
Definition Tracked (h : InputHandler.t) : Prop :=
  forall code,
    is_Some (InputHandler.keyState h !! code) <-> code ∈ trackedKeys.

(** [x.toFixed(1)] for a number that is not negative, as a number: the
    nearest multiple of one tenth, the larger one on a tie. *)
Definition toFixed1 (x : Q) : Q := inject_Z (Qfloor (x * 10 + 1 / 2)) / 10.

(** The torso is there: [Game.update] and the timers can run. *)
Definition torsoPresent (g : Game.t) : Prop :=
  is_Some (Character.bodies (Game.character g) !! "torso").

(** The instants of the calls come in order, starting from [last]. *)
Fixpoint inOrder (last : Q) (times : list Q) : Prop :=
  match times with
  | [] => True
  | now :: later => last <= now /\ inOrder now later
  end.

(** What the controller may do to a joint: give it another motor, and
    not even that to an ankle. *)
Definition kept (js js' : gmap string Rapier.ImpulseJoint) : Prop :=
  forall name j',
    js' !! name = Some j' ->
    exists j, js !! name = Some j /\ Rapier.limits j' = Rapier.limits j
              /\ (name = "leftAnkle" \/ name = "rightAnkle" ->
                  Rapier.motor j' = Rapier.motor j).

(** The ankles have no motor. *)
Definition passiveAnkles (c : Character.t) : Prop :=
  forall name j,
    name = "leftAnkle" \/ name = "rightAnkle" ->
    Character.joints c !! name = Some j ->
    Rapier.motor j = Rapier.MotorNone.

Definition sound (c : Character.t) : Prop :=
  jointsInOrder c /\ passiveAnkles c.

(** What a game keeps while no run is in progress: state, score, display,
    joints, gate, and the pose of every link. *)
Definition parked (g g' : Game.t) : Prop :=
  Game.gameState g' = Game.gameState g
  /\ Game.maxDistance g' = Game.maxDistance g
  /\ Game.ui g' = Game.ui g
  /\ Character.joints (Game.character g') = Character.joints (Game.character g)
  /\ Character.impulseTimer (Game.character g')
     = Character.impulseTimer (Game.character g)
  /\ Character.lastTimestamp (Game.character g')
     = Character.lastTimestamp (Game.character g)
  /\ forall name,
       (fun b => (Rapier.translation b, Rapier.rotation b))
         <$> Character.bodies (Game.character g') !! name
       = (fun b => (Rapier.translation b, Rapier.rotation b))
           <$> Character.bodies (Game.character g) !! name.

(** The groups each link of the skeleton is created with, and their
    packed form. *)
Definition filterOf (name : string) : CollisionFilters.t :=
  if decide (name = "torso") then CollisionFilters.TORSO
  else if decide (name ∈ ["leftArm"; "leftThigh"; "leftCalf"; "leftFoot"])
       then CollisionFilters.LEFT_LEG
       else CollisionFilters.RIGHT_LEG.

Definition packed (f : CollisionFilters.t) : Z :=
  Z.lor (Z.shiftl (CollisionFilters.memberships f) 16)
        (CollisionFilters.filter f).

(** The hurdle collider the loop creates at abscissa [i]. *)
Definition hurdleAt (i : Z) : Track.Collider :=
  Track.mkCollider 0.05 0.25 (Vec.mk (inject_Z i) 0.5) 0.2 0.5
                   Track.groundGroups.


Ltac solve_legs :=
  repeat (apply Forall_cons; split; [vm_compute; eauto|]); apply Forall_nil_2.

(** ** Comparisons *)

Lemma js_ge_true a b : js_ge a b = true <-> b <= a.
Proof. unfold js_ge. apply Qle_bool_iff. Qed.

Lemma js_ge_false a b : js_ge a b = false <-> a < b.
Proof.
  unfold js_ge. rewrite <- not_true_iff_false, Qle_bool_iff.
  split; [apply Qnot_le_lt | apply Qlt_not_le].
Qed.

Lemma js_le_true a b : js_le a b = true <-> a <= b.
Proof. unfold js_le. apply Qle_bool_iff. Qed.

Lemma js_gt_true a b : js_gt a b = true <-> b < a.
Proof.
  unfold js_gt. rewrite negb_true_iff, <- not_true_iff_false, Qle_bool_iff.
  split; [apply Qnot_le_lt | apply Qlt_not_le].
Qed.

Lemma js_gt_false a b : js_gt a b = false <-> a <= b.
Proof. unfold js_gt. rewrite negb_false_iff. apply Qle_bool_iff. Qed.



(** ** The controller, statement by statement *)

Module CharacterFacts.
Import Rapier Character.

Lemma alter_lookup_match {A} (f : A -> A) (k : string) (m : gmap string A) :
  match m !! k with Some a => <[k := f a]> m | None => m end = alter f k m.
Proof.
  apply map_eq. intros i. destruct (m !! k) as [a|] eqn:E.
  - destruct (decide (k = i)) as [->|].
    + by rewrite lookup_insert_eq, lookup_alter_eq, E.
    + by rewrite lookup_insert_ne, lookup_alter_ne.
  - destruct (decide (k = i)) as [->|].
    + by rewrite lookup_alter_eq, E.
    + by rewrite lookup_alter_ne.
Qed.

Lemma insert_as_alter {A} (f : A -> A) (k : string) (m : gmap string A) a :
  m !! k = Some a -> <[k := f a]> m = alter f k m.
Proof. intros E. rewrite <- alter_lookup_match. by rewrite E. Qed.

Lemma applyJointMotor_alter name v f c :
  applyJointMotor name v f c
  = setJoints (alter (configureMotorVelocity v f) name (joints c)) c.
Proof.
  unfold applyJointMotor. rewrite <- alter_lookup_match.
  destruct (joints c !! name); [done|]. unfold setJoints. by destruct c.
Qed.

Lemma disableJointMotor_alter name c :
  disableJointMotor name c
  = setJoints (alter (configureMotorVelocity 0 0.1) name (joints c)) c.
Proof.
  unfold disableJointMotor. rewrite <- alter_lookup_match.
  destruct (joints c !! name); [done|]. unfold setJoints. by destruct c.
Qed.

Lemma impulse_alter name v c :
  impulse name v c = setBodies (alter (applyImpulse v) name (bodies c)) c.
Proof.
  unfold impulse. rewrite <- alter_lookup_match.
  destruct (bodies c !! name); [done|]. unfold setBodies. by destruct c.
Qed.

(** A motor command on a [null] joint does nothing. *)
Lemma applyJointMotor_null name v f c :
  joints c !! name = None -> applyJointMotor name v f c = c.
Proof. unfold applyJointMotor. by intros ->. Qed.

Lemma disableJointMotor_null name c :
  joints c !! name = None -> disableJointMotor name c = c.
Proof. unfold disableJointMotor. by intros ->. Qed.

Lemma hipControl_joints key hip thigh h s c :
  joints (hipControl key hip thigh h s c)
  = alter (if InputHandler.isKeyPressed h key
           then configureMotorVelocity PHYSICS.MAX_MOTOR_VELOCITY
                                       PHYSICS.JOINT_MOTOR_MAX_FORCE
           else configureMotorVelocity 0 0.1) hip (joints c).
Proof.
  unfold hipControl.
  destruct (InputHandler.isKeyPressed h key), s;
    rewrite ?impulse_alter, ?applyJointMotor_alter, ?disableJointMotor_alter;
    reflexivity.
Qed.

Lemma hipControl_bodies key hip thigh h s c :
  bodies (hipControl key hip thigh h s c)
  = alter (if InputHandler.isKeyPressed h key && s
           then applyImpulse (Vec.mk 0.1 0.2) else id) thigh (bodies c).
Proof.
  unfold hipControl.
  destruct (InputHandler.isKeyPressed h key), s;
    rewrite ?impulse_alter, ?applyJointMotor_alter, ?disableJointMotor_alter;
    simpl; rewrite ?alter_id by done; reflexivity.
Qed.

Lemma hipControl_gate key hip thigh h s c :
  impulseTimer (hipControl key hip thigh h s c) = impulseTimer c
  /\ impulseInterval (hipControl key hip thigh h s c) = impulseInterval c
  /\ lastTimestamp (hipControl key hip thigh h s c) = lastTimestamp c
  /\ physics (hipControl key hip thigh h s c) = physics c.
Proof.
  unfold hipControl.
  destruct (InputHandler.isKeyPressed h key), s;
    rewrite ?impulse_alter, ?applyJointMotor_alter, ?disableJointMotor_alter;
    done.
Qed.

Lemma kneeControl_joints key knee calf h s c :
  joints (kneeControl key knee calf h s c)
  = alter (if InputHandler.isKeyPressed h key
           then configureMotorVelocity (- PHYSICS.MAX_MOTOR_VELOCITY)
                                       PHYSICS.JOINT_MOTOR_MAX_FORCE
           else configureMotorPosition CHARACTER.JOINTS.KNEE.REST_ANGLE
                  (CHARACTER.JOINTS.KNEE.STIFFNESS * 2)
                  (CHARACTER.JOINTS.KNEE.DAMPING * 2)) knee (joints c).
Proof.
  unfold kneeControl.
  destruct (InputHandler.isKeyPressed h key).
  - destruct s; rewrite ?impulse_alter, ?applyJointMotor_alter; reflexivity.
  - destruct (joints c !! knee) as [j|] eqn:E.
    + simpl. by apply insert_as_alter.
    + rewrite disableJointMotor_null by done.
      rewrite <- alter_lookup_match. by rewrite E.
Qed.

Lemma kneeControl_bodies key knee calf h s c :
  bodies (kneeControl key knee calf h s c)
  = alter (if InputHandler.isKeyPressed h key && s
           then applyImpulse (Vec.mk 0.1 0.2) else id) calf (bodies c).
Proof.
  unfold kneeControl.
  destruct (InputHandler.isKeyPressed h key).
  - destruct s; rewrite ?impulse_alter, ?applyJointMotor_alter;
      simpl; rewrite ?alter_id by done; reflexivity.
  - simpl. rewrite alter_id by done.
    destruct (joints c !! knee) as [j|] eqn:E; [done|].
    by rewrite disableJointMotor_null.
Qed.

Lemma kneeControl_gate key knee calf h s c :
  impulseTimer (kneeControl key knee calf h s c) = impulseTimer c
  /\ impulseInterval (kneeControl key knee calf h s c) = impulseInterval c
  /\ lastTimestamp (kneeControl key knee calf h s c) = lastTimestamp c
  /\ physics (kneeControl key knee calf h s c) = physics c.
Proof.
  unfold kneeControl.
  destruct (InputHandler.isKeyPressed h key).
  - destruct s; rewrite ?impulse_alter, ?applyJointMotor_alter; done.
  - destruct (joints c !! knee) as [j|] eqn:E; [done|].
    by rewrite disableJointMotor_null.
Qed.

Lemma qwop_joints h s c :
  joints (applyQWOPControls h s c)
  = alter (if InputHandler.isKeyPressed h KEYS.P
           then configureMotorVelocity (- PHYSICS.MAX_MOTOR_VELOCITY)
                                       PHYSICS.JOINT_MOTOR_MAX_FORCE
           else configureMotorPosition CHARACTER.JOINTS.KNEE.REST_ANGLE
                  (CHARACTER.JOINTS.KNEE.STIFFNESS * 2)
                  (CHARACTER.JOINTS.KNEE.DAMPING * 2)) "rightKnee"
   (alter (if InputHandler.isKeyPressed h KEYS.O
           then configureMotorVelocity (- PHYSICS.MAX_MOTOR_VELOCITY)
                                       PHYSICS.JOINT_MOTOR_MAX_FORCE
           else configureMotorPosition CHARACTER.JOINTS.KNEE.REST_ANGLE
                  (CHARACTER.JOINTS.KNEE.STIFFNESS * 2)
                  (CHARACTER.JOINTS.KNEE.DAMPING * 2)) "leftKnee"
   (alter (if InputHandler.isKeyPressed h KEYS.W
           then configureMotorVelocity PHYSICS.MAX_MOTOR_VELOCITY
                                       PHYSICS.JOINT_MOTOR_MAX_FORCE
           else configureMotorVelocity 0 0.1) "rightHip"
   (alter (if InputHandler.isKeyPressed h KEYS.Q
           then configureMotorVelocity PHYSICS.MAX_MOTOR_VELOCITY
                                       PHYSICS.JOINT_MOTOR_MAX_FORCE
           else configureMotorVelocity 0 0.1) "leftHip" (joints c)))).
Proof.
  unfold applyQWOPControls.
  by rewrite !kneeControl_joints, !hipControl_joints.
Qed.

Lemma qwop_bodies h s c :
  bodies (applyQWOPControls h s c)
  = alter (if InputHandler.isKeyPressed h KEYS.P && s
           then applyImpulse (Vec.mk 0.1 0.2) else id) "rightCalf"
   (alter (if InputHandler.isKeyPressed h KEYS.O && s
           then applyImpulse (Vec.mk 0.1 0.2) else id) "leftCalf"
   (alter (if InputHandler.isKeyPressed h KEYS.W && s
           then applyImpulse (Vec.mk 0.1 0.2) else id) "rightThigh"
   (alter (if InputHandler.isKeyPressed h KEYS.Q && s
           then applyImpulse (Vec.mk 0.1 0.2) else id) "leftThigh"
      (bodies c)))).
Proof.
  unfold applyQWOPControls.
  by rewrite !kneeControl_bodies, !hipControl_bodies.
Qed.

Lemma qwop_gate h s c :
  impulseTimer (applyQWOPControls h s c) = impulseTimer c
  /\ impulseInterval (applyQWOPControls h s c) = impulseInterval c
  /\ lastTimestamp (applyQWOPControls h s c) = lastTimestamp c
  /\ physics (applyQWOPControls h s c) = physics c.
Proof.
  unfold applyQWOPControls.
  repeat match goal with
         | |- context [kneeControl ?k ?j ?b ?h ?s ?c] =>
             let H := fresh in
             destruct (kneeControl_gate k j b h s c) as (H & ? & ? & ?);
             rewrite H; clear H
         end.
  repeat match goal with
         | |- context [hipControl ?k ?j ?b ?h ?s ?c] =>
             let H := fresh in
             destruct (hipControl_gate k j b h s c) as (H & ? & ? & ?);
             rewrite H; clear H
         end.
  repeat split; congruence.
Qed.

(** [applyArmBalancing] touches the two shoulder joints and the two arms,
    and nothing else. *)
Lemma arm_joints_other name c :
  name <> "leftShoulder" -> name <> "rightShoulder" ->
  joints (applyArmBalancing c) !! name = joints c !! name.
Proof.
  intros Hl Hr. unfold applyArmBalancing.
  repeat case_match; rewrite ?impulse_alter; simpl;
    rewrite ?lookup_insert_ne by done; done.
Qed.


Lemma arm_gate c :
  impulseTimer (applyArmBalancing c) = impulseTimer c
  /\ impulseInterval (applyArmBalancing c) = impulseInterval c
  /\ lastTimestamp (applyArmBalancing c) = lastTimestamp c
  /\ physics (applyArmBalancing c) = physics c.
Proof.
  unfold applyArmBalancing.
  repeat case_match; rewrite ?impulse_alter; done.
Qed.



Lemma arm_body_present name c :
  is_Some (bodies (applyArmBalancing c) !! name)
  <-> is_Some (bodies c !! name).
Proof.
  unfold applyArmBalancing; repeat case_match;
    rewrite ?impulse_alter; simpl;
    rewrite ?lookup_alter_is_Some; done.
Qed.

Lemma legJoints_inv c :
  legJoints c ->
  exists lh rh lk rk,
    joints c !! "leftHip" = Some lh /\ joints c !! "rightHip" = Some rh
    /\ joints c !! "leftKnee" = Some lk /\ joints c !! "rightKnee" = Some rk.
Proof.
  unfold legJoints. rewrite !Forall_cons.
  intros ([lh ?] & [rh ?] & [lk ?] & [rk ?] & _). by exists lh, rh, lk, rk.
Qed.

(** The whole of [applyInputForces] when the four leg joints exist. *)
Lemma applyInputForces_active h now c :
  legJoints c ->
  applyInputForces h now c
  = let timer := impulseTimer c + (now - lastTimestamp c) in
    let shouldApplyImpulse := js_ge timer (impulseInterval c) in
    applyArmBalancing
      (applyQWOPControls h shouldApplyImpulse
         (mk (physics c) (bodies c) (joints c)
             (if shouldApplyImpulse then 0 else timer)
             (impulseInterval c) now)).
Proof.
  intros (lh & rh & lk & rk & H1 & H2 & H3 & H4)%legJoints_inv.
  unfold applyInputForces. by rewrite H1, H2, H3, H4.
Qed.

(** ... and when one of them is [null]: it returns at once. *)
Lemma applyInputForces_passive h now c :
  ~ legJoints c -> applyInputForces h now c = c.
Proof.
  intros Hn. unfold applyInputForces.
  destruct (joints c !! "leftHip") eqn:H1; [|done].
  destruct (joints c !! "rightHip") eqn:H2; [|done].
  destruct (joints c !! "leftKnee") eqn:H3; [|done].
  destruct (joints c !! "rightKnee") eqn:H4; [|done].
  exfalso. apply Hn. unfold legJoints. rewrite !Forall_cons.
  rewrite H1, H2, H3, H4. repeat split; eauto.
Qed.

Lemma legJoints_dec c : legJoints c \/ ~ legJoints c.
Proof. destruct (decide (legJoints c)); eauto. Qed.


Lemma applyInputForces_body_present h now c name :
  is_Some (bodies (applyInputForces h now c) !! name)
  <-> is_Some (bodies c !! name).
Proof.
  destruct (legJoints_dec c) as [Hl|Hl].
  - rewrite applyInputForces_active by done. cbv zeta.
    rewrite arm_body_present, qwop_bodies. simpl.
    by rewrite !lookup_alter_is_Some.
  - by rewrite applyInputForces_passive.
Qed.

(** The motors of the hips and knees after [applyInputForces]. *)
Lemma applyInputForces_legs h now c :
  legJoints c ->
  motorOf "leftHip" (applyInputForces h now c)
  = Some (if InputHandler.isKeyPressed h KEYS.Q
          then MotorVelocity PHYSICS.MAX_MOTOR_VELOCITY
                             PHYSICS.JOINT_MOTOR_MAX_FORCE
          else MotorVelocity 0 0.1)
  /\ motorOf "rightHip" (applyInputForces h now c)
     = Some (if InputHandler.isKeyPressed h KEYS.W
             then MotorVelocity PHYSICS.MAX_MOTOR_VELOCITY
                                PHYSICS.JOINT_MOTOR_MAX_FORCE
             else MotorVelocity 0 0.1)
  /\ motorOf "leftKnee" (applyInputForces h now c)
     = Some (if InputHandler.isKeyPressed h KEYS.O
             then MotorVelocity (- PHYSICS.MAX_MOTOR_VELOCITY)
                                PHYSICS.JOINT_MOTOR_MAX_FORCE
             else MotorPosition CHARACTER.JOINTS.KNEE.REST_ANGLE
                    (CHARACTER.JOINTS.KNEE.STIFFNESS * 2)
                    (CHARACTER.JOINTS.KNEE.DAMPING * 2))
  /\ motorOf "rightKnee" (applyInputForces h now c)
     = Some (if InputHandler.isKeyPressed h KEYS.P
             then MotorVelocity (- PHYSICS.MAX_MOTOR_VELOCITY)
                                PHYSICS.JOINT_MOTOR_MAX_FORCE
             else MotorPosition CHARACTER.JOINTS.KNEE.REST_ANGLE
                    (CHARACTER.JOINTS.KNEE.STIFFNESS * 2)
                    (CHARACTER.JOINTS.KNEE.DAMPING * 2)).
Proof.
  intros Hl. rewrite applyInputForces_active by done. cbv zeta.
  destruct (legJoints_inv c Hl) as (lh & rh & lk & rk & H1 & H2 & H3 & H4).
  unfold motorOf.
  rewrite !arm_joints_other, qwop_joints by done. simpl.
  repeat split.
  - rewrite !lookup_alter_ne, lookup_alter_eq, H1 by done.
    by destruct (InputHandler.isKeyPressed h KEYS.Q).
  - rewrite !lookup_alter_ne, lookup_alter_eq, lookup_alter_ne, H2 by done.
    by destruct (InputHandler.isKeyPressed h KEYS.W).
  - rewrite lookup_alter_ne, lookup_alter_eq, !lookup_alter_ne, H3 by done.
    by destruct (InputHandler.isKeyPressed h KEYS.O).
  - rewrite lookup_alter_eq, !lookup_alter_ne, H4 by done.
    by destruct (InputHandler.isKeyPressed h KEYS.P).
Qed.

(** *** The engine step *)

Lemma step_lookup p solve bs js name :
  PhysicsWorld.step p solve bs js !! name
  = (fun b => if PhysicsWorld.initialized p
              then match solve bs js !! name with
                   | Some b' => moved b b'
                   | None => b
                   end
              else b) <$> bs !! name.
Proof.
  unfold PhysicsWorld.step. destruct (PhysicsWorld.initialized p).
  - rewrite map_lookup_imap. by destruct (bs !! name).
  - by destruct (bs !! name).
Qed.

Lemma stepPhysics_joints solve p c :
  joints (Game.stepPhysics solve p c) = joints c.
Proof. reflexivity. Qed.

Lemma stepPhysics_body_present solve p c name :
  is_Some (bodies (Game.stepPhysics solve p c) !! name)
  <-> is_Some (bodies c !! name).
Proof.
  unfold Game.stepPhysics. simpl. rewrite step_lookup.
  by rewrite fmap_is_Some.
Qed.


Lemma tick_torso_present solve p h now c :
  is_Some (bodies c !! "torso") ->
  is_Some (bodies (tick solve p h now c) !! "torso").
Proof.
  intros H. unfold tick.
  by rewrite stepPhysics_body_present, applyInputForces_body_present.
Qed.

(** [update] on a game that is being played returns, and the character
    it leaves is the one the controller and the engine produced. *)
Lemma update_playing Math_sin Math_cos solve now g :
  Game.gameState g = GAME_STATES.PLAYING ->
  is_Some (bodies (Game.character g) !! "torso") ->
  exists g',
    Game.update Math_sin Math_cos solve now g = Some g'
    /\ Game.character g'
       = tick solve (Game.physics g) (Game.input g) now (Game.character g).
Proof.
  intros Hp Ht. unfold Game.update. rewrite Hp. simpl.
  destruct (Game.checkGameOver _ _ _); [by eexists|].
  pose proof (tick_torso_present solve (Game.physics g) (Game.input g) now
                _ Ht) as [b Hb].
  unfold Character.getPosition. simpl.
  unfold tick, Game.stepPhysics in Hb. simpl in Hb. rewrite Hb. simpl.
  destruct (js_gt _ _); by eexists.
Qed.





End CharacterFacts.

(** * The claims *)

Import Rapier CharacterFacts.




(** C2, as stated, fails: a released hip is not left without motor drive.
    On an update step with no key down the left hip's motor is the
    velocity drive of [disableJointMotor], target velocity 0 with force
    factor 0.1, which is neither "no motor" nor a zero force. *)
Lemma C2_residual_drive :
  exists g',
    Game.update sinTaylor cosTaylor still 2016 (EventLoop.game started)
    = Some g'
    /\ InputHandler.isKeyPressed (Game.input (EventLoop.game started)) KEYS.Q
       = false
    /\ motorOf "leftHip" (Game.character g') = Some (MotorVelocity 0 0.1)
    /\ motorOf "leftHip" (Game.character g') <> Some MotorNone
    /\ 0 < 0.1.
Proof.
  eexists. split; [vm_compute; reflexivity|].
  split; [reflexivity|]. split; [vm_compute; reflexivity|].
  split; [vm_compute; discriminate | reflexivity].
Qed.

(** C2, amended: on every update step of a game in play whose four leg
    joints exist, a hip whose drive key (Q for the left, W for the right)
    is not pressed gets, within that step, the motor that
    [disableJointMotor] sets: a velocity drive with target velocity 0 and
    force factor 0.1.  There is no position spring on it; the weak drive
    towards rest remains. *)
Theorem C2_hip_release Math_sin Math_cos solve now g :
  Game.gameState g = GAME_STATES.PLAYING ->
  legJoints (Game.character g) ->
  is_Some (Character.bodies (Game.character g) !! "torso") ->
  exists g',
    Game.update Math_sin Math_cos solve now g = Some g'
    /\ (InputHandler.isKeyPressed (Game.input g) KEYS.Q = false ->
        motorOf "leftHip" (Game.character g') = Some (MotorVelocity 0 0.1))
    /\ (InputHandler.isKeyPressed (Game.input g) KEYS.W = false ->
        motorOf "rightHip" (Game.character g') = Some (MotorVelocity 0 0.1)).
Proof.
  intros Hp Hl Ht.
  destruct (update_playing Math_sin Math_cos solve now g Hp Ht)
    as (g' & Hu & Hc).
  exists g'. split; [done|]. rewrite Hc. unfold tick, motorOf.
  rewrite stepPhysics_joints.
  destruct (applyInputForces_legs (Game.input g) now _ Hl)
    as (H1 & H2 & _ & _).
  unfold motorOf in H1, H2. rewrite H1, H2.
  split; intros ->; reflexivity.
Qed.

Lemma C2_hip_release_witness :
  Game.gameState (EventLoop.game started) = GAME_STATES.PLAYING
  /\ legJoints (Game.character (EventLoop.game started))
  /\ exists g',
      Game.update sinTaylor cosTaylor still 2016 (EventLoop.game started)
      = Some g'
      /\ motorOf "leftHip" (Game.character g') = Some (MotorVelocity 0 0.1)
      /\ motorOf "rightHip" (Game.character g') = Some (MotorVelocity 0 0.1).
Proof.
  assert (Hp : Game.gameState (EventLoop.game started) = GAME_STATES.PLAYING)
    by reflexivity.
  assert (Hl : legJoints (Game.character (EventLoop.game started)))
    by solve_legs.
  assert (Ht : is_Some (Character.bodies
                          (Game.character (EventLoop.game started))
                          !! "torso")) by (vm_compute; eauto).
  split; [exact Hp|]. split; [exact Hl|].
  destruct (C2_hip_release sinTaylor cosTaylor still 2016
              (EventLoop.game started) Hp Hl Ht) as (g' & Hu & HQ & HW).
  exists g'. split; [exact Hu|]. split; [apply HQ | apply HW]; reflexivity.
Defined.






(** C5: the head is placed at the torso position plus the offset (half
    the torso height plus 0.1) turned by the torso's rotation, headX =
    torsoX - sin(rot) * offset and headY = torsoY + cos(rot) * offset; the
    detector answers "fallen" exactly when headY - 0.15 <= -4.8, and an
    update step of a game in play ends the game exactly then.  With the
    torso at y = -3.5 and rotation 0 the bottom of the head is at -3.25
    and the detector answers "not fallen". *)
Theorem C5_fall_detector Math_sin Math_cos c torso :
  Character.bodies c !! "torso" = Some torso ->
  let offset := CHARACTER.PARTS.TORSO.HEIGHT / 2 + 0.1 in
  let headX :=
    Vec.x (translation torso) - Math_sin (rotation torso) * offset in
  let headY :=
    Vec.y (translation torso) + Math_cos (rotation torso) * offset in
  Character.headPosition Math_sin Math_cos torso = Vec.mk headX headY
  /\ (Character.isHeadTouchingGround Math_sin Math_cos c = true
      <-> headY - 0.15 <= -4.8)
  /\ (forall solve now g g',
         Game.gameState g = GAME_STATES.PLAYING ->
         Game.update Math_sin Math_cos solve now g = Some g' ->
         (Game.gameState g' = GAME_STATES.GAME_OVER
          <-> Character.isHeadTouchingGround Math_sin Math_cos
                (tick solve (Game.physics g) (Game.input g) now
                      (Game.character g)) = true))
  /\ (Math_cos 0 == 1 ->
      Vec.y (translation torso) = -3.5 -> rotation torso = 0 ->
      headY - 0.15 == -3.25
      /\ Character.isHeadTouchingGround Math_sin Math_cos c = false).
Proof.
  intros Ht offset headX headY.
  assert (Hiff : Character.isHeadTouchingGround Math_sin Math_cos c = true
                 <-> headY - 0.15 <= -4.8).
  { unfold Character.isHeadTouchingGround. rewrite Ht. simpl.
    apply js_le_true. }
  split_and!; [reflexivity | exact Hiff | |].
  - intros solve now g g' Hp. unfold Game.update. rewrite Hp. simpl.
    unfold Game.checkGameOver, tick. simpl.
    destruct (Character.isHeadTouchingGround Math_sin Math_cos
                (Game.stepPhysics _ _ _)) eqn:Hh.
    + intros Hg. injection Hg as Hg. rewrite <- Hg. done.
    + destruct (Character.getPosition _); [|done].
      destruct (js_gt _ _); intros Hg; injection Hg as Hg; rewrite <- Hg;
        simpl; rewrite Hp; split; done.
  - intros Hcos Hy Hrot.
    assert (Hval : headY - 0.15 == -3.25).
    { unfold headY, offset. rewrite Hy, Hrot, Hcos. reflexivity. }
    split; [exact Hval|].
    apply not_true_iff_false. rewrite Hiff, Hval. vm_compute. tauto.
Qed.

Lemma C5_fall_detector_witness :
  exists torso,
    Character.bodies (Game.character (EventLoop.game started)) !! "torso"
    = Some torso
    /\ cosTaylor 0 == 1
    /\ Vec.y (translation torso) = -3.5
    /\ rotation torso = 0
    /\ Character.isHeadTouchingGround sinTaylor cosTaylor
         (Game.character (EventLoop.game started)) = false.
Proof.
  destruct (Character.bodies (Game.character (EventLoop.game started))
              !! "torso") as [torso|] eqn:Ht; [|vm_compute in Ht; discriminate].
  assert (Hy : Vec.y (translation torso) = -3.5)
    by (vm_compute in Ht; injection Ht as <-; reflexivity).
  assert (Hr : rotation torso = 0)
    by (vm_compute in Ht; injection Ht as <-; reflexivity).
  assert (Hc : cosTaylor 0 == 1) by reflexivity.
  exists torso. split; [reflexivity|]. split; [exact Hc|].
  split; [exact Hy|]. split; [exact Hr|].
  destruct (C5_fall_detector sinTaylor cosTaylor
              (Game.character (EventLoop.game started)) torso Ht)
    as (_ & _ & _ & Hex).
  exact (proj2 (Hex Hc Hy Hr)).
Defined.


(** ** The impulse gate *)

(** What one call of [applyInputForces] does to the gate. *)
Lemma applyInputForces_gate h now c :
  legJoints c ->
  let timer := Character.impulseTimer c + (now - Character.lastTimestamp c) in
  let c' := Character.applyInputForces h now c in
  Character.impulseTimer c'
  = (if js_ge timer (Character.impulseInterval c) then 0 else timer)
  /\ Character.impulseInterval c' = Character.impulseInterval c
  /\ Character.lastTimestamp c' = now.
Proof.
  intros Hl timer c'. unfold c'.
  rewrite applyInputForces_active by done. cbv zeta. fold timer.
  match goal with
  | |- context [Character.applyArmBalancing ?c1] =>
      destruct (arm_gate c1) as (-> & -> & -> & _)
  end.
  match goal with
  | |- context [Character.applyQWOPControls ?h ?s ?c1] =>
      destruct (qwop_gate h s c1) as (-> & -> & -> & _)
  end.
  done.
Qed.






Lemma tick_gate solve p h now c :
  legJoints c ->
  let timer := Character.impulseTimer c + (now - Character.lastTimestamp c) in
  let c' := tick solve p h now c in
  Character.impulseTimer c'
  = (if js_ge timer (Character.impulseInterval c) then 0 else timer)
  /\ Character.impulseInterval c' = Character.impulseInterval c
  /\ Character.lastTimestamp c' = now.
Proof. intros Hl. apply (applyInputForces_gate h now c Hl). Qed.




Section Holding.
Variable solve : gmap string RigidBody -> gmap string ImpulseJoint ->
                 gmap string RigidBody.
Variable p : PhysicsWorld.t.









End Holding.



(** ** Reset and stabilization *)

Lemma holdPair_frame guarded first second target stiffness damping c :
  let c' := Character.stateOf
              (Character.holdPair guarded first second target stiffness
                                  damping c) in
  Character.bodies c' = Character.bodies c
  /\ Character.impulseTimer c' = Character.impulseTimer c
  /\ Character.lastTimestamp c' = Character.lastTimestamp c
  /\ Character.physics c' = Character.physics c.
Proof.
  unfold Character.holdPair.
  destruct (Character.joints c !! first); [|by destruct guarded].
  simpl. by destruct (_ !! second).
Qed.

Lemma motors_frame (r : Character.Completion) next c :
  (forall c1,
      let c' := Character.stateOf (next c1) in
      Character.bodies c' = Character.bodies c1
      /\ Character.impulseTimer c' = Character.impulseTimer c1
      /\ Character.lastTimestamp c' = Character.lastTimestamp c1
      /\ Character.physics c' = Character.physics c1) ->
  (Character.bodies (Character.stateOf r) = Character.bodies c
   /\ Character.impulseTimer (Character.stateOf r) = Character.impulseTimer c
   /\ Character.lastTimestamp (Character.stateOf r)
      = Character.lastTimestamp c
   /\ Character.physics (Character.stateOf r) = Character.physics c) ->
  let c' := Character.stateOf (Character.andThen r next) in
  Character.bodies c' = Character.bodies c
  /\ Character.impulseTimer c' = Character.impulseTimer c
  /\ Character.lastTimestamp c' = Character.lastTimestamp c
  /\ Character.physics c' = Character.physics c.
Proof.
  intros Hnext Hr. destruct r as [c1|c1]; simpl in *; [|done].
  destruct (Hnext c1) as (-> & -> & -> & ->). done.
Qed.

(** What [stabilizeJoints] does to the links: nothing when a missing
    joint makes it throw, and otherwise the start damping on every link,
    with the torso damped more and pushed upwards. *)
Lemma stabilizeJoints_bodies now c :
  (forall name,
      Character.bodies (Character.stabilizeJoints now c).1 !! name
      = Character.bodies c !! name)
  \/ (forall name,
         Character.bodies (Character.stabilizeJoints now c).1 !! name
         = (fun b =>
              if decide (name = "torso")
              then applyImpulse (Vec.mk 0 1.5)
                     (Character.setDamping 1.0 1.0
                        (Character.setDamping 0.8 0.8 b))
              else Character.setDamping 0.8 0.8 b)
             <$> Character.bodies c !! name).
Proof.
  unfold Character.stabilizeJoints.
  match goal with
  | |- context [match ?r with Character.Normal _ => _ | _ => _ end] =>
      assert (Hb : Character.bodies (Character.stateOf r)
                   = Character.bodies c);
        [|destruct r as [c1|c1]; simpl in Hb]
  end.
  { apply motors_frame; [intros; apply holdPair_frame|].
    apply motors_frame; [intros; apply holdPair_frame|].
    apply holdPair_frame. }
  - right. intros name. simpl. rewrite impulse_alter. simpl.
    rewrite !Hb. rewrite (lookup_fmap _ (Character.bodies c) "torso").
    destruct (decide (name = "torso")) as [->|Hn].
    + rewrite lookup_alter_eq.
      destruct (Character.bodies c !! "torso") as [b|] eqn:E; simpl.
      * by rewrite lookup_insert_eq.
      * by rewrite lookup_fmap, E.
    + rewrite lookup_alter_ne by done.
      destruct (Character.bodies c !! "torso") as [b|] eqn:E; simpl.
      * rewrite lookup_insert_ne by done. by rewrite lookup_fmap.
      * by rewrite lookup_fmap.
  - left. intros name. simpl. by rewrite Hb.
Qed.


(** The nine links [createPhysicsBodies] makes: at rest, never pushed,
    the torso at the spawn point. *)
Lemma createPhysicsBodies_fresh c name :
  name ∈ bodyNames ->
  exists body,
    Character.bodies (Character.createPhysicsBodies c) !! name = Some body
    /\ linvel body = Vec.zero /\ angvel body = 0 /\ impulses body = []
    /\ (name = "torso" -> translation body = PHYSICS.INITIAL_POSITION).
Proof.
  unfold bodyNames. rewrite !elem_of_cons, elem_of_nil.
  intros [->|[->|[->|[->|[->|[->|[->|[->|[->|[]]]]]]]]]];
    unfold Character.createPhysicsBodies; simpl;
    rewrite ?lookup_insert_ne by done; rewrite lookup_insert_eq;
    eexists; (split; [reflexivity|]); split_and!; try reflexivity; done.
Qed.

(** C7: inside reset, once the links have been created anew, their
    velocities set to zero and the joints created anew, that is after
    the rebuilding that reset does and before its stabilization,
    all nine links exist, every link has linear velocity exactly zero and
    angular velocity exactly zero, no link has received an impulse, and
    the torso is at the spawn point (0, -3.5).  When reset returns the
    links are where they were then and still have zero angular velocity,
    and every link but the torso still has zero linear velocity. *)
Theorem C7_reset_rebuild now c :
  let spawned := Character.createPhysicsBodies c in
  let rebuilt :=
    Character.createJoints
      (Character.setBodies
         (Character.zeroVelocity <$> Character.bodies spawned) spawned) in
  Character.reset now c = Character.stabilizeJoints now rebuilt
  /\ (forall name, name ∈ bodyNames ->
                   is_Some (Character.bodies rebuilt !! name))
  /\ (forall name body,
         Character.bodies rebuilt !! name = Some body ->
         linvel body = Vec.mk 0 0 /\ angvel body = 0)
  /\ (forall name body,
         name ∈ bodyNames ->
         Character.bodies rebuilt !! name = Some body ->
         impulses body = [])
  /\ translation <$> Character.bodies rebuilt !! "torso"
     = Some (Vec.mk 0 (-3.5))
  /\ (forall name body,
         Character.bodies (Character.reset now c).1 !! name = Some body ->
         translation <$> Character.bodies rebuilt !! name
         = Some (translation body)
         /\ angvel body = 0
         /\ (name <> "torso" -> linvel body = Vec.mk 0 0)).
Proof.
  intros spawned rebuilt.
  assert (Hb : Character.bodies rebuilt
               = Character.zeroVelocity <$> Character.bodies spawned)
    by reflexivity.
  assert (Hzero : forall name body,
             Character.bodies rebuilt !! name = Some body ->
             linvel body = Vec.mk 0 0 /\ angvel body = 0).
  { intros name body. rewrite Hb, lookup_fmap.
    destruct (Character.bodies spawned !! name); [|done].
    intros [= <-]. done. }
  split_and!.
  - reflexivity.
  - intros name Hin.
    destruct (createPhysicsBodies_fresh c name Hin) as (b & Hl & _).
    rewrite Hb, lookup_fmap. fold spawned in Hl. rewrite Hl. by eexists.
  - exact Hzero.
  - intros name body Hin.
    destruct (createPhysicsBodies_fresh c name Hin) as (b & Hl & _ & _ & Hi & _).
    rewrite Hb, lookup_fmap. fold spawned in Hl. rewrite Hl.
    intros [= <-]. exact Hi.
  - destruct (createPhysicsBodies_fresh c "torso") as (b & Hl & _ & _ & _ & Ht);
      [unfold bodyNames; apply elem_of_cons; by left|].
    rewrite Hb, lookup_fmap. fold spawned in Hl. rewrite Hl. simpl.
    by rewrite Ht.
  - intros name body.
    change (Character.reset now c)
      with (Character.stabilizeJoints now rebuilt).
    destruct (stabilizeJoints_bodies now rebuilt) as [Hs|Hs]; rewrite Hs.
    + intros Hl. rewrite Hl. destruct (Hzero name body Hl) as [Hv Hw].
      split_and!; done.
    + destruct (Character.bodies rebuilt !! name) as [b|] eqn:Hl; [|done].
      destruct (Hzero name b Hl) as [Hv Hw].
      simpl. intros [= <-].
      destruct (decide (name = "torso")); split_and!; done.
Qed.

Lemma C7_reset_rebuild_witness :
  exists body,
    Character.bodies
      (Character.reset 2000 (Game.character (EventLoop.game loaded))).1
      !! "leftFoot" = Some body
    /\ angvel body = 0 /\ linvel body = Vec.mk 0 0.
Proof.
  destruct (Character.bodies
              (Character.reset 2000 (Game.character (EventLoop.game loaded))).1
              !! "leftFoot") as [body|] eqn:Hl;
    [|vm_compute in Hl; discriminate].
  exists body. split; [reflexivity|].
  destruct (C7_reset_rebuild 2000 (Game.character (EventLoop.game loaded)))
    as (_ & _ & _ & _ & _ & Hafter).
  destruct (Hafter "leftFoot" body Hl) as (_ & Hw & Hv).
  split; [exact Hw | apply Hv; discriminate].
Defined.



Lemma stabilizeJoints_body_present now c name :
  is_Some (Character.bodies (Character.stabilizeJoints now c).1 !! name)
  <-> is_Some (Character.bodies c !! name).
Proof.
  destruct (stabilizeJoints_bodies now c) as [H|H]; rewrite H; [done|].
  by rewrite fmap_is_Some.
Qed.

(** After reset each of the nine links is a new one: it has zero angular
    velocity and no history of impulses, but for the torso's
    stabilization push. *)
Lemma reset_fresh now c name :
  name ∈ bodyNames ->
  exists body,
    Character.bodies (Character.reset now c).1 !! name = Some body
    /\ angvel body = 0
    /\ (impulses body = []
        \/ name = "torso" /\ impulses body = [Vec.mk 0 1.5]).
Proof.
  intros Hin.
  destruct (createPhysicsBodies_fresh c name Hin) as (b & Hl & _ & _ & Hi & _).
  unfold Character.reset. cbv zeta.
  match goal with
  | |- context [Character.stabilizeJoints now ?c3] =>
      assert (Hr : Character.bodies c3 !! name
                   = Some (Character.zeroVelocity b))
        by (change (Character.bodies c3)
              with (Character.zeroVelocity
                      <$> Character.bodies (Character.createPhysicsBodies c));
            by rewrite lookup_fmap, Hl);
        destruct (stabilizeJoints_bodies now c3) as [Hs|Hs];
        rewrite Hs, Hr
  end.
  - eexists. split; [done|]. split; [done|]. left. exact Hi.
  - simpl. eexists. split; [done|].
    destruct (decide (name = "torso")) as [->|Hn]; simpl.
    + split; [done|]. right. by rewrite Hi.
    + split; [done|]. left. exact Hi.
Qed.

Lemma fire_bodies a now c name :
  Character.bodies (Character.fire a now c).1 !! name
  = match a with
    | RelaxDamping => Character.setDamping 0.5 0.5
    | RestoreDamping =>
        Character.setDamping PHYSICS.LINEAR_DAMPING PHYSICS.ANGULAR_DAMPING
    | StartImpulse =>
        if decide (name = "torso")
        then fun b => applyAngularImpulse (-0.1)
                        (applyImpulse (Vec.mk 0 1.0) b)
        else id
    end <$> Character.bodies c !! name.
Proof.
  destruct a; simpl; try apply lookup_fmap.
  destruct (Character.bodies c !! "torso") as [torso|] eqn:Ht; simpl.
  - destruct (decide (name = "torso")) as [->|Hn].
    + by rewrite lookup_insert_eq, Ht.
    + rewrite lookup_insert_ne by done.
      by destruct (Character.bodies c !! name).
  - destruct (decide (name = "torso")) as [->|Hn].
    + by rewrite Ht.
    + by destruct (Character.bodies c !! name).
Qed.

(** *** The event loop never faults *)

Lemma handle_total Math_sin Math_cos solve e r :
  is_Some (Character.bodies (Game.character (EventLoop.game r)) !! "torso") ->
  exists r',
    EventLoop.handle Math_sin Math_cos solve e r = Some r'
    /\ is_Some (Character.bodies (Game.character (EventLoop.game r'))
                  !! "torso").
Proof.
  intros Ht. destruct e as [now|now|code|code|now]; simpl.
  - unfold Game.start.
    destruct (Character.reset now (Game.character (EventLoop.game r)))
      as [c timers] eqn:Hr.
    eexists. split; [done|]. simpl.
    destruct (reset_fresh now (Game.character (EventLoop.game r)) "torso")
      as (b & Hb & _); [unfold bodyNames; apply elem_of_cons; by left|].
    rewrite Hr in Hb. simpl in Hb. by rewrite Hb.
  - destruct (GAME_STATES.eqb (Game.gameState (EventLoop.game r))
                GAME_STATES.PLAYING) eqn:Hp.
    + assert (Hp' : Game.gameState (EventLoop.game r) = GAME_STATES.PLAYING)
        by (by destruct (Game.gameState (EventLoop.game r))).
      destruct (update_playing Math_sin Math_cos solve now _ Hp' Ht)
        as (g' & Hu & Hc).
      rewrite Hu. eexists. split; [done|]. simpl. rewrite Hc.
      by apply tick_torso_present.
    + unfold Game.update. rewrite Hp. simpl. by eexists.
  - by eexists.
  - by eexists.
  - destruct (EventLoop.pickDue now (EventLoop.pending r)) as [[tm others]|];
      [|by eexists].
    destruct (Character.fire (action tm) now
                (Game.character (EventLoop.game r))) as [c timers] eqn:Hf.
    eexists. split; [done|]. simpl.
    pose proof (fire_bodies (action tm) now
                  (Game.character (EventLoop.game r)) "torso") as Hb.
    rewrite Hf in Hb. simpl in Hb. rewrite Hb. by apply fmap_is_Some.
Qed.

Lemma run_total Math_sin Math_cos solve events :
  forall r,
    is_Some (Character.bodies (Game.character (EventLoop.game r))
               !! "torso") ->
    is_Some (EventLoop.run Math_sin Math_cos solve events r).
Proof.
  induction events as [|e rest IH]; intros r Ht; simpl; [by eexists|].
  destruct (handle_total Math_sin Math_cos solve e r Ht) as (r' & -> & Ht').
  by apply IH.
Qed.

Lemma init_torso now c :
  is_Some (Character.bodies (Character.init now c).1 !! "torso").
Proof.
  unfold Character.init. rewrite stabilizeJoints_body_present.
  change (Character.bodies
            (Character.createJoints (Character.createPhysicsBodies c)))
    with (Character.bodies (Character.createPhysicsBodies c)).
  destruct (createPhysicsBodies_fresh c "torso") as (b & Hb & _);
    [unfold bodyNames; apply elem_of_cons; by left|].
  rewrite Hb. by eexists.
Qed.

Lemma boot_torso faults now :
  is_Some (Character.bodies
             (Game.character (EventLoop.game (EventLoop.boot faults now)))
             !! "torso").
Proof.
  unfold EventLoop.boot, Game.init.
  pose proof (init_torso now (Character.new (PhysicsWorld.init faults) now))
    as Hi.
  destruct (Character.init now
              (Character.new (PhysicsWorld.init faults) now)) as [c timers].
  exact Hi.
Qed.

Lemma assign_lookup_eq name value js :
  Character.assign name value js !! name = value.
Proof.
  destruct value; simpl; [apply lookup_insert_eq | apply lookup_delete_eq].
Qed.

Lemma assign_lookup_ne name name' value js :
  name <> name' ->
  Character.assign name value js !! name' = js !! name'.
Proof.
  intros Hn. destruct value; simpl;
    [by apply lookup_insert_ne | by apply lookup_delete_ne].
Qed.








(** C9, as stated, fails: one joint that could not be created stops the
    whole controller, not only its own limb.  With the left hip missing
    and W held down, an update step leaves the right hip without any
    motor command and the right thigh without a kick, and the shoulders
    stay at the hold the stabilization gave them. *)
Lemma C9_one_missing_joint_stops_all :
  let outcome :=
    EventLoop.run sinTaylor cosTaylor still
      [EventLoop.Start 2000; EventLoop.KeyDown KEYS.W; EventLoop.Update 2016]
      (EventLoop.boot {["leftHip"]} 0) in
  (fun r => Character.joints (Game.character (EventLoop.game r)) !! "leftHip")
    <$> outcome = Some None
  /\ (fun r =>
        InputHandler.isKeyPressed (Game.input (EventLoop.game r)) KEYS.W)
       <$> outcome = Some true
  /\ outcome ≫= (fun r => motorOf "rightHip"
                             (Game.character (EventLoop.game r)))
     = Some MotorNone
  /\ (fun r => kicks "rightThigh" (Game.character (EventLoop.game r)))
       <$> outcome = Some 0%nat
  /\ outcome ≫= (fun r => motorOf "leftShoulder"
                             (Game.character (EventLoop.game r)))
     = Some (MotorPosition CHARACTER.JOINTS.SHOULDER.REST_ANGLE
                           PHYSICS.INITIAL_STIFFNESS PHYSICS.INITIAL_DAMPING).
Proof.
  split_and!; vm_compute; reflexivity.
Qed.

(** C9, amended: a joint that could not be created is [null] for the rest
    of the run; motor commands on it do nothing and nothing ever faults,
    whichever joints are missing and whatever events follow.  The
    degradation is not per joint: if any of the two hips and two knees is
    missing, [applyInputForces] returns at once and no joint is driven,
    no limb is kicked and the arms are not balanced; if only a shoulder
    is missing, the arm balancing alone is skipped, for both arms, and
    the hips and knees are driven as usual. *)
Theorem C9_degraded_mode :
  (forall name v f c,
      Character.joints c !! name = None ->
      Character.applyJointMotor name v f c = c
      /\ Character.disableJointMotor name c = c)
  /\ (forall faults Math_sin Math_cos solve now events,
         is_Some (EventLoop.run Math_sin Math_cos solve events
                                (EventLoop.boot faults now)))
  /\ (forall h now c,
         ~ legJoints c -> Character.applyInputForces h now c = c)
  /\ (forall c,
         Character.joints c !! "leftShoulder" = None
         \/ Character.joints c !! "rightShoulder" = None ->
         Character.applyArmBalancing c = c)
  /\ (forall h now c,
         legJoints c ->
         motorOf "leftHip" (Character.applyInputForces h now c)
         = Some (if InputHandler.isKeyPressed h KEYS.Q
                 then MotorVelocity PHYSICS.MAX_MOTOR_VELOCITY
                                    PHYSICS.JOINT_MOTOR_MAX_FORCE
                 else MotorVelocity 0 0.1)
         /\ motorOf "rightHip" (Character.applyInputForces h now c)
            = Some (if InputHandler.isKeyPressed h KEYS.W
                    then MotorVelocity PHYSICS.MAX_MOTOR_VELOCITY
                                       PHYSICS.JOINT_MOTOR_MAX_FORCE
                    else MotorVelocity 0 0.1)
         /\ motorOf "leftKnee" (Character.applyInputForces h now c)
            = Some (if InputHandler.isKeyPressed h KEYS.O
                    then MotorVelocity (- PHYSICS.MAX_MOTOR_VELOCITY)
                                       PHYSICS.JOINT_MOTOR_MAX_FORCE
                    else MotorPosition CHARACTER.JOINTS.KNEE.REST_ANGLE
                           (CHARACTER.JOINTS.KNEE.STIFFNESS * 2)
                           (CHARACTER.JOINTS.KNEE.DAMPING * 2))
         /\ motorOf "rightKnee" (Character.applyInputForces h now c)
            = Some (if InputHandler.isKeyPressed h KEYS.P
                    then MotorVelocity (- PHYSICS.MAX_MOTOR_VELOCITY)
                                       PHYSICS.JOINT_MOTOR_MAX_FORCE
                    else MotorPosition CHARACTER.JOINTS.KNEE.REST_ANGLE
                           (CHARACTER.JOINTS.KNEE.STIFFNESS * 2)
                           (CHARACTER.JOINTS.KNEE.DAMPING * 2))).
Proof.
  split_and!.
  - intros name v f c Hn.
    split; [by apply applyJointMotor_null | by apply disableJointMotor_null].
  - intros faults Math_sin Math_cos solve now events.
    apply run_total, boot_torso.
  - intros h now c. apply applyInputForces_passive.
  - intros c Hn. unfold Character.applyArmBalancing.
    destruct (Character.bodies c !! "torso"); [|done].
    destruct (Character.bodies c !! "leftArm"); [|done].
    destruct (Character.bodies c !! "rightArm"); [|done].
    destruct Hn as [-> | ->]; [done|].
    by destruct (Character.joints c !! "leftShoulder").
  - intros h now c. apply applyInputForces_legs.
Qed.

Lemma C9_degraded_mode_witness :
  exists r,
    EventLoop.run sinTaylor cosTaylor still [EventLoop.Start 2000]
                  (EventLoop.boot {["leftHip"]} 0) = Some r
    /\ ~ legJoints (Game.character (EventLoop.game r))
    /\ Character.applyInputForces holdingQ 2016
         (Game.character (EventLoop.game r))
       = Game.character (EventLoop.game r).
Proof.
  destruct (EventLoop.run sinTaylor cosTaylor still [EventLoop.Start 2000]
              (EventLoop.boot {["leftHip"]} 0)) as [r|] eqn:Hr;
    [|vm_compute in Hr; discriminate].
  exists r. split; [reflexivity|].
  assert (Hn : ~ legJoints (Game.character (EventLoop.game r))).
  { intros (lh & _ & _ & _ & Hlh & _)%legJoints_inv.
    vm_compute in Hr. injection Hr as <-.
    vm_compute in Hlh. discriminate. }
  split; [exact Hn|].
  destruct C9_degraded_mode as (_ & _ & Hpassive & _).
  exact (Hpassive holdingQ 2016 _ Hn).
Defined.

(** ** The score *)

Lemma js_gt_Qmax x m : (if js_gt x m then x else m) = Qmax m x.
Proof.
  unfold Qmax, GenericMinMax.gmax.
  destruct (js_gt x m) eqn:H.
  - apply js_gt_true in H.
    by rewrite (proj1 (Qlt_alt m x) H).
  - apply js_gt_false in H.
    destruct (m ?= x)%Q eqn:Hc; try done.
    exfalso. apply (Qlt_not_le m x); [|done]. by apply Qlt_alt.
Qed.

(** What one update does to the recorded maximum. *)
Lemma update_max Math_sin Math_cos solve now g g' :
  Game.update Math_sin Math_cos solve now g = Some g' ->
  Game.maxDistance g'
  = match sample Math_sin Math_cos solve now g with
    | Some x => Qmax (Game.maxDistance g) x
    | None => Game.maxDistance g
    end.
Proof.
  unfold Game.update, sample, Game.checkGameOver, tick.
  destruct (negb _); [by intros [= <-]|]. simpl.
  destruct (Character.isHeadTouchingGround _ _ _); [by intros [= <-]|].
  destruct (Character.getPosition _) as [position|]; [|done]. simpl.
  rewrite <- js_gt_Qmax.
  destruct (js_gt _ _); by intros [= <-].
Qed.

Lemma fold_Qmax_le l : forall m, m <= fold_left Qmax l m.
Proof.
  induction l as [|x l IH]; intros m; simpl; [apply Qle_refl|].
  eapply Qle_trans; [apply Q.le_max_l | apply IH].
Qed.

Lemma run_max Math_sin Math_cos solve events :
  forall r r',
    Forall (fun e => isStart e = false) events ->
    EventLoop.run Math_sin Math_cos solve events r = Some r' ->
    Game.maxDistance (EventLoop.game r')
    = fold_left Qmax (sampled Math_sin Math_cos solve events r)
                (Game.maxDistance (EventLoop.game r)).
Proof.
  induction events as [|e rest IH]; intros r r' Hns Hrun; simpl in *.
  - by injection Hrun as <-.
  - apply Forall_cons in Hns as [He Hrest].
    destruct (EventLoop.handle Math_sin Math_cos solve e r) as [r1|] eqn:Hh;
      [|done].
    rewrite fold_left_app, (IH r1 r' Hrest Hrun). f_equal.
    destruct e as [now|now|code|code|now]; simpl in *; try done.
    + destruct (Game.update Math_sin Math_cos solve now (EventLoop.game r))
        as [g1|] eqn:Hu; [|done].
      injection Hh as <-. simpl.
      rewrite (update_max _ _ _ _ _ _ Hu).
      by destruct (sample _ _ _ _ _).
    + by injection Hh as <-.
    + by injection Hh as <-.
    + destruct (EventLoop.pickDue now (EventLoop.pending r))
        as [[tm others]|]; [|by injection Hh as <-].
      destruct (Character.fire _ _ _). by injection Hh as <-.
Qed.

(** C10, as stated, fails: the final score is not the largest torso
    abscissa reached during the run.  With an engine that carries the
    character one metre forward and one metre down per step, the first
    update samples x = 1; the second finds the head on the ground with
    the torso at x = 2 and ends the game before sampling, so the final
    score is 1. *)
Lemma C10_last_step_not_scored :
  let outcome :=
    EventLoop.run sinTaylor cosTaylor drift
      [EventLoop.Update 2016; EventLoop.Update 2033] started in
  (fun r => Game.gameState (EventLoop.game r)) <$> outcome
  = Some GAME_STATES.GAME_OVER
  /\ outcome ≫= (fun r => UI.finalScoreDisplay (Game.ui (EventLoop.game r)))
     = Some 1
  /\ (fun r => Game.maxDistance (EventLoop.game r)) <$> outcome = Some 1
  /\ outcome ≫= (fun r => Character.getPosition
                             (Game.character (EventLoop.game r)))
     = Some (Vec.mk 2 (-5.5))
  /\ sampled sinTaylor cosTaylor drift
       [EventLoop.Update 2016; EventLoop.Update 2033] started = [1].
Proof.
  split_and!; vm_compute; reflexivity.
Qed.

(** C10, amended: within a run (the events after a start and before the
    next one) the recorded maximum distance never decreases; an update
    changes it, and redisplays the score, only when the torso abscissa it
    samples strictly exceeds it, and then sets it to that abscissa.  It
    starts at 0, so at any moment it is the largest of 0 and the
    abscissas sampled so far.  The update that detects the fall ends the
    game before sampling: the final score is the maximum recorded before
    that step, whatever the torso abscissa on it. *)
Theorem C10_score_running_maximum Math_sin Math_cos solve :
  (forall now g g',
      Game.update Math_sin Math_cos solve now g = Some g' ->
      (Game.maxDistance g' = Game.maxDistance g
       /\ UI.scoreDisplay (Game.ui g') = UI.scoreDisplay (Game.ui g))
      \/ (Game.maxDistance g < Game.maxDistance g'
          /\ sample Math_sin Math_cos solve now g = Some (Game.maxDistance g')
          /\ Game.ui g'
             = UI.updateScore (Game.maxDistance g') (Game.ui g)))
  /\ (forall events r r',
         Forall (fun e => isStart e = false) events ->
         EventLoop.run Math_sin Math_cos solve events r = Some r' ->
         Game.maxDistance (EventLoop.game r)
         <= Game.maxDistance (EventLoop.game r')
         /\ Game.maxDistance (EventLoop.game r')
            = fold_left Qmax (sampled Math_sin Math_cos solve events r)
                        (Game.maxDistance (EventLoop.game r)))
  /\ (forall now g g',
         Game.gameState g = GAME_STATES.PLAYING ->
         Game.update Math_sin Math_cos solve now g = Some g' ->
         Game.gameState g' = GAME_STATES.GAME_OVER ->
         sample Math_sin Math_cos solve now g = None
         /\ Game.maxDistance g' = Game.maxDistance g
         /\ UI.finalScoreDisplay (Game.ui g') = Some (Game.maxDistance g))
  /\ (forall now g,
         Game.maxDistance (Game.start now g).1 = 0
         /\ Game.gameState (Game.start now g).1 = GAME_STATES.PLAYING).
Proof.
  split_and!.
  - intros now g g'.
    unfold Game.update, sample, Game.checkGameOver, tick.
    destruct (negb _); [intros [= <-]; by left|]. simpl.
    destruct (Character.isHeadTouchingGround _ _ _);
      [intros [= <-]; by left|].
    destruct (Character.getPosition _) as [position|]; [|done]. simpl.
    destruct (js_gt _ _) eqn:Hgt; intros [= <-]; [right|by left].
    apply js_gt_true in Hgt. done.
  - intros events r r' Hns Hrun.
    rewrite (run_max _ _ _ _ _ _ Hns Hrun).
    split; [apply fold_Qmax_le | reflexivity].
  - intros now g g' Hp.
    unfold Game.update, sample, Game.checkGameOver, tick. rewrite Hp. simpl.
    destruct (Character.isHeadTouchingGround _ _ _);
      [intros [= <-]; done|].
    destruct (Character.getPosition _) as [position|]; [|done]. simpl.
    destruct (js_gt _ _); intros [= <-]; simpl; rewrite Hp; done.
  - intros now g. unfold Game.start.
    by destruct (Character.reset now (Game.character g)).
Qed.

Lemma C10_score_running_maximum_witness :
  exists r,
    EventLoop.run sinTaylor cosTaylor drift
      [EventLoop.Update 2016; EventLoop.Update 2033] started = Some r
    /\ Game.maxDistance (EventLoop.game started)
       <= Game.maxDistance (EventLoop.game r)
    /\ Game.maxDistance (EventLoop.game r)
       = fold_left Qmax
           (sampled sinTaylor cosTaylor drift
              [EventLoop.Update 2016; EventLoop.Update 2033] started)
           (Game.maxDistance (EventLoop.game started)).
Proof.
  destruct (EventLoop.run sinTaylor cosTaylor drift
              [EventLoop.Update 2016; EventLoop.Update 2033] started)
    as [r|] eqn:Hr; [|vm_compute in Hr; discriminate].
  exists r. split; [reflexivity|].
  assert (Hns : Forall (fun e => isStart e = false)
                  [EventLoop.Update 2016; EventLoop.Update 2033])
    by (repeat constructor).
  destruct (C10_score_running_maximum sinTaylor cosTaylor drift)
    as (_ & Hrun & _).
  exact (Hrun _ started r Hns Hr).
Defined.

(** * Further properties of the code *)

(** ** Rounding to binary64 *)

Lemma two_pow_pos (z : Z) : 0 < 2 ^ z.
Proof. apply Qpower_0_lt. reflexivity. Qed.

Lemma two_pow_le (a b : Z) : (a <= b)%Z -> 2 ^ a <= 2 ^ b.
Proof. intros H. apply Qpower_le_compat_l; [done|]. discriminate. Qed.

Lemma two_pow_lt_inv (a b : Z) : 2 ^ a < 2 ^ b -> (a < b)%Z.
Proof. intros H. by apply (Qpower_lt_compat_l_inv 2). Qed.

Lemma two_pow_succ (z : Z) : 2 ^ (z + 1) == 2 * 2 ^ z.
Proof.
  rewrite Qpower_plus by (intros H; discriminate H).
  change (2 ^ 1) with 2. ring.
Qed.

Lemma two_pow_plus (a b : Z) : 2 ^ (a + b) == 2 ^ a * 2 ^ b.
Proof. apply Qpower_plus. intros H; discriminate H. Qed.

Lemma two_pow_Z (a : Z) : (0 <= a)%Z -> inject_Z (2 ^ a) == 2 ^ a.
Proof. intros H. by rewrite Zpower_Qpower. Qed.

Lemma nearest_comp (x y : Q) : x == y -> Double.nearest x = Double.nearest y.
Proof.
  intros H. unfold Double.nearest. rewrite (Qfloor_comp x y H).
  assert (E : (x - inject_Z (Qfloor y) ?= 1 # 2)%Q
              = (y - inject_Z (Qfloor y) ?= 1 # 2)%Q).
  { apply Qcompare_comp; [|reflexivity]. by rewrite H. }
  by rewrite E.
Qed.

Lemma nearest_bounds (x : Q) :
  inject_Z (Double.nearest x) - (1 # 2) <= x
  /\ x <= inject_Z (Double.nearest x) + (1 # 2).
Proof.
  unfold Double.nearest.
  pose proof (Qfloor_le x) as Hlo. pose proof (Qlt_floor x) as Hhi.
  assert (Hup : inject_Z (Qfloor x + 1) == inject_Z (Qfloor x) + 1)
    by (by rewrite inject_Z_plus).
  rewrite Hup in Hhi.
  destruct (Qcompare_spec (x - inject_Z (Qfloor x)) (1 # 2)) as [H|H|H];
    [destruct (Z.even (Qfloor x))|..]; rewrite ?Hup;
    set (f := inject_Z (Qfloor x)) in *; clearbody f; lra.
Qed.

Lemma nearest_Z (z : Z) : Double.nearest (inject_Z z) = z.
Proof.
  unfold Double.nearest. rewrite Qfloor_Z.
  assert (E : (inject_Z z - inject_Z z ?= 1 # 2)%Q = Lt).
  { apply Qlt_alt.
    assert (E0 : inject_Z z - inject_Z z == 0) by ring.
    rewrite E0. reflexivity. }
  by rewrite E.
Qed.

Lemma nearest_mono (x y : Q) :
  x <= y -> (Double.nearest x <= Double.nearest y)%Z.
Proof.
  intros H.
  destruct (Z.le_gt_cases (Double.nearest x) (Double.nearest y)) as [|Hgt];
    [done|].
  exfalso.
  destruct (nearest_bounds x) as [Hx _]. destruct (nearest_bounds y) as [_ Hy].
  assert (Hz : inject_Z (Double.nearest y) + 1 <= inject_Z (Double.nearest x)).
  { change 1 with (inject_Z 1). rewrite <- inject_Z_plus, <- Zle_Qle. lia. }
  assert (Heq : x == y).
  { set (nx := inject_Z (Double.nearest x)) in *.
    set (ny := inject_Z (Double.nearest y)) in *.
    clearbody nx ny. lra. }
  apply nearest_comp in Heq. lia.
Qed.

Lemma ilog2_spec (x : Q) :
  0 < x -> 2 ^ Double.ilog2 x <= x /\ x < 2 ^ (Double.ilog2 x + 1).
Proof.
  destruct x as [n d]. intros Hx.
  assert (Hn : (0 < n)%Z) by (unfold Qlt in Hx; simpl in Hx; lia).
  unfold Double.ilog2. cbn [Qnum Qden].
  set (a := Z.log2 n). set (b := Z.log2 (Z.pos d)).
  assert (Ha0 : (0 <= a)%Z) by apply Z.log2_nonneg.
  assert (Hb0 : (0 <= b)%Z) by apply Z.log2_nonneg.
  destruct (Z.log2_spec n Hn) as [Ha1 Ha2]. fold a in Ha1, Ha2.
  destruct (Z.log2_spec (Z.pos d) ltac:(lia)) as [Hb1 Hb2].
  fold b in Hb1, Hb2.
  rewrite <- Z.add_1_r in Ha2, Hb2.
  rewrite Zle_Qle, two_pow_Z in Ha1, Hb1 by done.
  rewrite Zlt_Qlt, two_pow_Z, two_pow_succ in Ha2, Hb2 by lia.
  assert (HP : 2 ^ (a - b) * 2 ^ b == 2 ^ a).
  { rewrite <- two_pow_plus. by replace (a - b + b)%Z with a by lia. }
  assert (HX : (n # d) * inject_Z (Z.pos d) == inject_Z n).
  { rewrite (Qmake_Qdiv n d). field. intros H; discriminate H. }
  pose proof (two_pow_pos (a - b)) as HPpos.
  pose proof (two_pow_pos b) as HBpos.
  assert (HS : 2 ^ (a - b + 1) == 2 * 2 ^ (a - b)) by apply two_pow_succ.
  assert (HM : 2 ^ (a - b) == 2 * 2 ^ (a - b - 1)).
  { rewrite <- two_pow_succ. by replace (a - b - 1 + 1)%Z with (a - b)%Z by lia. }
  destruct (Qle_bool (2 ^ (a - b)) (n # d)) eqn:E.
  - apply Qle_bool_iff in E. split; [done|]. rewrite HS.
    set (x := n # d) in *. set (N := inject_Z n) in *.
    set (D := inject_Z (Z.pos d)) in *.
    set (A := 2 ^ a) in *. set (B := 2 ^ b) in *.
    set (P := 2 ^ (a - b)) in *.
    clearbody x N D A B P. nra.
  - assert (E' : n # d < 2 ^ (a - b)).
    { apply Qnot_le_lt. intros H. apply Qle_bool_iff in H. congruence. }
    replace (a - b - 1 + 1)%Z with (a - b)%Z by lia.
    split; [|done].
    set (x := n # d) in *. set (N := inject_Z n) in *.
    set (D := inject_Z (Z.pos d)) in *.
    set (A := 2 ^ a) in *. set (B := 2 ^ b) in *.
    set (P := 2 ^ (a - b)) in *. set (M := 2 ^ (a - b - 1)) in *.
    clearbody x N D A B P M. nra.
Qed.

Lemma ilog2_unique (x : Q) (e : Z) :
  2 ^ e <= x -> x < 2 ^ (e + 1) -> Double.ilog2 x = e.
Proof.
  intros H1 H2.
  assert (Hx : 0 < x) by (eapply Qlt_le_trans; [apply two_pow_pos|exact H1]).
  destruct (ilog2_spec x Hx) as [H3 H4].
  assert (A : (e < Double.ilog2 x + 1)%Z).
  { apply two_pow_lt_inv. eapply Qle_lt_trans; [exact H1|exact H4]. }
  assert (B : (Double.ilog2 x < e + 1)%Z).
  { apply two_pow_lt_inv. eapply Qle_lt_trans; [exact H3|exact H2]. }
  lia.
Qed.

Lemma ulp_pos (x : Q) : 0 < Double.ulp x.
Proof. apply two_pow_pos. Qed.

Lemma ulp_scale (x : Q) :
  2 ^ 52 * Double.ulp x == 2 ^ Double.ilog2 x
  /\ 2 ^ 53 * Double.ulp x == 2 ^ (Double.ilog2 x + 1).
Proof.
  unfold Double.ulp. rewrite <- !two_pow_plus. split.
  - by replace (52 + (Double.ilog2 x - 52))%Z with (Double.ilog2 x) by lia.
  - by replace (53 + (Double.ilog2 x - 52))%Z
      with (Double.ilog2 x + 1)%Z by lia.
Qed.

(** The significand of a positive number lies in [2^52, 2^53]. *)
Lemma significand_range (x : Q) :
  0 < x ->
  (2 ^ 52 <= Double.nearest (x / Double.ulp x) <= 2 ^ 53)%Z.
Proof.
  intros Hx. destruct (ilog2_spec x Hx) as [H1 H2].
  destruct (ulp_scale x) as [E1 E2]. pose proof (ulp_pos x) as Hu.
  rewrite <- E1 in H1. rewrite <- E2 in H2.
  assert (Hlo : inject_Z (2 ^ 52) <= x / Double.ulp x).
  { apply Qle_shift_div_l; [done|]. exact H1. }
  assert (Hhi : x / Double.ulp x <= inject_Z (2 ^ 53)).
  { apply Qle_shift_div_r; [done|]. by apply Qlt_le_weak. }
  apply nearest_mono in Hlo, Hhi. rewrite nearest_Z in Hlo, Hhi. done.
Qed.

Lemma roundPositive_range (x : Q) :
  0 < x ->
  2 ^ Double.ilog2 x <= Double.roundPositive x
  /\ Double.roundPositive x <= 2 ^ (Double.ilog2 x + 1).
Proof.
  intros Hx. destruct (significand_range x Hx) as [H1 H2].
  destruct (ulp_scale x) as [E1 E2]. pose proof (ulp_pos x) as Hu.
  unfold Double.roundPositive. rewrite <- E1, <- E2.
  rewrite Zle_Qle in H1, H2.
  change (inject_Z (2 ^ 52)) with (2 ^ 52) in H1.
  change (inject_Z (2 ^ 53)) with (2 ^ 53) in H2.
  split; apply Qmult_le_compat_r; try done; by apply Qlt_le_weak.
Qed.

Lemma roundPositive_pos (x : Q) : 0 < x -> 0 < Double.roundPositive x.
Proof.
  intros Hx. eapply Qlt_le_trans; [apply two_pow_pos|].
  apply (roundPositive_range x Hx).
Qed.

Lemma roundPositive_mono (x y : Q) :
  0 < x -> x <= y -> Double.roundPositive x <= Double.roundPositive y.
Proof.
  intros Hx Hxy.
  assert (Hy : 0 < y) by (by eapply Qlt_le_trans).
  destruct (ilog2_spec x Hx) as [X1 X2]. destruct (ilog2_spec y Hy) as [Y1 Y2].
  assert (He : (Double.ilog2 x < Double.ilog2 y + 1)%Z).
  { apply two_pow_lt_inv. eapply Qle_lt_trans; [exact X1|].
    eapply Qle_lt_trans; [exact Hxy|exact Y2]. }
  destruct (Z.eq_dec (Double.ilog2 x) (Double.ilog2 y)) as [E|N].
  - unfold Double.roundPositive, Double.ulp. rewrite E.
    pose proof (two_pow_pos (Double.ilog2 y - 52)) as Hu.
    apply Qmult_le_compat_r; [|by apply Qlt_le_weak].
    rewrite <- Zle_Qle. apply nearest_mono.
    apply Qmult_le_compat_r; [done|].
    apply Qlt_le_weak, Qinv_lt_0_compat, Hu.
  - eapply Qle_trans; [apply (roundPositive_range x Hx)|].
    eapply Qle_trans; [|apply (roundPositive_range y Hy)].
    apply two_pow_le. lia.
Qed.

(** A positive number with at most 53 significant bits is not changed. *)
Lemma roundPositive_exact (r : Q) (e k : Z) :
  2 ^ e <= r -> r < 2 ^ (e + 1) -> r == inject_Z k * 2 ^ (e - 52) ->
  Double.roundPositive r == r.
Proof.
  intros H1 H2 Hk. unfold Double.roundPositive, Double.ulp.
  rewrite (ilog2_unique r e H1 H2).
  pose proof (two_pow_pos (e - 52)) as Hu.
  assert (E : r / 2 ^ (e - 52) == inject_Z k).
  { rewrite Hk. field. intros H. rewrite H in Hu. by apply Qlt_irrefl in Hu. }
  rewrite (nearest_comp _ _ E), nearest_Z. by rewrite Hk.
Qed.

Lemma roundPositive_idem (x : Q) :
  0 < x -> Double.roundPositive (Double.roundPositive x)
           == Double.roundPositive x.
Proof.
  intros Hx. destruct (significand_range x Hx) as [H1 H2].
  destruct (roundPositive_range x Hx) as [R1 R2].
  destruct (ulp_scale x) as [E1 E2]. pose proof (ulp_pos x) as Hu.
  destruct (Z.eq_dec (Double.nearest (x / Double.ulp x)) (2 ^ 53)%Z) as [E|N].
  - apply (roundPositive_exact _ (Double.ilog2 x + 1)%Z (2 ^ 52)%Z).
    + unfold Double.roundPositive. rewrite E, <- E2.
      change (inject_Z (2 ^ 53)) with (2 ^ 53). apply Qle_refl.
    + unfold Double.roundPositive. rewrite E.
      change (inject_Z (2 ^ 53)) with (2 ^ 53).
      rewrite E2, (two_pow_succ (Double.ilog2 x + 1)).
      pose proof (two_pow_pos (Double.ilog2 x + 1)) as Hp.
      set (p := 2 ^ (Double.ilog2 x + 1)) in *. clearbody p. lra.
    + unfold Double.roundPositive. rewrite E.
      change (inject_Z (2 ^ 53)) with (2 ^ 53).
      change (inject_Z (2 ^ 52)) with (2 ^ 52). rewrite E2.
      rewrite <- two_pow_plus.
      by replace (52 + (Double.ilog2 x + 1 - 52))%Z
        with (Double.ilog2 x + 1)%Z by lia.
  - apply (roundPositive_exact _ (Double.ilog2 x)
             (Double.nearest (x / Double.ulp x))); [done| |reflexivity].
    unfold Double.roundPositive. rewrite <- E2.
    apply Qmult_lt_compat_r; [done|].
    change (2 ^ 53) with (inject_Z (2 ^ 53)). rewrite <- Zlt_Qlt. lia.
Qed.

Lemma roundPositive_comp (x y : Q) :
  0 < x -> x == y -> Double.roundPositive x == Double.roundPositive y.
Proof.
  intros Hx Hxy. destruct (ilog2_spec x Hx) as [X1 X2].
  assert (E : Double.ilog2 y = Double.ilog2 x).
  { set (lo := 2 ^ Double.ilog2 x) in *.
    set (hi := 2 ^ (Double.ilog2 x + 1)) in *.
    apply ilog2_unique; fold lo hi; clearbody lo hi; lra. }
  unfold Double.roundPositive, Double.ulp. rewrite E.
  assert (E' : y / 2 ^ (Double.ilog2 x - 52) == x / 2 ^ (Double.ilog2 x - 52))
    by (apply Qmult_comp; [by symmetry | reflexivity]).
  by rewrite (nearest_comp _ _ E').
Qed.

Lemma round_of_positive (x : Q) :
  0 < x -> Double.round x = Double.roundPositive x.
Proof.
  destruct x as [[|p|p] d]; intros H; try done.
Qed.

Lemma round_of_negative (x : Q) :
  x < 0 -> Double.round x = - Double.roundPositive (- x).
Proof.
  destruct x as [[|p|p] d]; intros H; try done.
Qed.

Lemma round_of_zero (x : Q) : x == 0 -> Double.round x = 0.
Proof.
  destruct x as [[|p|p] d]; intros H; try done.
Qed.

Lemma sign_cases (x : Q) : x < 0 \/ x == 0 \/ 0 < x.
Proof. destruct (Q_dec x 0) as [[?|?]|?]; auto. Qed.

Lemma round_comp (x y : Q) : x == y -> Double.round x == Double.round y.
Proof.
  intros H. destruct (sign_cases x) as [Hx|[Hx|Hx]].
  - rewrite (round_of_negative x Hx), (round_of_negative y) by lra.
    apply Qopp_comp, roundPositive_comp; lra.
  - rewrite (round_of_zero x Hx), (round_of_zero y) by lra.
    reflexivity.
  - rewrite (round_of_positive x Hx), (round_of_positive y) by lra.
    by apply roundPositive_comp.
Qed.

#[export] Instance round_proper : Proper (Qeq ==> Qeq) Double.round.
Proof. intros x y H. by apply round_comp. Qed.

Lemma round_mono (x y : Q) : x <= y -> Double.round x <= Double.round y.
Proof.
  intros H. destruct (sign_cases x) as [Hx|[Hx|Hx]].
  - rewrite (round_of_negative x Hx).
    pose proof (roundPositive_pos (- x) ltac:(lra)) as Px.
    destruct (sign_cases y) as [Hy|[Hy|Hy]].
    + rewrite (round_of_negative y Hy).
      pose proof (roundPositive_mono (- y) (- x) ltac:(lra) ltac:(lra)). lra.
    + rewrite (round_of_zero y Hy). lra.
    + rewrite (round_of_positive y Hy).
      pose proof (roundPositive_pos y Hy). lra.
  - rewrite (round_of_zero x Hx).
    destruct (sign_cases y) as [Hy|[Hy|Hy]]; [lra| |].
    + rewrite (round_of_zero y Hy). lra.
    + rewrite (round_of_positive y Hy).
      pose proof (roundPositive_pos y Hy). lra.
  - rewrite (round_of_positive x Hx), (round_of_positive y) by lra.
    by apply roundPositive_mono.
Qed.

Lemma round_opp (x : Q) : Double.round (- x) == - Double.round x.
Proof.
  destruct (sign_cases x) as [Hx|[Hx|Hx]].
  - rewrite (round_of_negative x Hx), (round_of_positive (- x)) by lra. ring.
  - rewrite (round_of_zero x Hx), (round_of_zero (- x)) by lra. reflexivity.
  - rewrite (round_of_positive x Hx), (round_of_negative (- x)) by lra.
    apply Qopp_comp, roundPositive_comp; [lra | ring].
Qed.

Lemma round_idem (x : Q) : Double.round (Double.round x) == Double.round x.
Proof.
  destruct (sign_cases x) as [Hx|[Hx|Hx]].
  - rewrite (round_of_negative x Hx).
    pose proof (roundPositive_pos (- x) ltac:(lra)) as Px.
    rewrite round_opp, (round_of_positive _ Px).
    apply Qopp_comp, roundPositive_idem. lra.
  - rewrite (round_of_zero x Hx). reflexivity.
  - rewrite (round_of_positive x Hx).
    rewrite (round_of_positive _ (roundPositive_pos x Hx)).
    by apply roundPositive_idem.
Qed.

Lemma round_nonneg (x : Q) : 0 <= x -> 0 <= Double.round x.
Proof. intros H. apply (round_mono 0 x H). Qed.

Lemma round_nonpos (x : Q) : x <= 0 -> Double.round x <= 0.
Proof. intros H. apply (round_mono x 0 H). Qed.

(** Every integer below 2^53 in size is a binary64 value. *)
Lemma round_Z (z : Z) :
  (Z.abs z < 2 ^ 53)%Z -> Double.round (inject_Z z) == inject_Z z.
Proof.
  assert (Hpos : forall k, (0 < k < 2 ^ 53)%Z ->
                           Double.roundPositive (inject_Z k) == inject_Z k).
  { intros k [K0 K1].
    destruct (Z.log2_spec k K0) as [L1 L2]. rewrite <- Z.add_1_r in L2.
    assert (L0 : (0 <= Z.log2 k)%Z) by apply Z.log2_nonneg.
    assert (L53 : (Z.log2 k < 53)%Z).
    { apply Z.log2_lt_pow2; lia. }
    apply (roundPositive_exact _ (Z.log2 k) (k * 2 ^ (52 - Z.log2 k))%Z).
    - rewrite <- two_pow_Z by done. by rewrite <- Zle_Qle.
    - rewrite <- two_pow_Z by lia. by rewrite <- Zlt_Qlt.
    - rewrite inject_Z_mult, two_pow_Z by lia.
      rewrite <- Qmult_assoc, <- two_pow_plus.
      replace (52 - Z.log2 k + (Z.log2 k - 52))%Z with 0%Z by lia.
      change (2 ^ 0) with 1. ring. }
  intros Hz. destruct (Z.lt_trichotomy z 0) as [Hn|[->|Hp]].
  - assert (Hq : inject_Z z < 0)
      by (change 0 with (inject_Z 0); rewrite <- Zlt_Qlt; lia).
    assert (E : - inject_Z z == inject_Z (- z)) by (by rewrite inject_Z_opp).
    assert (Hq' : 0 < - inject_Z z)
      by (set (q := inject_Z z) in *; clearbody q; lra).
    rewrite (round_of_negative (inject_Z z) Hq).
    rewrite (roundPositive_comp _ _ Hq' E), Hpos by lia.
    rewrite inject_Z_opp. ring.
  - reflexivity.
  - rewrite (round_of_positive (inject_Z z))
      by (change 0 with (inject_Z 0); rewrite <- Zlt_Qlt; lia).
    apply Hpos. lia.
Qed.

(** ** src/utils.js *)

(** X1: with its bounds in order, [clamp] returns a value between them,
    returns the value itself when it already lies between them, and
    clamping twice is clamping once. *)
Theorem X1_clamp_within value lo hi :
  lo <= hi ->
  lo <= Utils.clamp value lo hi <= hi
  /\ (lo <= value <= hi -> Utils.clamp value lo hi == value)
  /\ Utils.clamp (Utils.clamp value lo hi) lo hi == Utils.clamp value lo hi.
Proof.
  intros Hle. unfold Utils.clamp.
  assert (Hb : lo <= Qmin (Qmax value lo) hi <= hi).
  { split; [|apply Q.le_min_r].
    apply Q.min_glb; [apply Q.le_max_r | exact Hle]. }
  split; [exact Hb|]. split.
  - intros [H1 H2]. rewrite (Q.max_l value lo H1). by apply Q.min_l.
  - destruct Hb as [H1 H2].
    rewrite (Q.max_l _ lo H1). by apply Q.min_l.
Qed.

Lemma X1_clamp_within_witness :
  0 <= 1 /\ Utils.clamp 3 0 1 == 1 /\ 0 <= Utils.clamp 3 0 1 <= 1.
Proof.
  assert (H : 0 <= 1) by (vm_compute; discriminate).
  split; [exact H|]. split; [reflexivity|].
  exact (proj1 (X1_clamp_within 3 0 1 H)).
Defined.

(** X2: with its bounds inverted (lo above hi), [clamp] returns the
    upper argument whatever the value. *)
Theorem X2_clamp_inverted value lo hi :
  hi < lo -> Utils.clamp value lo hi == hi.
Proof.
  intros Hlt. unfold Utils.clamp. apply Q.min_r.
  eapply Qle_trans; [apply Qlt_le_weak, Hlt | apply Q.le_max_r].
Qed.

Lemma X2_clamp_inverted_witness : 1 < 2 /\ Utils.clamp 5 2 1 == 1.
Proof.
  assert (H : 1 < 2) by reflexivity.
  split; [exact H | exact (X2_clamp_inverted 5 2 1 H)].
Defined.

(** X3: [lerp] in the rounded arithmetic of the source.  For end values
    that are binary64 numbers it returns exactly its first end at
    alpha = 0 and exactly its second at alpha = 1, and for
    0 <= alpha <= 1 it does not decrease when either end grows.  It
    does not stay between its ends: between 0.1 and 0.1, at 0.3, the
    result is below 0.1. *)
Theorem X3_lerp_rounded (start stop alpha : Q) :
  (Double.representable start -> Double.representable stop ->
   Utils.lerp start stop 0 == start /\ Utils.lerp start stop 1 == stop)
  /\ (0 <= alpha <= 1 ->
      forall start' stop',
        start <= start' -> stop <= stop' ->
        Utils.lerp start stop alpha <= Utils.lerp start' stop' alpha)
  /\ (let tenth := Double.round 0.1 in
      Utils.lerp tenth tenth (Double.round 0.3) < tenth).
Proof.
  split_and!.
  - unfold Double.representable. intros Hs He.
    unfold Utils.lerp, Double.add, Double.mul, Double.sub.
    assert (E0 : Double.round (1 - 0) == 1) by (vm_compute; reflexivity).
    assert (E1 : Double.round (1 - 1) == 0) by (vm_compute; reflexivity).
    split.
    + assert (A : Double.round (start * Double.round (1 - 0)) == start).
      { rewrite <- Hs at 2. apply round_comp. rewrite E0. ring. }
      assert (B : Double.round (stop * 0) == 0).
      { apply (round_comp (stop * 0) 0). ring. }
      rewrite <- Hs at 2. apply round_comp. rewrite A, B. ring.
    + assert (A : Double.round (start * Double.round (1 - 1)) == 0).
      { apply (round_comp _ 0). rewrite E1. ring. }
      assert (B : Double.round (stop * 1) == stop).
      { rewrite <- He at 2. apply round_comp. ring. }
      rewrite <- He at 2. apply round_comp. rewrite A, B. ring.
  - intros [Ha0 Ha1] start' stop' Hs He.
    unfold Utils.lerp, Double.add, Double.mul, Double.sub.
    assert (Hk : 0 <= Double.round (1 - alpha)) by (apply round_nonneg; lra).
    set (k := Double.round (1 - alpha)) in *. clearbody k.
    apply round_mono.
    pose proof (round_mono (start * k) (start' * k) ltac:(nra)) as H1.
    pose proof (round_mono (stop * alpha) (stop' * alpha) ltac:(nra)) as H2.
    lra.
  - vm_compute. reflexivity.
Qed.

Lemma X3_lerp_rounded_witness :
  Double.representable 2 /\ Double.representable 4
  /\ Utils.lerp 2 4 0 == 2 /\ Utils.lerp 2 4 1 == 4
  /\ 0 <= 1 # 4 <= 1
  /\ Utils.lerp 2 4 (1 # 4) <= Utils.lerp 3 4 (1 # 4).
Proof.
  assert (H2 : Double.representable 2) by (vm_compute; reflexivity).
  assert (H4 : Double.representable 4) by (vm_compute; reflexivity).
  assert (Ha : 0 <= 1 # 4 <= 1) by (split; vm_compute; congruence).
  destruct (X3_lerp_rounded 2 4 (1 # 4)) as (Hends & Hmono & _).
  destruct (Hends H2 H4) as [E0 E1].
  split_and!; [exact H2 | exact H4 | exact E0 | exact E1 | apply Ha
              | apply Ha |].
  apply (Hmono Ha 3 4); vm_compute; congruence.
Defined.

(** X4: [toDegrees] and [toRadians] in the rounded arithmetic of the
    source.  They map [Math.PI] to exactly 180 and 180 to exactly
    [Math.PI], and neither decreases when its argument grows.  They are
    not inverse to each other: the angle 0.1 does not come back from
    degrees, and 3 degrees do not come back from radians. *)
Theorem X4_degrees_radians (x y : Q) :
  Utils.toDegrees Math_PI == 180
  /\ Utils.toRadians 180 == Math_PI
  /\ (x <= y ->
      Utils.toDegrees x <= Utils.toDegrees y
      /\ Utils.toRadians x <= Utils.toRadians y)
  /\ (let tenth := Double.round 0.1 in
      ~ Utils.toRadians (Utils.toDegrees tenth) == tenth)
  /\ ~ Utils.toDegrees (Utils.toRadians 3) == 3.
Proof.
  split_and!.
  - vm_compute. reflexivity.
  - vm_compute. reflexivity.
  - intros Hxy. unfold Utils.toDegrees, Utils.toRadians, Double.mul.
    assert (H1 : 0 <= Double.div 180 Math_PI) by (vm_compute; congruence).
    assert (H2 : 0 <= Double.div Math_PI 180) by (vm_compute; congruence).
    set (c1 := Double.div 180 Math_PI) in *.
    set (c2 := Double.div Math_PI 180) in *. clearbody c1 c2.
    split; apply round_mono; nra.
  - vm_compute. congruence.
  - vm_compute. congruence.
Qed.

Lemma X4_degrees_radians_witness :
  1 <= 2 /\ Utils.toDegrees 1 <= Utils.toDegrees 2.
Proof.
  assert (H : 1 <= 2) by (vm_compute; congruence).
  destruct (X4_degrees_radians 1 2) as (_ & _ & Hmono & _).
  split; [exact H | exact (proj1 (Hmono H))].
Defined.

(** ** Truncation and rounding of the score *)

Lemma floor_unique (x : Q) (n : Z) :
  inject_Z n <= x -> x < inject_Z (n + 1) -> Qfloor x = n.
Proof.
  intros Hlo Hhi. apply Z.le_antisymm.
  - apply Z.lt_succ_r. rewrite Zlt_Qlt.
    eapply Qle_lt_trans; [apply Qfloor_le|]. exact Hhi.
  - rewrite <- (Qfloor_Z n). by apply Qfloor_resp_le.
Qed.

Lemma pow10_exact (decimals : Z) :
  (0 <= decimals <= 22)%Z -> Double.round (10 ^ decimals) == 10 ^ decimals.
Proof.
  intros H.
  assert (E : (decimals = 0 \/ decimals = 1 \/ decimals = 2 \/ decimals = 3
               \/ decimals = 4 \/ decimals = 5 \/ decimals = 6
               \/ decimals = 7 \/ decimals = 8 \/ decimals = 9
               \/ decimals = 10 \/ decimals = 11 \/ decimals = 12
               \/ decimals = 13 \/ decimals = 14 \/ decimals = 15
               \/ decimals = 16 \/ decimals = 17 \/ decimals = 18
               \/ decimals = 19 \/ decimals = 20 \/ decimals = 21
               \/ decimals = 22)%Z) by lia.
  repeat (destruct E as [->|E]; [vm_compute; reflexivity|]).
  subst decimals. vm_compute. reflexivity.
Qed.

Lemma scale_positive (decimals : Z) : 0 < Double.round (10 ^ decimals).
Proof.
  assert (H : 0 < 10 ^ decimals) by (by apply Qpower_0_lt).
  rewrite (round_of_positive _ H). by apply roundPositive_pos.
Qed.

Lemma formatDistance_some distance decimals shown :
  Utils.formatDistance distance decimals = Some shown ->
  shown
  = Double.div
      (inject_Z (Qfloor (Double.mul distance (Double.round (10 ^ decimals)))))
      (Double.round (10 ^ decimals)).
Proof.
  unfold Utils.formatDistance.
  destruct ((0 <=? decimals) && (decimals <=? 100))%Z; congruence.
Qed.

(** X5: [formatDistance(distance, decimals)] in the rounded arithmetic of
    the source.  It throws exactly when [decimals] is below 0 or above
    100.  Otherwise the number it formats is the quotient of a whole
    number of units by the scale, the units being the floor of the
    rounded product of the distance and the scale; it does not decrease
    when the distance grows.  For up to 22 decimals (where the scale is
    exact) and fewer than 2^53 units, the distance is less than one unit
    above the units printed.  It can be below them: for the binary64
    number nearest to 0.3 and one decimal the product rounds up to 3, and
    three tenths are printed for a distance that is less. *)
Theorem X5_formatDistance_truncates (distance : Q) (decimals : Z) :
  (Utils.formatDistance distance decimals = None
   <-> (decimals < 0 \/ 100 < decimals)%Z)
  /\ (forall shown,
        Utils.formatDistance distance decimals = Some shown ->
        exists units : Z,
          units = Qfloor (Double.mul distance (Double.round (10 ^ decimals)))
          /\ shown
             = Double.div (inject_Z units) (Double.round (10 ^ decimals))
          /\ ((0 <= decimals <= 22)%Z -> (Z.abs (units + 1) < 2 ^ 53)%Z ->
              distance * 10 ^ decimals < inject_Z units + 1)
          /\ forall further shown',
               distance <= further ->
               Utils.formatDistance further decimals = Some shown' ->
               shown <= shown')
  /\ (let d := Double.round 0.3 in
      d * 10 < 3
      /\ (fun shown => Qeq_bool shown (Double.div 3 10))
           <$> Utils.formatDistance d 1 = Some true).
Proof.
  pose proof (scale_positive decimals) as Hp.
  split_and!.
  - unfold Utils.formatDistance.
    destruct (0 <=? decimals)%Z eqn:E1, (decimals <=? 100)%Z eqn:E2; simpl;
      split; try done; try lia.
  - intros shown H. apply formatDistance_some in H.
    eexists. split; [reflexivity|]. split; [exact H|]. split.
    + intros Hd Hu. pose proof (pow10_exact decimals Hd) as Epow.
      set (p := Double.round (10 ^ decimals)) in *.
      assert (E : distance * 10 ^ decimals == distance * p)
        by (apply Qmult_comp; [reflexivity | by symmetry]).
      pose proof (Qlt_floor (Double.mul distance p)) as Hfl.
      set (u := Qfloor (Double.mul distance p)) in *.
      apply Qnot_le_lt. intros Hge.
      assert (Hge' : inject_Z (u + 1) <= distance * p).
      { rewrite inject_Z_plus. change (inject_Z 1) with 1.
        set (x := distance * 10 ^ decimals) in *.
        set (y := distance * p) in *. set (z := inject_Z u) in *.
        clearbody x y z. lra. }
      pose proof (round_mono _ _ Hge') as Hm.
      pose proof (round_Z _ Hu) as Hz.
      unfold Double.mul in Hfl.
      set (a := Double.round (inject_Z (u + 1))) in *.
      set (b := Double.round (distance * p)) in *.
      set (c := inject_Z (u + 1)) in *. clearbody a b c. lra.
    + intros further shown' Hle H'. apply formatDistance_some in H'.
      subst shown shown'. set (p := Double.round (10 ^ decimals)) in *.
      unfold Double.div, Double.mul. apply round_mono.
      apply Qmult_le_compat_r;
        [|apply Qlt_le_weak, Qinv_lt_0_compat, Hp].
      rewrite <- Zle_Qle. apply Qfloor_resp_le, round_mono.
      apply Qmult_le_compat_r; [done | by apply Qlt_le_weak].
  - split; vm_compute; reflexivity.
Qed.

Lemma X5_formatDistance_truncates_witness :
  exists shown,
    Utils.formatDistance 12.37 1 = Some shown
    /\ (0 <= 1 <= 22)%Z
    /\ 12.37 * 10 ^ 1 < inject_Z 123 + 1.
Proof.
  destruct (Utils.formatDistance 12.37 1) as [shown|] eqn:H;
    [|vm_compute in H; discriminate].
  exists shown. split; [reflexivity|].
  assert (Hd : (0 <= 1 <= 22)%Z) by lia. split; [exact Hd|].
  destruct (X5_formatDistance_truncates 12.37 1) as (_ & Hb & _).
  destruct (Hb shown H) as (units & Hu & _ & Hlt & _).
  assert (E : units = 123%Z) by (rewrite Hu; vm_compute; reflexivity).
  rewrite E in Hlt. apply (Hlt Hd). vm_compute. reflexivity.
Defined.

(** X6: the final score and the running score are rendered differently:
    [showGameOver] rounds the recorded distance to the nearest tenth,
    [updateScore] truncates it.  For a distance that is not negative the
    final text is the running text or one tenth more, the latter exactly
    when the distance is at least five hundredths past the running text;
    it is then above the distance itself. *)
Theorem X6_final_score_rounds_up (distance : Q) (ui : UI.t) :
  0 <= distance ->
  forall running final,
    UI.scoreDisplay (UI.updateScore distance ui) = Some running ->
    toFixed1 <$> UI.finalScoreDisplay (UI.showGameOver distance ui)
    = Some final ->
    (final == running \/ final == running + 0.1)
    /\ (final == running + 0.1 <-> running + 0.05 <= distance)
    /\ (final == running + 0.1 -> distance < final).
Proof.
  intros H0 running final H1 H2.
  assert (E1 : running = inject_Z (Qfloor (distance * 10)) / 10).
  { change (Some (inject_Z (Qfloor (distance * 10)) / 10) = Some running)
      in H1. by injection H1. }
  assert (E2 : final = toFixed1 distance).
  { change (Some (toFixed1 distance) = Some final) in H2. by injection H2. }
  subst running final. clear H1 H2. unfold toFixed1.
  assert (Hh : 1 / 2 == 1 # 2) by reflexivity.
  set (half := 1 / 2) in *. clearbody half.
  pose proof (Qfloor_le (distance * 10)) as Hlo.
  pose proof (Qlt_floor (distance * 10)) as Hhi.
  rewrite inject_Z_plus in Hhi. change (inject_Z 1) with 1 in Hhi.
  assert (Hup : forall m : Z, inject_Z (m + 1) == inject_Z m + 1)
    by (intros m; by rewrite inject_Z_plus).
  set (n := Qfloor (distance * 10)) in *. clearbody n.
  destruct (Qlt_le_dec (distance * 10) (inject_Z n + half)) as [Hs|Hs].
  - assert (E : Qfloor (distance * 10 + half) = n).
    { apply floor_unique; rewrite ?Hup; set (z := inject_Z n) in *;
        clearbody z; lra. }
    rewrite E.
    assert (Hz : inject_Z n / 10 * 10 == inject_Z n) by (field; lra).
    set (z := inject_Z n) in *. clearbody z.
    set (r := z / 10) in *. clearbody r.
    split_and!.
    + left. reflexivity.
    + split; intros H; exfalso; lra.
    + intros H. exfalso. lra.
  - assert (E : Qfloor (distance * 10 + half) = (n + 1)%Z).
    { apply floor_unique; rewrite ?Hup; set (z := inject_Z n) in *;
        clearbody z; lra. }
    rewrite E, Hup.
    assert (E' : (inject_Z n + 1) / 10 == inject_Z n / 10 + 0.1)
      by (field; lra).
    assert (Hz : inject_Z n / 10 * 10 == inject_Z n) by (field; lra).
    rewrite E'.
    set (z := inject_Z n) in *. clearbody z.
    set (r := z / 10) in *. clearbody r.
    split_and!.
    + right. reflexivity.
    + split; intros _; [lra | reflexivity].
    + intros _. lra.
Qed.

Lemma X6_final_score_rounds_up_witness :
  0 <= 12.37
  /\ UI.scoreDisplay (UI.updateScore 12.37 UI.new) = Some 12.3
  /\ toFixed1 <$> UI.finalScoreDisplay (UI.showGameOver 12.37 UI.new)
     = Some 12.4
  /\ 12.37 < 12.4.
Proof.
  assert (H0 : 0 <= 12.37) by lra.
  assert (H1 : UI.scoreDisplay (UI.updateScore 12.37 UI.new) = Some 12.3)
    by reflexivity.
  assert (H2 : toFixed1 <$> UI.finalScoreDisplay (UI.showGameOver 12.37 UI.new)
               = Some 12.4) by reflexivity.
  destruct (X6_final_score_rounds_up 12.37 UI.new H0 _ _ H1 H2)
    as (_ & _ & H).
  split_and!; [exact H0 | exact H1 | exact H2 | apply H; reflexivity].
Defined.

(** ** Collision groups *)

Lemma testbit_small (f : Z) (k n : Z) :
  (0 <= f < 2 ^ k)%Z -> (k <= n)%Z -> Z.testbit f n = false.
Proof.
  intros [H0 H1] Hn.
  destruct (Z.eq_dec f 0%Z) as [->|Hf]; [apply Z.bits_0|].
  apply Z.bits_above_log2; [done|].
  assert (Z.log2 f < k)%Z; [|lia].
  apply Z.log2_lt_pow2; lia.
Qed.

Lemma pack_memberships (m f : Z) :
  (0 <= f < 2 ^ 16)%Z ->
  InteractionGroups.memberships (Z.lor (Z.shiftl m 16) f) = m.
Proof.
  intros Hf. unfold InteractionGroups.memberships.
  rewrite Z.shiftr_lor, Z.shiftr_shiftl_l by lia.
  rewrite Z.sub_diag, Z.shiftl_0_r.
  assert (E : Z.shiftr f 16 = 0%Z).
  { apply Z.bits_inj'. intros n Hn.
    rewrite Z.shiftr_spec, Z.bits_0 by done.
    apply (testbit_small f 16); [done | lia]. }
  rewrite E. apply Z.lor_0_r.
Qed.

Lemma pack_filter (m f : Z) :
  (0 <= f < 2 ^ 16)%Z ->
  InteractionGroups.filter (Z.lor (Z.shiftl m 16) f) = f.
Proof.
  intros Hf. unfold InteractionGroups.filter.
  change 0xFFFF%Z with (Z.ones 16).
  apply Z.bits_inj'. intros n Hn.
  rewrite Z.land_spec, Z.lor_spec.
  destruct (Z.lt_ge_cases n 16) as [Hlt|Hge].
  - rewrite Z.shiftl_spec_low, Z.ones_spec_low by lia.
    by rewrite andb_true_r.
  - rewrite Z.ones_spec_high by lia. rewrite andb_false_r.
    symmetry. apply (testbit_small f 16); [done | lia].
Qed.

(** X7: [createDynamicBody] packs a collision filter into one number with
    the memberships in the high half and the filter in the low half.  For
    memberships below 2^15 and a filter below 2^16 (the range in which
    the 32-bit shift of the source does not overflow) the packed number
    is a non-negative 31-bit number from which both halves are read back
    unchanged; without a filter the body gets no groups. *)
Theorem X7_collision_groups_round_trip (x y width height density : Q)
  (isRound : bool) (f : CollisionFilters.t) :
  (0 <= CollisionFilters.memberships f < 2 ^ 15)%Z ->
  (0 <= CollisionFilters.filter f < 2 ^ 16)%Z ->
  (exists groups,
     groupsOf (PhysicsWorld.createDynamicBody x y width height density
                 isRound (Some f)) = Some groups
     /\ InteractionGroups.memberships groups = CollisionFilters.memberships f
     /\ InteractionGroups.filter groups = CollisionFilters.filter f
     /\ (0 <= groups < 2 ^ 31)%Z)
  /\ groupsOf (PhysicsWorld.createDynamicBody x y width height density
                 isRound None) = None.
Proof.
  intros Hm Hf. split; [|reflexivity].
  eexists. split; [reflexivity|]. split_and!.
  - by apply pack_memberships.
  - by apply pack_filter.
  - apply Z.lor_nonneg. split; [|lia]. apply Z.shiftl_nonneg. lia.
  - set (g := Z.lor _ _).
    assert (Hg : (0 <= g)%Z).
    { apply Z.lor_nonneg. split; [|lia]. apply Z.shiftl_nonneg. lia. }
    destruct (Z.eq_dec g 0%Z) as [->|Hg0]; [lia|].
    apply Z.log2_lt_pow2; [lia|].
    unfold g. rewrite Z.log2_lor; [|apply Z.shiftl_nonneg; lia | lia].
    apply Z.max_lub_lt.
    + destruct (Z.eq_dec (CollisionFilters.memberships f) 0%Z) as [->|Hm0];
        [done|].
      rewrite Z.log2_shiftl by lia.
      assert (Z.log2 (CollisionFilters.memberships f) < 15)%Z; [|lia].
      apply Z.log2_lt_pow2; lia.
    + destruct (Z.eq_dec (CollisionFilters.filter f) 0%Z) as [->|Hf0];
        [done|].
      assert (Z.log2 (CollisionFilters.filter f) < 16)%Z; [|lia].
      apply Z.log2_lt_pow2; lia.
Qed.

Lemma X7_collision_groups_round_trip_witness :
  (0 <= CollisionFilters.memberships CollisionFilters.TORSO < 2 ^ 15)%Z
  /\ (0 <= CollisionFilters.filter CollisionFilters.TORSO < 2 ^ 16)%Z
  /\ exists groups,
       groupsOf (PhysicsWorld.createDynamicBody 0 0 1 1 1 false
                   (Some CollisionFilters.TORSO)) = Some groups
       /\ InteractionGroups.memberships groups = 1%Z
       /\ InteractionGroups.filter groups = 14%Z.
Proof.
  assert (Hm : (0 <= CollisionFilters.memberships CollisionFilters.TORSO
                < 2 ^ 15)%Z) by (vm_compute; split; congruence).
  assert (Hf : (0 <= CollisionFilters.filter CollisionFilters.TORSO
                < 2 ^ 16)%Z) by (vm_compute; split; congruence).
  split; [exact Hm|]. split; [exact Hf|].
  destruct (X7_collision_groups_round_trip 0 0 1 1 1 false
              CollisionFilters.TORSO Hm Hf)
    as [(groups & Hg & H1 & H2 & _) _].
  exists groups. split_and!; [exact Hg | exact H1 | exact H2].
Defined.

Lemma createPhysicsBodies_groups c name b :
  name ∈ bodyNames ->
  Character.bodies (Character.createPhysicsBodies c) !! name = Some b ->
  groupsOf b = Some (packed (filterOf name)).
Proof.
  intros Hin. unfold bodyNames in Hin.
  repeat (apply elem_of_cons in Hin as [->|Hin]);
    [..|by apply elem_of_nil in Hin];
    unfold Character.createPhysicsBodies; cbn [Character.bodies Character.setBodies];
    repeat (rewrite lookup_insert_ne by done);
    rewrite lookup_insert_eq; intros [= <-]; reflexivity.
Qed.

(** X8: the collision matrix of the skeleton [createPhysicsBodies]
    builds.  Two different links collide with each other exactly when one
    of them is the torso: arms and legs pass through each other, also on
    the same side, and no link is exempt from the ground and the
    hurdles. *)
Theorem X8_collision_matrix (c : Character.t) (name1 name2 : string)
  (b1 b2 : Rapier.RigidBody) :
  name1 ∈ bodyNames -> name2 ∈ bodyNames -> name1 <> name2 ->
  Character.bodies (Character.createPhysicsBodies c) !! name1 = Some b1 ->
  Character.bodies (Character.createPhysicsBodies c) !! name2 = Some b2 ->
  (InteractionGroups.interact (groupsOf b1) (groupsOf b2) = true
   <-> name1 = "torso" \/ name2 = "torso")
  /\ InteractionGroups.interact (groupsOf b1) (Some Track.groundGroups)
     = true.
Proof.
  intros Hin1 Hin2 Hne H1 H2.
  rewrite (createPhysicsBodies_groups c name1 b1 Hin1 H1).
  rewrite (createPhysicsBodies_groups c name2 b2 Hin2 H2).
  unfold filterOf.
  destruct (decide (name1 = "torso")) as [->|N1],
           (decide (name2 = "torso")) as [->|N2]; [done|..].
  - split; [split; [intros _; by left|intros _]|];
      repeat case_decide; reflexivity.
  - split; [split; [intros _; by right|intros _]|];
      repeat case_decide; reflexivity.
  - split; [split; [|intros [?|?]; done]|];
      repeat case_decide; vm_compute; congruence.
Qed.

Lemma X8_collision_matrix_witness :
  "leftThigh" ∈ bodyNames /\ "leftCalf" ∈ bodyNames
  /\ (forall b1 b2,
        Character.bodies
          (Character.createPhysicsBodies
             (Character.new (PhysicsWorld.init ∅) 0)) !! "leftThigh"
        = Some b1 ->
        Character.bodies
          (Character.createPhysicsBodies
             (Character.new (PhysicsWorld.init ∅) 0)) !! "leftCalf"
        = Some b2 ->
        InteractionGroups.interact (groupsOf b1) (groupsOf b2) = false).
Proof.
  assert (H1 : "leftThigh" ∈ bodyNames) by (unfold bodyNames; repeat constructor).
  assert (H2 : "leftCalf" ∈ bodyNames) by (unfold bodyNames; repeat constructor).
  split; [exact H1|]. split; [exact H2|]. intros b1 b2 E1 E2.
  destruct (X8_collision_matrix _ "leftThigh" "leftCalf" b1 b2 H1 H2
              ltac:(done) E1 E2) as [Hiff _].
  destruct (InteractionGroups.interact (groupsOf b1) (groupsOf b2));
    [|reflexivity].
  destruct (proj1 Hiff eq_refl) as [?|?]; discriminate.
Defined.

(** ** The track *)

Lemma hurdleLoop_sound fuel i k :
  (15 <= i)%Z -> k ∈ Track.hurdleLoop fuel i ->
  exists j, (0 <= j)%Z /\ (i + 15 * j < 500)%Z /\ k = hurdleAt (i + 15 * j).
Proof.
  revert i. induction fuel as [|fuel IH]; intros i Hi Hk; simpl in Hk.
  - by apply elem_of_nil in Hk.
  - destruct (i <? 500)%Z eqn:E500; [|by apply elem_of_nil in Hk].
    apply Z.ltb_lt in E500.
    destruct (i <? 15)%Z eqn:E15; [apply Z.ltb_lt in E15; lia|].
    apply elem_of_cons in Hk as [->|Hk].
    + exists 0%Z. split_and!; [lia | lia |]. by rewrite Z.mul_0_r, Z.add_0_r.
    + destruct (IH (i + 15)%Z ltac:(lia) Hk) as (j & Hj & Hlt & ->).
      exists (j + 1)%Z. split_and!; [lia | lia |]. f_equal. lia.
Qed.

Lemma hurdleLoop_complete fuel i j :
  (15 <= i)%Z -> (0 <= j)%Z -> (i + 15 * j < 500)%Z ->
  (500 - i <= 15 * Z.of_nat fuel)%Z ->
  hurdleAt (i + 15 * j) ∈ Track.hurdleLoop fuel i.
Proof.
  revert i j. induction fuel as [|fuel IH]; intros i j Hi Hj Hlt Hfuel.
  - lia.
  - simpl. assert (E500 : (i <? 500)%Z = true) by (apply Z.ltb_lt; lia).
    assert (E15 : (i <? 15)%Z = false) by (apply Z.ltb_ge; lia).
    rewrite E500, E15.
    destruct (Z.eq_dec j 0%Z) as [->|Hj0].
    + rewrite Z.mul_0_r, Z.add_0_r. apply elem_of_cons. by left.
    + apply elem_of_cons. right.
      replace (i + 15 * j)%Z with (i + 15 + 15 * (j - 1))%Z by lia.
      apply IH; lia.
Qed.

Lemma hurdleLoop_fuel fuel extra i :
  (15 <= i)%Z -> (500 - i <= 15 * Z.of_nat fuel)%Z ->
  Track.hurdleLoop (fuel + extra) i = Track.hurdleLoop fuel i.
Proof.
  revert i. induction fuel as [|fuel IH]; intros i Hi Hfuel.
  - destruct extra as [|extra]; [done|]. simpl.
    assert (E500 : (i <? 500)%Z = false) by (apply Z.ltb_ge; lia).
    by rewrite E500.
  - simpl. destruct (i <? 500)%Z eqn:E500; [|done].
    destruct (i <? 15)%Z eqn:E15; [apply Z.ltb_lt in E15; lia|].
    f_equal. apply IH; lia.
Qed.

Lemma surface_value : Track.surface == - (9 # 2).
Proof. vm_compute. reflexivity. Qed.

Lemma createHurdleColliders_fuel :
  Track.createHurdleColliders = Track.hurdleLoop 34 15.
Proof.
  unfold Track.createHurdleColliders.
  apply (hurdleLoop_fuel 34 466 15); lia.
Qed.

(** X9: the hurdle colliders of [createHurdleColliders] are exactly the
    33 boxes at x = 15, 30, ..., 495; the loop stops by its own condition
    after 34 tests, whatever bound is put on it.  Each hurdle stands with
    its base on the surface of the track.  The track collider, centred at
    0 with half-length 250, ends at x = 250: the hurdles from the 17th on
    stand wholly beyond its end, with no ground under them. *)
Theorem X9_hurdles_on_track :
  (forall k, k ∈ Track.createHurdleColliders
             <-> exists n, (1 <= n <= 33)%Z /\ k = hurdleAt (15 * n))
  /\ (forall fuel, (34 <= fuel)%nat ->
                   Track.hurdleLoop fuel 15 = Track.createHurdleColliders)
  /\ exists track,
       Track.colliders Track.createGround
       = track :: Track.createHurdleColliders
       /\ Track.top Track.createGround track == Track.surface
       /\ forall n, (1 <= n <= 33)%Z ->
            Track.bottom Track.createGround (hurdleAt (15 * n))
            == Track.surface
            /\ (Track.right Track.createGround track
                < Track.left Track.createGround (hurdleAt (15 * n))
                <-> (17 <= n)%Z).
Proof.
  split; [|split].
  - intros k. rewrite createHurdleColliders_fuel. split.
    + intros Hk. apply hurdleLoop_sound in Hk as (j & Hj & Hlt & ->); [|lia].
      exists (j + 1)%Z. split; [lia|]. f_equal. lia.
    + intros (n & Hn & ->).
      replace (15 * n)%Z with (15 + 15 * (n - 1))%Z by lia.
      apply hurdleLoop_complete; lia.
  - intros fuel Hfuel. rewrite createHurdleColliders_fuel.
    replace fuel with (34 + (fuel - 34))%nat by lia.
    apply hurdleLoop_fuel; lia.
  - eexists. split; [reflexivity|]. split; [reflexivity|].
    intros n Hn. rewrite surface_value.
    unfold Track.bottom, Track.right, Track.left, hurdleAt.
    cbn [Track.offset Track.halfHeight Track.halfWidth Track.translation
         Track.createGround Vec.x Vec.y Vec.zero].
    split; [reflexivity|].
    assert (E : 0 + 0 + 250 == 250) by reflexivity. rewrite E.
    generalize (Zlt_Qlt 250 (15 * n)) (Zle_Qle 255 (15 * n)).
    change (inject_Z 250) with 250. change (inject_Z 255) with 255.
    generalize (inject_Z (15 * n)). intros z H2 H3.
    split.
    + intros H. assert (H' : (250 < 15 * n)%Z) by (rewrite H2; lra). lia.
    + intros H. assert (H' : (255 <= 15 * n)%Z) by lia.
      rewrite H3 in H'. lra.
Qed.

Lemma X9_hurdles_on_track_witness :
  (1 <= 20 <= 33)%Z
  /\ hurdleAt 300 ∈ Track.createHurdleColliders
  /\ Track.bottom Track.createGround (hurdleAt (15 * 20)) == Track.surface.
Proof.
  assert (Hn : (1 <= 20 <= 33)%Z) by lia.
  destruct X9_hurdles_on_track as (Hin & _ & track & _ & _ & Hpos).
  split; [exact Hn|]. split.
  - apply Hin. exists 20%Z. split; [exact Hn | reflexivity].
  - exact (proj1 (Hpos 20%Z Hn)).
Defined.

(** ** The fall detector and the ground *)

(** X10: the fall detector compares the head with a threshold that lies
    below the surface of the track.  Whatever the torso's angle (only
    [cos >= -1] is used), when [isHeadTouchingGround] answers true one of
    the two upper corners of the torso's collision box is already at
    least 0.05 below the surface: the game ends only after the torso has
    sunk into the ground collider. *)
Theorem X10_fall_needs_sunk_torso (Math_sin Math_cos : Q -> Q)
  (c : Character.t) (torso : RigidBody) :
  (forall a, -1 <= Math_cos a) ->
  Character.bodies c !! "torso" = Some torso ->
  Character.isHeadTouchingGround Math_sin Math_cos c = true ->
  worldY Math_sin Math_cos torso
         (Vec.mk (CHARACTER.PARTS.TORSO.WIDTH / 2)
                 (CHARACTER.PARTS.TORSO.HEIGHT / 2))
  <= Track.surface - 0.05
  \/ worldY Math_sin Math_cos torso
            (Vec.mk (- CHARACTER.PARTS.TORSO.WIDTH / 2)
                    (CHARACTER.PARTS.TORSO.HEIGHT / 2))
     <= Track.surface - 0.05.
Proof.
  intros Hcos Ht. unfold Character.isHeadTouchingGround. rewrite Ht.
  rewrite js_le_true. unfold Character.headPosition, worldY.
  cbn [Vec.x Vec.y]. rewrite surface_value.
  specialize (Hcos (rotation torso)).
  assert (E1 : CHARACTER.PARTS.TORSO.HEIGHT / 2 + 0.1 == 2 # 5)
    by reflexivity.
  assert (E2 : CHARACTER.PARTS.TORSO.WIDTH / 2 == 3 # 20) by reflexivity.
  assert (E3 : - CHARACTER.PARTS.TORSO.WIDTH / 2 == - (3 # 20))
    by reflexivity.
  assert (E4 : CHARACTER.PARTS.TORSO.HEIGHT / 2 == 3 # 10) by reflexivity.
  assert (E5 : GAME_OVER.HEAD_GROUND_THRESHOLD == - (24 # 5))
    by reflexivity.
  rewrite E1, E2, E3, E4, E5.
  set (y := Vec.y (translation torso)).
  set (s := Math_sin (rotation torso)).
  set (k := Math_cos (rotation torso)) in *.
  clearbody y s k. intros H.
  destruct (Qlt_le_dec s 0) as [Hs|Hs]; [left | right]; lra.
Qed.

Lemma X10_fall_needs_sunk_torso_witness :
  let upright := fun _ : Q => 1 in
  let level := fun _ : Q => 0 in
  let torso :=
    PhysicsWorld.createDynamicBody 0 (-5.1) 0.3 0.6 1.2 false None in
  let c :=
    Character.setBodies {["torso" := torso]}
      (Character.new (PhysicsWorld.init ∅) 0) in
  (forall a, -1 <= upright a)
  /\ Character.bodies c !! "torso" = Some torso
  /\ Character.isHeadTouchingGround level upright c = true
  /\ (worldY level upright torso
             (Vec.mk (CHARACTER.PARTS.TORSO.WIDTH / 2)
                     (CHARACTER.PARTS.TORSO.HEIGHT / 2))
      <= Track.surface - 0.05
      \/ worldY level upright torso
                (Vec.mk (- CHARACTER.PARTS.TORSO.WIDTH / 2)
                        (CHARACTER.PARTS.TORSO.HEIGHT / 2))
         <= Track.surface - 0.05).
Proof.
  intros upright level torso c.
  assert (H1 : forall a, -1 <= upright a) by (intros a; unfold upright; lra).
  assert (H2 : Character.bodies c !! "torso" = Some torso) by reflexivity.
  assert (H3 : Character.isHeadTouchingGround level upright c = true)
    by reflexivity.
  split_and!; [exact H1 | exact H2 | exact H3 |].
  exact (X10_fall_needs_sunk_torso level upright c torso H1 H2 H3).
Defined.

(** X11: [createPhysicsBodies] puts both feet inside the ground: each
    foot's box lies wholly between the bottom and the surface of the
    track collider, and within its length. *)
Theorem X11_feet_spawn_in_ground (c : Character.t) (name : string)
  (foot : RigidBody) :
  name = "leftFoot" \/ name = "rightFoot" ->
  Character.bodies (Character.createPhysicsBodies c) !! name = Some foot ->
  exists track rest,
    Track.colliders Track.createGround = track :: rest
    /\ Track.bottom Track.createGround track
       < Vec.y (translation foot) - CHARACTER.PARTS.FOOT.HEIGHT / 2
    /\ Vec.y (translation foot) + CHARACTER.PARTS.FOOT.HEIGHT / 2
       < Track.top Track.createGround track
    /\ Track.left Track.createGround track
       < Vec.x (translation foot) - CHARACTER.PARTS.FOOT.WIDTH / 2
    /\ Vec.x (translation foot) + CHARACTER.PARTS.FOOT.WIDTH / 2
       < Track.right Track.createGround track.
Proof.
  intros Hname Hfoot. do 2 eexists. split; [reflexivity|].
  unfold Character.createPhysicsBodies in Hfoot.
  cbn [Character.bodies Character.setBodies] in Hfoot.
  destruct Hname as [-> | ->].
  - rewrite lookup_insert_ne, lookup_insert_eq in Hfoot by done.
    injection Hfoot as <-. split_and!; reflexivity.
  - rewrite lookup_insert_eq in Hfoot.
    injection Hfoot as <-. split_and!; reflexivity.
Qed.

Lemma X11_feet_spawn_in_ground_witness :
  exists foot track rest,
    Character.bodies
      (Character.createPhysicsBodies (Character.new (PhysicsWorld.init ∅) 0))
      !! "leftFoot" = Some foot
    /\ Track.colliders Track.createGround = track :: rest
    /\ Vec.y (translation foot) + CHARACTER.PARTS.FOOT.HEIGHT / 2
       < Track.top Track.createGround track.
Proof.
  destruct (Character.bodies
              (Character.createPhysicsBodies
                 (Character.new (PhysicsWorld.init ∅) 0)) !! "leftFoot")
    as [foot|] eqn:H.
  - destruct (X11_feet_spawn_in_ground _ "leftFoot" foot
                (or_introl eq_refl) H)
      as (track & rest & E & _ & Htop & _).
    exists foot, track, rest. split_and!; [reflexivity | exact E | exact Htop].
  - exfalso. revert H. unfold Character.createPhysicsBodies.
    cbn [Character.bodies Character.setBodies].
    rewrite lookup_insert_ne, lookup_insert_eq by done. discriminate.
Defined.

(** ** The joints *)

Lemma ordered_min_max (a b : Q) : Qmin a b <= Qmax a b.
Proof. eapply Qle_trans; [apply Q.le_min_l | apply Q.le_max_l]. Qed.

Lemma createRevoluteJoint_ordered p site bodyA bodyB anchorA anchorB lim
  isKnee j :
  PhysicsWorld.createRevoluteJoint p site bodyA bodyB anchorA anchorB lim
    isKnee = Some j ->
  orderedLimits j.
Proof.
  unfold PhysicsWorld.createRevoluteJoint, orderedLimits.
  destruct bodyA, bodyB; try done. case_bool_decide; [done|].
  intros [= <-].
  destruct isKnee, (REST_ANGLE lim), (STIFFNESS lim), (DAMPING lim); simpl;
    apply ordered_min_max.
Qed.

Lemma createJoints_created c name j :
  name ∈ jointNames ->
  Character.joints (Character.createJoints c) !! name = Some j ->
  motor j = MotorNone /\ orderedLimits j.
Proof.
  unfold jointNames. rewrite !elem_of_cons, elem_of_nil.
  unfold Character.createJoints. cbv zeta.
  cbn [Character.joints Character.setJoints].
  intros [->|[->|[->|[->|[->|[->|[->|[->|[]]]]]]]]];
    rewrite ?assign_lookup_ne by done; rewrite assign_lookup_eq;
    intros Hj; (split; [|by eapply createRevoluteJoint_ordered]);
    revert Hj; unfold PhysicsWorld.createRevoluteJoint;
    repeat match goal with
           | |- context [Character.bodies c !! ?n] =>
               destruct (Character.bodies c !! n)
           end; simpl; try done;
    destruct (bool_decide _); simpl; try done; by intros [= <-].
Qed.

Lemma createJoints_other c name :
  name ∉ jointNames ->
  Character.joints (Character.createJoints c) !! name
  = Character.joints c !! name.
Proof.
  unfold jointNames. rewrite !not_elem_of_cons. intros Hn.
  unfold Character.createJoints. cbv zeta.
  cbn [Character.joints Character.setJoints].
  rewrite !assign_lookup_ne by (intros E; subst name; intuition congruence).
  reflexivity.
Qed.

(** X12: what [createJoints] leaves under each of the eight names when
    all nine links exist: a joint, unless the engine refused to create
    that one, and then [null].  A joint just created has ordered limits
    and no motor at all; this includes the knees, although they are
    created with [isKnee = true], because their limits object carries no
    rest angle, stiffness or damping. *)
Theorem X12_createJoints_outcome (c : Character.t) (name : string) :
  Forall (fun n => is_Some (Character.bodies c !! n)) bodyNames ->
  name ∈ jointNames ->
  (Character.joints (Character.createJoints c) !! name = None
   <-> name ∈ jointFaults (PhysicsWorld.world (Character.physics c)))
  /\ forall j,
       Character.joints (Character.createJoints c) !! name = Some j ->
       motor j = MotorNone /\ orderedLimits j.
Proof.
  intros Hb Hin. split; [|intros j; by apply createJoints_created].
  rewrite Forall_forall in Hb.
  assert (Hbody : forall n, n ∈ bodyNames ->
                            exists b, Character.bodies c !! n = Some b)
    by (intros n Hn; apply Hb, Hn).
  clear Hb. revert Hin.
  unfold jointNames. rewrite !elem_of_cons, elem_of_nil.
  unfold Character.createJoints. cbv zeta.
  cbn [Character.joints Character.setJoints].
  intros [->|[->|[->|[->|[->|[->|[->|[->|[]]]]]]]]];
    rewrite ?assign_lookup_ne by done; rewrite assign_lookup_eq;
    unfold PhysicsWorld.createRevoluteJoint;
    repeat match goal with
           | |- context [Character.bodies c !! ?n] =>
               let b := fresh "b" in
               let E := fresh "E" in
               destruct (Hbody n) as [b E];
                 [unfold bodyNames; repeat constructor|rewrite E; clear E]
           end;
    case_bool_decide; split; intros; try done.
Qed.

Lemma X12_createJoints_outcome_witness :
  let c :=
    Character.createPhysicsBodies
      (Character.new (PhysicsWorld.init {["leftKnee"]}) 0) in
  Forall (fun n => is_Some (Character.bodies c !! n)) bodyNames
  /\ "leftKnee" ∈ jointNames
  /\ Character.joints (Character.createJoints c) !! "leftKnee" = None.
Proof.
  intros c.
  assert (Hb : Forall (fun n => is_Some (Character.bodies c !! n)) bodyNames)
    by (repeat (apply Forall_cons; split; [vm_compute; eauto|]);
        apply Forall_nil_2).
  assert (Hin : "leftKnee" ∈ jointNames)
    by (unfold jointNames; repeat constructor).
  split; [exact Hb|]. split; [exact Hin|].
  assert (Hf : "leftKnee"
               ∈ jointFaults (PhysicsWorld.world (Character.physics c))).
  { change ("leftKnee" ∈ ({["leftKnee"]} : gset string)).
    by apply elem_of_singleton. }
  exact (proj2 (proj1 (X12_createJoints_outcome c "leftKnee" Hb Hin)) Hf).
Defined.

Lemma kept_refl js : kept js js.
Proof. intros name j' H. eauto. Qed.

Lemma kept_trans js1 js2 js3 : kept js1 js2 -> kept js2 js3 -> kept js1 js3.
Proof.
  intros H12 H23 name j3 H3.
  destruct (H23 name j3 H3) as (j2 & H2 & El & Em).
  destruct (H12 name j2 H2) as (j1 & H1 & El' & Em').
  exists j1. split_and!; [done | congruence |].
  intros Hn. rewrite Em, Em' by done. reflexivity.
Qed.

Lemma kept_alter f k js :
  (forall j, limits (f j) = limits j) ->
  k <> "leftAnkle" -> k <> "rightAnkle" ->
  kept js (alter f k js).
Proof.
  intros Hf N1 N2 name j'. destruct (decide (k = name)) as [<-|Hne].
  - rewrite lookup_alter_eq. destruct (js !! k) as [j|]; [|done].
    intros [= <-]. exists j. split_and!; [done | apply Hf |].
    intros [?|?]; congruence.
  - rewrite lookup_alter_ne by done. intros H. eauto.
Qed.

Lemma kept_insert f k js j :
  js !! k = Some j ->
  (forall j, limits (f j) = limits j) ->
  k <> "leftAnkle" -> k <> "rightAnkle" ->
  kept js (<[k := f j]> js).
Proof.
  intros E Hf N1 N2. rewrite (insert_as_alter f k js j E).
  by apply kept_alter.
Qed.

Lemma kept_hold (m : gmap string ImpulseJoint) k target stiffness damping j :
  m !! k = Some j ->
  k <> "leftAnkle" -> k <> "rightAnkle" ->
  kept m (<[k := configureMotorPosition target stiffness damping j]> m).
Proof.
  intros E N1 N2.
  by apply (kept_insert (configureMotorPosition target stiffness damping)).
Qed.

Lemma impulse_joints name v c :
  Character.joints (Character.impulse name v c) = Character.joints c.
Proof. by rewrite impulse_alter. Qed.

Lemma arm_kept c :
  kept (Character.joints c) (Character.joints (Character.applyArmBalancing c)).
Proof.
  unfold Character.applyArmBalancing.
  repeat case_match; rewrite ?impulse_joints;
    cbn [Character.joints Character.setJoints];
    try apply kept_refl.
  all: eapply kept_trans;
    [|apply kept_hold; [by rewrite lookup_insert_ne|done..]];
    apply kept_hold; [assumption|done..].
Qed.

Lemma qwop_kept h s c :
  kept (Character.joints c)
       (Character.joints (Character.applyQWOPControls h s c)).
Proof.
  rewrite qwop_joints.
  repeat (eapply kept_trans; [|apply kept_alter; [|done..]]).
  all: try apply kept_refl.
  all: intros j; by destruct (InputHandler.isKeyPressed _ _).
Qed.

Lemma applyInputForces_kept h now c :
  kept (Character.joints c)
       (Character.joints (Character.applyInputForces h now c)).
Proof.
  destruct (legJoints_dec c) as [Hl|Hl].
  - rewrite (applyInputForces_active h now c Hl). cbv zeta.
    eapply kept_trans; [|apply arm_kept].
    match goal with
    | |- kept _ (Character.joints (Character.applyQWOPControls ?h ?s ?c1)) =>
        apply (qwop_kept h s c1)
    end.
  - rewrite (applyInputForces_passive h now c Hl). apply kept_refl.
Qed.

Lemma holdPair_kept guarded first second target stiffness damping c :
  first <> "leftAnkle" -> first <> "rightAnkle" ->
  second <> "leftAnkle" -> second <> "rightAnkle" ->
  kept (Character.joints c)
       (Character.joints
          (Character.stateOf
             (Character.holdPair guarded first second target stiffness
                damping c)))
  /\ Character.bodies
       (Character.stateOf
          (Character.holdPair guarded first second target stiffness
             damping c))
     = Character.bodies c.
Proof.
  intros N1 N2 N3 N4. unfold Character.holdPair.
  destruct (Character.joints c !! first) as [j1|] eqn:H1;
    [|destruct guarded; (split; [apply kept_refl|done])].
  cbn [Character.joints Character.setJoints].
  match goal with
  | |- context [match ?m !! second with _ => _ end] =>
      destruct (m !! second) as [j2|] eqn:H2
  end; cbn [Character.stateOf Character.joints Character.setJoints
            Character.bodies]; (split; [|done]).
  - eapply kept_trans; [|apply kept_hold; [exact H2|done..]].
    apply kept_hold; [exact H1|done..].
  - apply kept_hold; [exact H1|done..].
Qed.

Lemma stabilizeJoints_kept now c :
  kept (Character.joints c)
       (Character.joints (Character.stabilizeJoints now c).1).
Proof.
  unfold Character.stabilizeJoints.
  match goal with
  | |- context [match ?r with Character.Normal _ => _ | _ => _ end] =>
      assert (Hj : kept (Character.joints c)
                        (Character.joints (Character.stateOf r)));
        [|destruct r as [c1|c1]; simpl in Hj]
  end.
  { destruct (holdPair_kept true "leftShoulder" "rightShoulder"
                CHARACTER.JOINTS.SHOULDER.REST_ANGLE
                PHYSICS.INITIAL_STIFFNESS PHYSICS.INITIAL_DAMPING c)
      as [H1 _]; [done..|].
    destruct (Character.holdPair true "leftShoulder" "rightShoulder" _ _ _ c)
      as [c1|c1]; simpl in *; [|done].
    destruct (holdPair_kept false "leftHip" "rightHip" 0
                PHYSICS.INITIAL_STIFFNESS PHYSICS.INITIAL_DAMPING c1)
      as [H2 _]; [done..|].
    destruct (Character.holdPair false "leftHip" "rightHip" _ _ _ c1)
      as [c2|c2]; simpl in *; [|by eapply kept_trans].
    destruct (holdPair_kept false "leftKnee" "rightKnee" (-0.05)
                PHYSICS.INITIAL_STIFFNESS PHYSICS.INITIAL_DAMPING c2)
      as [H3 _]; [done..|].
    eapply kept_trans; [|exact H3]. by eapply kept_trans. }
  - simpl. rewrite impulse_joints. simpl.
    destruct (_ !! "torso"); simpl; apply Hj.
  - simpl. apply Hj.
Qed.

Lemma fire_joints a now c :
  Character.joints (Character.fire a now c).1 = Character.joints c.
Proof.
  destruct a; simpl; try done. by destruct (Character.bodies c !! "torso").
Qed.

Lemma reset_kept now c :
  kept (Character.joints (Character.createJoints
          (Character.setBodies
             (Character.zeroVelocity
                <$> Character.bodies (Character.createPhysicsBodies c))
             (Character.createPhysicsBodies c))))
       (Character.joints (Character.reset now c).1).
Proof. apply stabilizeJoints_kept. Qed.

Lemma sound_kept c c' :
  kept (Character.joints c) (Character.joints c') -> sound c -> sound c'.
Proof.
  intros Hk [Ho Ha]. split.
  - intros name j' Hj'. destruct (Hk name j' Hj') as (j & Hj & El & _).
    destruct (Ho name j Hj) as [Hin Hord]. split; [done|].
    unfold orderedLimits in *. by rewrite El.
  - intros name j' Hn Hj'. destruct (Hk name j' Hj') as (j & Hj & _ & Em).
    rewrite Em by done. by eapply Ha.
Qed.

Lemma createJoints_sound c :
  (forall name, name ∉ jointNames -> Character.joints c !! name = None) ->
  sound (Character.createJoints c).
Proof.
  intros Hc. split.
  - intros name j Hj. destruct (decide (name ∈ jointNames)) as [Hin|Hout].
    + split; [done|]. by eapply createJoints_created.
    + rewrite createJoints_other, Hc in Hj by done. done.
  - intros name j Hn Hj. eapply createJoints_created; [|exact Hj].
    unfold jointNames. destruct Hn as [-> | ->]; repeat constructor.
Qed.

Lemma sound_outside c name :
  sound c -> name ∉ jointNames -> Character.joints c !! name = None.
Proof.
  intros [Ho _] Hn. destruct (Character.joints c !! name) as [j|] eqn:E;
    [|done]. destruct (Ho name j E) as [Hin _]. done.
Qed.

Lemma reset_sound now c : sound c -> sound (Character.reset now c).1.
Proof.
  intros Hs. eapply sound_kept; [apply reset_kept|].
  apply createJoints_sound. intros name Hn. simpl.
  by apply sound_outside.
Qed.

Lemma init_sound now p : sound (Character.init now (Character.new p now)).1.
Proof.
  unfold Character.init. eapply sound_kept; [apply stabilizeJoints_kept|].
  apply createJoints_sound. intros name Hn. simpl. apply lookup_empty.
Qed.

Lemma run_preserves (P : Character.t -> Prop) Math_sin Math_cos solve :
  (forall now c, P c -> P (Character.reset now c).1) ->
  (forall h now c, P c -> P (Character.applyInputForces h now c)) ->
  (forall bs c, P c -> P (Character.setBodies bs c)) ->
  forall events r r',
    P (Game.character (EventLoop.game r)) ->
    EventLoop.run Math_sin Math_cos solve events r = Some r' ->
    P (Game.character (EventLoop.game r')).
Proof.
  intros Hreset Hforces Hbodies events.
  induction events as [|e rest IH]; intros r r' HP Hrun; simpl in Hrun.
  - injection Hrun as <-. exact HP.
  - destruct (EventLoop.handle Math_sin Math_cos solve e r) as [r1|] eqn:He;
      [|done].
    apply (IH r1 r'); [|exact Hrun]. clear IH Hrun.
    destruct e as [now|now|code|code|now]; simpl in He.
    + unfold Game.start in He.
      pose proof (Hreset now _ HP) as H1.
      destruct (Character.reset now (Game.character (EventLoop.game r)))
        as [c timers].
      injection He as <-. exact H1.
    + unfold Game.update in He.
      destruct (negb _); [injection He as <-; exact HP|].
      pose proof (Hbodies
                    (PhysicsWorld.step (Game.physics (EventLoop.game r)) solve
                       (Character.bodies
                          (Character.applyInputForces
                             (Game.input (EventLoop.game r)) now
                             (Game.character (EventLoop.game r))))
                       (Character.joints
                          (Character.applyInputForces
                             (Game.input (EventLoop.game r)) now
                             (Game.character (EventLoop.game r)))))
                    _ (Hforces (Game.input (EventLoop.game r)) now _ HP))
        as H1.
      destruct (Game.checkGameOver _ _ _); [injection He as <-; exact H1|].
      destruct (Character.getPosition _); [|done].
      destruct (js_gt _ _); injection He as <-; exact H1.
    + injection He as <-. exact HP.
    + injection He as <-. exact HP.
    + destruct (EventLoop.pickDue now (EventLoop.pending r))
        as [[tm others]|]; [|injection He as <-; exact HP].
      assert (H1 : P (Character.fire (action tm) now
                        (Game.character (EventLoop.game r))).1).
      { destruct (action tm); simpl; try by apply Hbodies.
        destruct (Character.bodies _ !! "torso"); [by apply Hbodies|done]. }
      destruct (Character.fire (action tm) now
                  (Game.character (EventLoop.game r))) as [c timers].
      injection He as <-. exact H1.
Qed.

Lemma run_sound Math_sin Math_cos solve faults t events r :
  EventLoop.run Math_sin Math_cos solve events (EventLoop.boot faults t)
  = Some r ->
  sound (Game.character (EventLoop.game r)).
Proof.
  apply (run_preserves sound).
  - intros now c. apply reset_sound.
  - intros h now c. apply sound_kept, applyInputForces_kept.
  - intros bs c. apply sound_kept, kept_refl.
  - unfold EventLoop.boot, Game.init.
    pose proof (init_sound t (PhysicsWorld.init faults)) as H.
    destruct (Character.init t (Character.new (PhysicsWorld.init faults) t))
      as [c timers]. exact H.
Qed.

Lemma run_from_boot Math_sin Math_cos solve faults t events :
  is_Some (EventLoop.run Math_sin Math_cos solve events
             (EventLoop.boot faults t)).
Proof. apply run_total, boot_torso. Qed.

(** X13: along any run of the game, from page load on and whatever the
    engine computes, the character holds joints under the eight names of
    the skeleton only, and each joint it holds has its limits enabled and
    in order: controls, stabilization and reset replace motors, never
    limits. *)
Theorem X13_joints_stay_in_order (Math_sin Math_cos : Q -> Q)
  (solve : gmap string RigidBody -> gmap string ImpulseJoint ->
           gmap string RigidBody)
  (faults : gset string) (t : Q) (events : list EventLoop.Event)
  (r : EventLoop.Runtime) :
  EventLoop.run Math_sin Math_cos solve events (EventLoop.boot faults t)
  = Some r ->
  jointsInOrder (Game.character (EventLoop.game r)).
Proof. intros Hrun. by destruct (run_sound _ _ _ _ _ _ _ Hrun). Qed.

Lemma X13_joints_stay_in_order_witness :
  exists r,
    EventLoop.run sinTaylor cosTaylor still
      [EventLoop.Start 0; EventLoop.KeyDown KEYS.Q; EventLoop.Update 100]
      (EventLoop.boot ∅ 0) = Some r
    /\ jointsInOrder (Game.character (EventLoop.game r)).
Proof.
  destruct (run_from_boot sinTaylor cosTaylor still ∅ 0
              [EventLoop.Start 0; EventLoop.KeyDown KEYS.Q;
               EventLoop.Update 100]) as [r Hr].
  exists r. split; [exact Hr|].
  exact (X13_joints_stay_in_order _ _ _ _ _ _ _ Hr).
Defined.

(** X14: no code path ever drives an ankle.  Along any run each ankle is
    either missing or has no motor: it is created without one, and
    neither the stabilization nor the controls configure it. *)
Theorem X14_ankles_never_driven (Math_sin Math_cos : Q -> Q)
  (solve : gmap string RigidBody -> gmap string ImpulseJoint ->
           gmap string RigidBody)
  (faults : gset string) (t : Q) (events : list EventLoop.Event)
  (r : EventLoop.Runtime) (name : string) :
  EventLoop.run Math_sin Math_cos solve events (EventLoop.boot faults t)
  = Some r ->
  name = "leftAnkle" \/ name = "rightAnkle" ->
  motorOf name (Game.character (EventLoop.game r)) = None
  \/ motorOf name (Game.character (EventLoop.game r)) = Some MotorNone.
Proof.
  intros Hrun Hname. destruct (run_sound _ _ _ _ _ _ _ Hrun) as [_ Ha].
  unfold motorOf.
  destruct (Character.joints (Game.character (EventLoop.game r)) !! name)
    as [j|] eqn:E; [right|by left].
  simpl. f_equal. by eapply Ha.
Qed.

Lemma X14_ankles_never_driven_witness :
  exists r,
    EventLoop.run sinTaylor cosTaylor still
      [EventLoop.Start 0; EventLoop.KeyDown KEYS.O; EventLoop.Update 100]
      (EventLoop.boot ∅ 0) = Some r
    /\ (motorOf "leftAnkle" (Game.character (EventLoop.game r)) = None
        \/ motorOf "leftAnkle" (Game.character (EventLoop.game r))
           = Some MotorNone).
Proof.
  destruct (run_from_boot sinTaylor cosTaylor still ∅ 0
              [EventLoop.Start 0; EventLoop.KeyDown KEYS.O;
               EventLoop.Update 100]) as [r Hr].
  exists r. split; [exact Hr|].
  exact (X14_ankles_never_driven _ _ _ _ _ _ _ "leftAnkle" Hr
           (or_introl eq_refl)).
Defined.

(** ** The stabilization *)

Lemma holdPair_outcome guarded first second target stiffness damping c :
  first <> second ->
  match Character.holdPair guarded first second target stiffness damping c with
  | Character.Normal c1 =>
      (is_Some (Character.joints c !! first)
       /\ is_Some (Character.joints c !! second)
       \/ guarded = true /\ Character.joints c !! first = None)
      /\ Character.bodies c1 = Character.bodies c
      /\ forall name, name <> first -> name <> second ->
                      Character.joints c1 !! name = Character.joints c !! name
  | Character.Thrown c1 =>
      (is_Some (Character.joints c !! first)
       /\ Character.joints c !! second = None
       \/ guarded = false /\ Character.joints c !! first = None)
      /\ Character.bodies c1 = Character.bodies c
  end.
Proof.
  intros Hne. unfold Character.holdPair.
  destruct (Character.joints c !! first) as [j1|] eqn:H1.
  - cbn [Character.joints Character.setJoints].
    rewrite lookup_insert_ne by done.
    destruct (Character.joints c !! second) as [j2|] eqn:H2.
    + split_and!; [left; eauto | done |].
      intros name N1 N2. cbn [Character.joints Character.setJoints].
      by rewrite !lookup_insert_ne.
    + split; [left; eauto | done].
  - destruct guarded.
    + split_and!; [right; eauto | done | done].
    + split; [right; eauto | done].
Qed.

Lemma stabilizeJoints_motors c :
  let motors :=
    Character.andThen (Character.andThen
      (Character.holdPair true "leftShoulder" "rightShoulder"
         CHARACTER.JOINTS.SHOULDER.REST_ANGLE PHYSICS.INITIAL_STIFFNESS
         PHYSICS.INITIAL_DAMPING c)
      (Character.holdPair false "leftHip" "rightHip" 0
         PHYSICS.INITIAL_STIFFNESS PHYSICS.INITIAL_DAMPING))
      (Character.holdPair false "leftKnee" "rightKnee" (-0.05)
         PHYSICS.INITIAL_STIFFNESS PHYSICS.INITIAL_DAMPING) in
  Character.bodies (Character.stateOf motors) = Character.bodies c
  /\ (canStabilize c <-> exists c1, motors = Character.Normal c1).
Proof.
  cbv zeta. unfold canStabilize, legJoints.
  rewrite !Forall_cons, Forall_nil.
  pose proof (holdPair_outcome true "leftShoulder" "rightShoulder"
                CHARACTER.JOINTS.SHOULDER.REST_ANGLE PHYSICS.INITIAL_STIFFNESS
                PHYSICS.INITIAL_DAMPING c ltac:(done)) as H1.
  destruct (Character.holdPair true "leftShoulder" "rightShoulder" _ _ _ c)
    as [c1|c1]; cbn [Character.andThen Character.stateOf].
  - destruct H1 as (Hs & Hb1 & Hj1).
    pose proof (holdPair_outcome false "leftHip" "rightHip" 0
                  PHYSICS.INITIAL_STIFFNESS PHYSICS.INITIAL_DAMPING c1
                  ltac:(done)) as H2.
    rewrite !Hj1 in H2 by done.
    destruct (Character.holdPair false "leftHip" "rightHip" _ _ _ c1)
      as [c2|c2]; cbn [Character.andThen Character.stateOf].
    + destruct H2 as (Hh & Hb2 & Hj2).
      pose proof (holdPair_outcome false "leftKnee" "rightKnee" (-0.05)
                    PHYSICS.INITIAL_STIFFNESS PHYSICS.INITIAL_DAMPING c2
                    ltac:(done)) as H3.
      rewrite !Hj2, !Hj1 in H3 by done.
      destruct (Character.holdPair false "leftKnee" "rightKnee" _ _ _ c2)
        as [c3|c3]; cbn [Character.stateOf].
      * destruct H3 as (Hk & Hb3 & _). split; [congruence|].
        split; [eauto|]. intros _.
        destruct Hh as [[? ?]|[? _]]; [|done].
        destruct Hk as [[? ?]|[? _]]; [|done].
        split; [done|]. intros Hl.
        destruct Hs as [[_ ?]|[_ E]]; [done|].
        rewrite E in Hl. by destruct Hl.
      * destruct H3 as (Hk & Hb3). split; [congruence|].
        split; [|intros [? [=]]]. intros [(_ & _ & Hlk & Hrk & _) _].
        destruct Hk as [[_ E]|[_ E]]; rewrite E in *;
          [by destruct Hrk | by destruct Hlk].
    + destruct H2 as (Hh & Hb2). split; [congruence|].
      split; [|intros [? [=]]]. intros [(Hlh & Hrh & _) _].
      destruct Hh as [[_ E]|[_ E]]; rewrite E in *;
        [by destruct Hrh | by destruct Hlh].
  - destruct H1 as (Hs & Hb1). split; [done|].
    split; [|intros [? [=]]]. intros [_ Himp].
    destruct Hs as [[Hl E]|[? _]]; [|done].
    rewrite E in Himp. by destruct (Himp Hl).
Qed.

(** X15: [stabilizeJoints] is all or nothing about damping.  It finishes
    exactly when the two hips and the two knees exist and the right
    shoulder is not missing beside a left one (a missing left shoulder is
    skipped silently, a missing right one throws).  When it finishes it
    schedules the damping relaxation and raises the damping of every
    link.  Otherwise the error is swallowed: no timer is scheduled, and no
    link is touched: neither damping nor the upward torso impulse is
    applied. *)
Theorem X15_stabilization_all_or_nothing (now : Q) (c : Character.t) :
  (canStabilize c ->
   (Character.stabilizeJoints now c).2 = [mkTimer (now + 500) RelaxDamping]
   /\ forall name b,
        Character.bodies c !! name = Some b ->
        exists b',
          Character.bodies (Character.stabilizeJoints now c).1 !! name
          = Some b'
          /\ linearDamping b' = (if decide (name = "torso") then 1.0 else 0.8)
          /\ angularDamping b'
             = (if decide (name = "torso") then 1.0 else 0.8))
  /\ (~ canStabilize c ->
      (Character.stabilizeJoints now c).2 = []
      /\ Character.bodies (Character.stabilizeJoints now c).1
         = Character.bodies c).
Proof.
  pose proof (stabilizeJoints_motors c) as [Hb Hiff].
  unfold Character.stabilizeJoints.
  destruct (Character.andThen _ _) as [c1|c1]; simpl in Hb; split.
  - intros _. split; [done|]. intros name b Hname.
    cbn [fst]. rewrite impulse_alter.
    cbn [Character.bodies Character.setBodies].
    destruct (decide (name = "torso")) as [->|Hn].
    + rewrite lookup_alter_eq, lookup_fmap, Hb, Hname. simpl.
      rewrite lookup_insert_eq. simpl. eauto.
    + rewrite lookup_alter_ne by done.
      rewrite lookup_fmap, Hb.
      destruct (Character.bodies c !! "torso") as [torso|]; simpl.
      * rewrite lookup_insert_ne by done.
        rewrite lookup_fmap, Hname. simpl. eauto.
      * rewrite lookup_fmap, Hname. simpl. eauto.
  - intros Hn. destruct Hn. apply Hiff. eauto.
  - intros Hc. apply Hiff in Hc as [? [=]].
  - intros _. done.
Qed.

Lemma X15_stabilization_all_or_nothing_witness :
  let c :=
    Character.createJoints
      (Character.createPhysicsBodies
         (Character.new (PhysicsWorld.init {["rightShoulder"]}) 0)) in
  ~ canStabilize c
  /\ (Character.stabilizeJoints 0 c).2 = []
  /\ Character.bodies (Character.stabilizeJoints 0 c).1 = Character.bodies c.
Proof.
  intros c.
  assert (Hn : ~ canStabilize c).
  { intros [_ H].
    assert (Hl : is_Some (Character.joints c !! "leftShoulder"))
      by (vm_compute; eauto).
    destruct (H Hl) as [j Hj]. vm_compute in Hj. discriminate. }
  split; [exact Hn|].
  exact (proj2 (X15_stabilization_all_or_nothing 0 c) Hn).
Defined.

(** ** The impulse gate *)

Lemma inOrder_weaken a b times : a <= b -> inOrder b times -> inOrder a times.
Proof.
  destruct times as [|now later]; [done|]. simpl. intros Hab [Hb Hl].
  split; [by eapply Qle_trans|done].
Qed.

(** X16: with a clock that does not run backwards, the impulse timer
    stays inside its period.  From a timer in [0, interval), after any
    number of fixed steps at instants in order the timer is again in
    [0, interval), and the period itself is never changed. *)
Theorem X16_gate_timer_bounded
  (solve : gmap string RigidBody -> gmap string ImpulseJoint ->
           gmap string RigidBody)
  (p : PhysicsWorld.t) (h : InputHandler.t) (times : list Q)
  (c : Character.t) :
  0 <= Character.impulseTimer c < Character.impulseInterval c ->
  inOrder (Character.lastTimestamp c) times ->
  let c' := ticks solve p h times c in
  0 <= Character.impulseTimer c' < Character.impulseInterval c'
  /\ Character.impulseInterval c' = Character.impulseInterval c.
Proof.
  revert c. induction times as [|now later IH]; intros c Hc Ho; [done|].
  simpl in Ho. destruct Ho as [Hnow Hlater].
  change (ticks solve p h (now :: later) c)
    with (ticks solve p h later (tick solve p h now c)).
  destruct (legJoints_dec c) as [Hl|Hl].
  - destruct (tick_gate solve p h now c Hl) as (Et & Ei & El).
    destruct (IH (tick solve p h now c)) as [H1 H2].
    + rewrite Et, Ei.
      destruct (js_ge _ _) eqn:Eg; [lra|].
      apply js_ge_false in Eg. lra.
    + by rewrite El.
    + cbv zeta. rewrite H2, Ei in *. done.
  - assert (E : tick solve p h now c
                = Game.stepPhysics solve p c)
      by (unfold tick; by rewrite (applyInputForces_passive h now c Hl)).
    destruct (IH (tick solve p h now c)) as [H1 H2].
    + rewrite E. exact Hc.
    + rewrite E. simpl. by eapply inOrder_weaken.
    + cbv zeta. rewrite H2 in *. rewrite E in *. done.
Qed.

Lemma X16_gate_timer_bounded_witness :
  let c := Game.character (EventLoop.game started) in
  0 <= Character.impulseTimer c < Character.impulseInterval c
  /\ inOrder (Character.lastTimestamp c) [2016; 2033; 2120]
  /\ 0 <= Character.impulseTimer
            (ticks still (PhysicsWorld.init ∅) holdingQ [2016; 2033; 2120] c)
  /\ Character.impulseTimer
       (ticks still (PhysicsWorld.init ∅) holdingQ [2016; 2033; 2120] c)
     < 80.
Proof.
  intros c.
  assert (H1 : 0 <= Character.impulseTimer c < Character.impulseInterval c)
    by (vm_compute; split; congruence).
  assert (H2 : inOrder (Character.lastTimestamp c) [2016; 2033; 2120])
    by (vm_compute; repeat split; congruence).
  destruct (X16_gate_timer_bounded still (PhysicsWorld.init ∅) holdingQ
              [2016; 2033; 2120] c H1 H2) as [[Hlo Hhi] Hi].
  split_and!; [exact (proj1 H1) | exact (proj2 H1) | exact H2 | exact Hlo |].
  rewrite Hi in Hhi. exact Hhi.
Defined.

(** ** src/input.js *)

Lemma Tracked_new : Tracked InputHandler.new.
Proof.
  intros code. unfold InputHandler.new, trackedKeys. simpl.
  rewrite !lookup_insert_is_Some, !elem_of_cons, elem_of_nil.
  rewrite lookup_empty.
  unfold KEYS.Q, KEYS.W, KEYS.O, KEYS.P, KEYS.SPACE, KEYS.ESC. split.
  - intros H.
    repeat (destruct H as [E|[_ H]]; [subst code; auto 10|]).
    by destruct H.
  - intros H.
    repeat (destruct H as [E|H];
            [subst code;
             repeat first [left; reflexivity | right; split; [done|]]|]).
    done.
Qed.

Lemma Tracked_insert h code v :
  Tracked h -> code ∈ trackedKeys ->
  Tracked (InputHandler.mk (<[code := v]> (InputHandler.keyState h))).
Proof.
  intros Ht Hin k. simpl. rewrite lookup_insert_is_Some. split.
  - intros [<-|[_ H]]; [done|by apply Ht].
  - intros H. destruct (decide (code = k)); [by left|].
    right. split; [done|by apply Ht].
Qed.

(** X17: the key table.  On a table that holds exactly the six tracked
    keys (as the constructor builds it), and for codes that are not the
    name of an inherited property: every operation keeps it so; a
    tracked key reads pressed after its [keydown] and released after its
    [keyup]; an event for any other code changes nothing, and such a code
    never reads pressed; an event never changes how another key reads;
    after [reset] no key reads pressed. *)
Theorem X17_key_table (h : InputHandler.t) (code key : string) :
  Tracked h -> code ∉ inherited -> key ∉ inherited ->
  (Tracked (InputHandler.keydown code h)
   /\ Tracked (InputHandler.keyup code h)
   /\ Tracked (InputHandler.reset h))
  /\ (code ∈ trackedKeys ->
      InputHandler.isKeyPressed (InputHandler.keydown code h) code = true
      /\ InputHandler.isKeyPressed (InputHandler.keyup code h) code = false)
  /\ (code ∉ trackedKeys ->
      InputHandler.keydown code h = h /\ InputHandler.keyup code h = h
      /\ InputHandler.isKeyPressed h code = false)
  /\ (key <> code ->
      InputHandler.isKeyPressed (InputHandler.keydown code h) key
      = InputHandler.isKeyPressed h key
      /\ InputHandler.isKeyPressed (InputHandler.keyup code h) key
         = InputHandler.isKeyPressed h key)
  /\ InputHandler.isKeyPressed (InputHandler.reset h) key = false.
Proof.
  intros Ht _ _. unfold InputHandler.keydown, InputHandler.keyup.
  destruct (InputHandler.keyState h !! code) as [v|] eqn:E.
  - assert (Hin : code ∈ trackedKeys) by (apply Ht; eauto).
    split_and!; try (by apply Tracked_insert).
    + intros k. unfold InputHandler.reset. simpl.
      rewrite lookup_fmap, fmap_is_Some. apply Ht.
    + intros _. unfold InputHandler.isKeyPressed. simpl.
      by rewrite !lookup_insert_eq.
    + intros Hout. done.
    + intros Hne. unfold InputHandler.isKeyPressed. simpl.
      by rewrite !lookup_insert_ne.
    + unfold InputHandler.isKeyPressed, InputHandler.reset. simpl.
      rewrite lookup_fmap. by destruct (InputHandler.keyState h !! key).
  - assert (Hout : code ∉ trackedKeys).
    { intros Hin. apply Ht in Hin. rewrite E in Hin. by destruct Hin. }
    split_and!; try done.
    + intros k. unfold InputHandler.reset. simpl.
      rewrite lookup_fmap, fmap_is_Some. apply Ht.
    + intros _. split_and!; try done.
      unfold InputHandler.isKeyPressed. by rewrite E.
    + unfold InputHandler.isKeyPressed, InputHandler.reset. simpl.
      rewrite lookup_fmap. by destruct (InputHandler.keyState h !! key).
Qed.

Lemma X17_key_table_witness :
  Tracked InputHandler.new
  /\ (KEYS.Q ∉ inherited) /\ ("KeyA" ∉ inherited) /\ (KEYS.W ∉ inherited)
  /\ InputHandler.isKeyPressed
       (InputHandler.keydown KEYS.Q InputHandler.new) KEYS.Q = true
  /\ InputHandler.keydown "KeyA" InputHandler.new = InputHandler.new.
Proof.
  assert (Hq : KEYS.Q ∉ inherited)
    by (unfold inherited; rewrite !not_elem_of_cons; split_and!; try done;
        apply not_elem_of_nil).
  assert (Ha : "KeyA" ∉ inherited)
    by (unfold inherited; rewrite !not_elem_of_cons; split_and!; try done;
        apply not_elem_of_nil).
  assert (Hw : KEYS.W ∉ inherited)
    by (unfold inherited; rewrite !not_elem_of_cons; split_and!; try done;
        apply not_elem_of_nil).
  split; [exact Tracked_new|]. split; [exact Hq|]. split; [exact Ha|].
  split; [exact Hw|].
  destruct (X17_key_table InputHandler.new KEYS.Q KEYS.W Tracked_new Hq Hw)
    as (_ & Hdown & _).
  destruct (X17_key_table InputHandler.new "KeyA" KEYS.W Tracked_new Ha Hw)
    as (_ & _ & Hother & _).
  split.
  - apply Hdown. unfold trackedKeys. repeat constructor.
  - apply Hother. unfold trackedKeys, KEYS.Q, KEYS.W, KEYS.O, KEYS.P,
      KEYS.SPACE, KEYS.ESC. rewrite !not_elem_of_cons. split_and!; try done.
    apply not_elem_of_nil.
Defined.

(** ** Between runs *)

Lemma parked_refl g : parked g g.
Proof. unfold parked. split_and!; done. Qed.

Lemma parked_trans g1 g2 g3 : parked g1 g2 -> parked g2 g3 -> parked g1 g3.
Proof.
  unfold parked. intros (A1 & A2 & A3 & A4 & A5 & A6 & A7)
                        (B1 & B2 & B3 & B4 & B5 & B6 & B7).
  split_and!; first [congruence | intros name; by rewrite B7, A7].
Qed.

Lemma fire_gate a now c :
  Character.impulseTimer (Character.fire a now c).1 = Character.impulseTimer c
  /\ Character.lastTimestamp (Character.fire a now c).1
     = Character.lastTimestamp c.
Proof.
  destruct a; simpl; try done. by destruct (Character.bodies c !! "torso").
Qed.

Lemma handle_parked Math_sin Math_cos solve e r :
  Game.gameState (EventLoop.game r) <> GAME_STATES.PLAYING ->
  isStart e = false ->
  exists r',
    EventLoop.handle Math_sin Math_cos solve e r = Some r'
    /\ parked (EventLoop.game r) (EventLoop.game r').
Proof.
  intros Hs He. destruct e as [now|now|code|code|now]; simpl; [done|..].
  - unfold Game.update.
    assert (E : GAME_STATES.eqb (Game.gameState (EventLoop.game r))
                  GAME_STATES.PLAYING = false)
      by (by destruct (Game.gameState (EventLoop.game r))).
    rewrite E. simpl. eexists. split; [done|]. apply parked_refl.
  - eexists. split; [done|]. unfold parked. simpl. split_and!; done.
  - eexists. split; [done|]. unfold parked. simpl. split_and!; done.
  - destruct (EventLoop.pickDue now (EventLoop.pending r))
      as [[tm others]|]; [|eexists; split; [done|apply parked_refl]].
    pose proof (fire_joints (action tm) now
                  (Game.character (EventLoop.game r))) as Hj.
    pose proof (fire_gate (action tm) now
                  (Game.character (EventLoop.game r))) as [Ht Hl].
    pose proof (fire_bodies (action tm) now
                  (Game.character (EventLoop.game r))) as Hb.
    destruct (Character.fire (action tm) now
                (Game.character (EventLoop.game r))) as [c timers].
    simpl in *. eexists. split; [done|]. unfold parked. simpl.
    split_and!; try done. intros name. rewrite Hb.
    destruct (Character.bodies (Game.character (EventLoop.game r)) !! name);
      [|done].
    simpl. destruct (action tm); try done. by case_decide.
Qed.

(** X18: outside a run nothing moves.  From a game that is not in the
    PLAYING state, any sequence of updates, key events and timer tasks
    (everything but the start button) runs without error and leaves the
    state, the recorded distance, the displays, every joint, the impulse
    gate and the position and angle of every link as they were; only
    damping and velocity can still be changed, by timers. *)
Theorem X18_parked_until_start (Math_sin Math_cos : Q -> Q)
  (solve : gmap string RigidBody -> gmap string ImpulseJoint ->
           gmap string RigidBody)
  (events : list EventLoop.Event) (r : EventLoop.Runtime) :
  Game.gameState (EventLoop.game r) <> GAME_STATES.PLAYING ->
  Forall (fun e => isStart e = false) events ->
  exists r',
    EventLoop.run Math_sin Math_cos solve events r = Some r'
    /\ parked (EventLoop.game r) (EventLoop.game r').
Proof.
  revert r. induction events as [|e rest IH]; intros r Hs Hev.
  - exists r. split; [done|apply parked_refl].
  - apply Forall_cons in Hev as [He Hrest].
    destruct (handle_parked Math_sin Math_cos solve e r Hs He)
      as (r1 & H1 & P1).
    destruct (IH r1) as (r' & Hr' & P'); [|done|].
    { destruct P1 as [E _]. by rewrite E. }
    exists r'. simpl. rewrite H1. split; [done|by eapply parked_trans].
Qed.

Lemma X18_parked_until_start_witness :
  Game.gameState (EventLoop.game loaded) <> GAME_STATES.PLAYING
  /\ exists r',
       EventLoop.run sinTaylor cosTaylor drift
         [EventLoop.KeyDown KEYS.Q; EventLoop.Update 16;
          EventLoop.Timeout 600; EventLoop.Update 700] loaded = Some r'
       /\ parked (EventLoop.game loaded) (EventLoop.game r').
Proof.
  assert (H : Game.gameState (EventLoop.game loaded) <> GAME_STATES.PLAYING)
    by (vm_compute; congruence).
  split; [exact H|].
  apply (X18_parked_until_start sinTaylor cosTaylor drift _ loaded H).
  repeat (apply Forall_cons; split; [reflexivity|]). apply Forall_nil_2.
Defined.

(** ** The game loop *)






(** ** The colours of src/ui.js *)

(** X20: the colour of the running score is sticky.  Below 25 m
    [updateScore] leaves the colour as it is, so the colour of an earlier
    run stays on the display; from 25 m on it is the colour of the medal
    that [showGameOver] gives for the same number, and the medal is white
    exactly below 25 m. *)
Theorem X20_score_colour (distance : Q) (color : string) :
  (distance < 25 -> UIStyle.updateScoreColor distance color = color)
  /\ (25 <= distance ->
      UIStyle.updateScoreColor distance color = UIStyle.medalColor distance)
  /\ (UIStyle.medalColor distance = "white" <-> distance < 25).
Proof.
  unfold UIStyle.updateScoreColor, UIStyle.medalColor.
  destruct (js_ge distance 100) eqn:E1; [apply js_ge_true in E1|
    apply js_ge_false in E1;
    destruct (js_ge distance 50) eqn:E2; [apply js_ge_true in E2|
      apply js_ge_false in E2;
      destruct (js_ge distance 25) eqn:E3;
        [apply js_ge_true in E3|apply js_ge_false in E3]]].
  all: split_and!; try done; try (intros; exfalso; lra).
  all: split; try done; intros; exfalso; lra.
Qed.

Lemma X20_score_colour_witness :
  3 < 25 /\ UIStyle.updateScoreColor 3 "#FFD700" = "#FFD700".
Proof.
  assert (H : 3 < 25) by reflexivity.
  split; [exact H|].
  exact (proj1 (X20_score_colour 3 "#FFD700") H).
Defined.

(** X21: a final score can read as a medal distance and earn no medal.
    The text of the final score is rounded to the nearest tenth, the medal
    is chosen from the number itself: a run that ends within five
    hundredths below 25, 50 or 100 m shows that round distance and gets
    the medal (or none) of the tier below. *)
Theorem X21_rounded_score_misses_medal (finalScore tier : Q) :
  tier = 25 \/ tier = 50 \/ tier = 100 ->
  tier - 0.05 <= finalScore < tier ->
  toFixed1 finalScore == tier
  /\ UIStyle.medalColor finalScore <> UIStyle.medalColor tier.
Proof.
  intros Htier [Hlo Hhi]. split.
  - unfold toFixed1.
    assert (Hh : 1 / 2 == 1 # 2) by reflexivity.
    set (half := 1 / 2) in *. clearbody half.
    assert (E : exists n : Z, tier == inject_Z n / 10
                              /\ inject_Z (n + 1) == inject_Z n + 1).
    { destruct Htier as [-> | [-> | ->]];
        [exists 250%Z | exists 500%Z | exists 1000%Z]; split; reflexivity. }
    destruct E as (n & En & Hup).
    assert (Hn : inject_Z n == tier * 10) by (rewrite En; field).
    assert (Ef : Qfloor (finalScore * 10 + half) = n).
    { apply floor_unique; rewrite ?Hup, Hn; lra. }
    rewrite Ef, En. reflexivity.
  - unfold UIStyle.medalColor.
    destruct Htier as [-> | [-> | ->]].
    + assert (E1 : js_ge finalScore 100 = false) by (apply js_ge_false; lra).
      assert (E2 : js_ge finalScore 50 = false) by (apply js_ge_false; lra).
      assert (E3 : js_ge finalScore 25 = false) by (apply js_ge_false; lra).
      rewrite E1, E2, E3. done.
    + assert (E1 : js_ge finalScore 100 = false) by (apply js_ge_false; lra).
      assert (E2 : js_ge finalScore 50 = false) by (apply js_ge_false; lra).
      rewrite E1, E2. destruct (js_ge finalScore 25); done.
    + assert (E1 : js_ge finalScore 100 = false) by (apply js_ge_false; lra).
      rewrite E1. destruct (js_ge finalScore 50), (js_ge finalScore 25); done.
Qed.

Lemma X21_rounded_score_misses_medal_witness :
  24.95 - 0.05 <= 24.96 /\ 25 - 0.05 <= 24.96 < 25
  /\ toFixed1 24.96 == 25
  /\ UIStyle.medalColor 24.96 = "white".
Proof.
  assert (H : 25 - 0.05 <= 24.96 < 25) by (split; vm_compute; congruence).
  destruct (X21_rounded_score_misses_medal 24.96 25 (or_introl eq_refl) H)
    as [E _].
  split_and!; [vm_compute; congruence | apply H | apply H | exact E
              | reflexivity].
Defined.

(** ** The gyro controller *)

Lemma clamp_unit (x : Q) : -1 <= Qmax (-1) (Qmin 1 x) <= 1.
Proof.
  split; [apply Q.le_max_l|].
  apply Q.max_lub; [lra | apply Q.le_min_l].
Qed.

Lemma clamp_sign (x : Q) :
  (0 <= x -> 0 <= Qmax (-1) (Qmin 1 x))
  /\ (x <= 0 -> Qmax (-1) (Qmin 1 x) <= 0).
Proof.
  split; intros H.
  - eapply Qle_trans; [|apply Q.le_max_r]. apply Q.min_glb; lra.
  - apply Q.max_lub; [lra|]. eapply Qle_trans; [apply Q.le_min_r|done].
Qed.

(** A factor in [-1, 1] times a rounded number that is not negative stays
    within that number, also after rounding. *)
Lemma scaled_within (p r : Q) :
  -1 <= p <= 1 -> 0 <= r ->
  - Double.round r <= Double.mul p (Double.round r) <= Double.round r.
Proof.
  intros Hp Hr. pose proof (round_nonneg r Hr) as H0.
  pose proof (round_idem r) as Hi. pose proof (round_opp (Double.round r)) as Ho.
  unfold Double.mul. set (q := Double.round r) in *.
  pose proof (round_mono (- q) (p * q) ltac:(clearbody q; nra)) as H1.
  pose proof (round_mono (p * q) q ltac:(clearbody q; nra)) as H2.
  set (a := Double.round (p * q)) in *. set (b := Double.round q) in *.
  set (c := Double.round (- q)) in *. clearbody a b c q. lra.
Qed.

Lemma sum_within (base diff r d : Q) :
  - r <= base <= r -> - d <= diff <= d ->
  (- Double.add r d <= Double.add base diff <= Double.add r d)
  /\ (- Double.add r d <= Double.sub base diff <= Double.add r d).
Proof.
  intros Hb Hd. unfold Double.add, Double.sub.
  pose proof (round_opp (r + d)) as Ho.
  pose proof (round_mono (- (r + d)) (base + diff) ltac:(lra)) as H1.
  pose proof (round_mono (base + diff) (r + d) ltac:(lra)) as H2.
  pose proof (round_mono (- (r + d)) (base - diff) ltac:(lra)) as H3.
  pose proof (round_mono (base - diff) (r + d) ltac:(lra)) as H4.
  set (a := Double.round (r + d)) in *.
  set (b := Double.round (- (r + d))) in *.
  set (x := Double.round (base + diff)) in *.
  set (y := Double.round (base - diff)) in *.
  clearbody a b x y. lra.
Qed.

(** The thigh targets of a controller that is on and calibrated. *)
Lemma gyro_thigh_targets (s : GyroController.t) :
  GyroController.active s = true -> GyroController.isCalibrated s = true ->
  0 <= GyroController.thighAngleRange s ->
  0 <= GyroController.thighDiffRange s ->
  let a := GyroController.calculateTargetAngles s in
  let halfRange := Double.div (GyroController.thighAngleRange s) 2 in
  let halfDiff := Double.div (GyroController.thighDiffRange s) 2 in
  exists base roll,
    - halfRange <= base <= halfRange
    /\ -1 <= roll <= 1
    /\ roll
       = Qmax (-1)
           (Qmin 1
              (Double.div
                 (Double.sub (GyroController.smoothedGamma s)
                             (GyroController.neutralGamma s))
                 (GyroController.maxGammaTilt s)))
    /\ GyroController.leftThigh a
       = Double.add base (Double.mul roll halfDiff)
    /\ GyroController.rightThigh a
       = Double.sub base (Double.mul roll halfDiff)
    /\ GyroController.leftCalf a = GyroController.calfTargetAngle s
    /\ GyroController.rightCalf a = GyroController.calfTargetAngle s.
Proof.
  intros Ha Hc HR HD. cbv zeta.
  unfold GyroController.calculateTargetAngles. rewrite Ha, Hc.
  cbn [negb orb GyroController.leftThigh GyroController.rightThigh
       GyroController.leftCalf GyroController.rightCalf].
  pose proof (clamp_unit
                (Double.div
                   (Double.sub (GyroController.smoothedBeta s)
                               (GyroController.neutralBeta s))
                   (GyroController.maxBetaTilt s))) as Hp.
  set (pitch := Qmax (-1) (Qmin 1 (Double.div (Double.sub
                 (GyroController.smoothedBeta s) _) _))) in *.
  exists (Double.mul (- pitch)
            (Double.div (GyroController.thighAngleRange s) 2)),
         (Qmax (-1)
            (Qmin 1
               (Double.div
                  (Double.sub (GyroController.smoothedGamma s)
                              (GyroController.neutralGamma s))
                  (GyroController.maxGammaTilt s)))).
  split_and!; try reflexivity.
  - apply (scaled_within (- pitch) (GyroController.thighAngleRange s / 2)).
    + clearbody pitch. lra.
    + apply Qle_shift_div_l; [reflexivity|]. lra.
  - apply (scaled_within (- pitch) (GyroController.thighAngleRange s / 2)).
    + clearbody pitch. lra.
    + apply Qle_shift_div_l; [reflexivity|]. lra.
  - apply clamp_unit.
  - apply clamp_unit.
Qed.

(** X22: the thigh targets of [calculateTargetAngles] are bounded by the
    configured ranges whatever the tilt of the device, in the rounded
    arithmetic of the source: each thigh target is within
    [thighAngleRange / 2 + thighDiffRange / 2] (as the source would
    compute it) of zero; the left target is not below the right one when
    the device is rolled to the positive side of neutral, and not above
    it when rolled to the negative side; the two calf targets are equal.
    While the controller is off or not calibrated all four targets are
    zero. *)
Theorem X22_gyro_targets_bounded (s : GyroController.t) :
  ~ GyroController.maxBetaTilt s == 0 ->
  0 < GyroController.maxGammaTilt s ->
  0 <= GyroController.thighAngleRange s ->
  0 <= GyroController.thighDiffRange s ->
  let a := GyroController.calculateTargetAngles s in
  let bound :=
    Double.add (Double.div (GyroController.thighAngleRange s) 2)
               (Double.div (GyroController.thighDiffRange s) 2) in
  (- bound <= GyroController.leftThigh a <= bound)
  /\ (- bound <= GyroController.rightThigh a <= bound)
  /\ (GyroController.neutralGamma s <= GyroController.smoothedGamma s ->
      GyroController.rightThigh a <= GyroController.leftThigh a)
  /\ (GyroController.smoothedGamma s <= GyroController.neutralGamma s ->
      GyroController.leftThigh a <= GyroController.rightThigh a)
  /\ GyroController.leftCalf a = GyroController.rightCalf a
  /\ (GyroController.active s && GyroController.isCalibrated s = false ->
      a = GyroController.mkTargets 0 0 0 0).
Proof.
  intros _ Hm HR HD. cbv zeta.
  assert (HhR : 0 <= GyroController.thighAngleRange s / 2)
    by (apply Qle_shift_div_l; [reflexivity|lra]).
  assert (HhD : 0 <= GyroController.thighDiffRange s / 2)
    by (apply Qle_shift_div_l; [reflexivity|lra]).
  assert (Hb0 : 0 <= Double.add (Double.div (GyroController.thighAngleRange s) 2)
                      (Double.div (GyroController.thighDiffRange s) 2)).
  { unfold Double.add, Double.div. apply round_nonneg.
    pose proof (round_nonneg _ HhR). pose proof (round_nonneg _ HhD). lra. }
  destruct (GyroController.active s) eqn:Ha;
    [destruct (GyroController.isCalibrated s) eqn:Hc|].
  2,3: unfold GyroController.calculateTargetAngles; rewrite Ha, ?Hc;
    cbn [negb orb andb GyroController.leftThigh GyroController.rightThigh
         GyroController.leftCalf GyroController.rightCalf];
    set (bound := Double.add _ _) in *; clearbody bound;
    split_and!; try done; try lra; intros _; apply Qle_refl.
  destruct (gyro_thigh_targets s Ha Hc HR HD)
    as (base & roll & Hbase & Hroll & Eroll & El & Er & Ecl & Ecr).
  rewrite El, Er, Ecl, Ecr.
  pose proof (scaled_within roll (GyroController.thighDiffRange s / 2)
                Hroll HhD) as Hdiff.
  fold (Double.div (GyroController.thighDiffRange s) 2) in Hdiff.
  destruct (sum_within base
              (Double.mul roll (Double.div (GyroController.thighDiffRange s) 2))
              (Double.div (GyroController.thighAngleRange s) 2)
              (Double.div (GyroController.thighDiffRange s) 2) Hbase Hdiff)
    as [Hl Hr].
  assert (Hd2 : 0 <= Double.div (GyroController.thighDiffRange s) 2)
    by (by apply round_nonneg).
  split_and!; [apply Hl | apply Hl | apply Hr | apply Hr | | | done | done].
  - intros Hg.
    assert (H0 : 0 <= roll).
    { rewrite Eroll. apply clamp_sign. unfold Double.div, Double.sub.
      apply round_nonneg. apply Qle_shift_div_l; [done|].
      assert (0 <= Double.round (GyroController.smoothedGamma s
                                 - GyroController.neutralGamma s))
        by (apply round_nonneg; lra).
      lra. }
    assert (H1 : 0 <= Double.mul roll
                        (Double.div (GyroController.thighDiffRange s) 2)).
    { unfold Double.mul. apply round_nonneg.
      set (d := Double.div _ _) in *. clearbody d. nra. }
    unfold Double.add, Double.sub. apply round_mono.
    set (d := Double.mul _ _) in *. clearbody d. lra.
  - intros Hg.
    assert (H0 : roll <= 0).
    { rewrite Eroll. apply clamp_sign. unfold Double.div, Double.sub.
      apply round_nonpos. apply Qle_shift_div_r; [done|].
      assert (Double.round (GyroController.smoothedGamma s
                            - GyroController.neutralGamma s) <= 0)
        by (apply round_nonpos; lra).
      lra. }
    assert (H1 : Double.mul roll
                   (Double.div (GyroController.thighDiffRange s) 2) <= 0).
    { unfold Double.mul. apply round_nonpos.
      set (d := Double.div _ _) in *. clearbody d. nra. }
    unfold Double.add, Double.sub. apply round_mono.
    set (d := Double.mul _ _) in *. clearbody d. lra.
Qed.

Lemma X22_gyro_targets_bounded_witness :
  let s :=
    GyroController.mk true (Some 60) (Some 10) 60 10 true 15 0 45 30
      (Double.div Math_PI 2) (Double.div Math_PI 4)
      (Double.div (- Math_PI) 6) in
  ~ GyroController.maxBetaTilt s == 0
  /\ 0 < GyroController.maxGammaTilt s
  /\ 0 <= GyroController.thighAngleRange s
  /\ 0 <= GyroController.thighDiffRange s
  /\ GyroController.neutralGamma s <= GyroController.smoothedGamma s
  /\ GyroController.rightThigh (GyroController.calculateTargetAngles s)
     <= GyroController.leftThigh (GyroController.calculateTargetAngles s).
Proof.
  intros s.
  assert (H1 : ~ GyroController.maxBetaTilt s == 0) by (vm_compute; congruence).
  assert (H2 : 0 < GyroController.maxGammaTilt s) by (vm_compute; reflexivity).
  assert (H3 : 0 <= GyroController.thighAngleRange s)
    by (vm_compute; congruence).
  assert (H4 : 0 <= GyroController.thighDiffRange s)
    by (vm_compute; congruence).
  assert (H5 : GyroController.neutralGamma s <= GyroController.smoothedGamma s)
    by (vm_compute; congruence).
  destruct (X22_gyro_targets_bounded s H1 H2 H3 H4) as (_ & _ & H & _).
  split_and!; [exact H1 | exact H2 | exact H3 | exact H4 | exact H5
              | exact (H H5)].
Defined.

(** X23: with the ranges the constructor sets, the targets the gyro
    controller asks for can always be reached: each thigh target lies
    within the limits of the hip joints, each calf target within the
    limits of the knee joints. *)
Theorem X23_gyro_targets_within_limits (s : GyroController.t) :
  ~ GyroController.maxBetaTilt s == 0 ->
  ~ GyroController.maxGammaTilt s == 0 ->
  GyroController.thighAngleRange s
  = GyroController.thighAngleRange GyroController.new ->
  GyroController.thighDiffRange s
  = GyroController.thighDiffRange GyroController.new ->
  GyroController.calfTargetAngle s
  = GyroController.calfTargetAngle GyroController.new ->
  let a := GyroController.calculateTargetAngles s in
  (CHARACTER.JOINTS.HIP.MIN_ANGLE <= GyroController.leftThigh a
   <= CHARACTER.JOINTS.HIP.MAX_ANGLE)
  /\ (CHARACTER.JOINTS.HIP.MIN_ANGLE <= GyroController.rightThigh a
      <= CHARACTER.JOINTS.HIP.MAX_ANGLE)
  /\ (CHARACTER.JOINTS.KNEE.MIN_ANGLE <= GyroController.leftCalf a
      <= CHARACTER.JOINTS.KNEE.MAX_ANGLE)
  /\ (CHARACTER.JOINTS.KNEE.MIN_ANGLE <= GyroController.rightCalf a
      <= CHARACTER.JOINTS.KNEE.MAX_ANGLE).
Proof.
  intros _ _ ER ED EC. cbv zeta.
  assert (L1 : CHARACTER.JOINTS.HIP.MIN_ANGLE <= 0) by (vm_compute; congruence).
  assert (L2 : 0 <= CHARACTER.JOINTS.HIP.MAX_ANGLE) by (vm_compute; congruence).
  assert (L3 : CHARACTER.JOINTS.KNEE.MIN_ANGLE <= 0)
    by (vm_compute; congruence).
  assert (L4 : 0 <= CHARACTER.JOINTS.KNEE.MAX_ANGLE)
    by (vm_compute; congruence).
  destruct (GyroController.active s) eqn:Ha;
    [destruct (GyroController.isCalibrated s) eqn:Hc|].
  2,3: unfold GyroController.calculateTargetAngles; rewrite Ha, ?Hc;
    cbn [negb orb GyroController.leftThigh GyroController.rightThigh
         GyroController.leftCalf GyroController.rightCalf];
    split_and!; assumption.
  assert (HR : 0 <= GyroController.thighAngleRange s)
    by (rewrite ER; vm_compute; congruence).
  assert (HD : 0 <= GyroController.thighDiffRange s)
    by (rewrite ED; vm_compute; congruence).
  destruct (gyro_thigh_targets s Ha Hc HR HD)
    as (base & roll & Hbase & Hroll & _ & El & Er & Ecl & Ecr).
  rewrite El, Er, Ecl, Ecr.
  assert (HhD : 0 <= GyroController.thighDiffRange s / 2)
    by (apply Qle_shift_div_l; [reflexivity|lra]).
  pose proof (scaled_within roll (GyroController.thighDiffRange s / 2)
                Hroll HhD) as Hdiff.
  fold (Double.div (GyroController.thighDiffRange s) 2) in Hdiff.
  destruct (sum_within base
              (Double.mul roll (Double.div (GyroController.thighDiffRange s) 2))
              (Double.div (GyroController.thighAngleRange s) 2)
              (Double.div (GyroController.thighDiffRange s) 2) Hbase Hdiff)
    as [Hl Hr].
  rewrite ER, ED in Hl, Hr. rewrite EC, ?ED.
  assert (B1 : CHARACTER.JOINTS.HIP.MIN_ANGLE
               <= - Double.add
                      (Double.div
                         (GyroController.thighAngleRange GyroController.new) 2)
                      (Double.div
                         (GyroController.thighDiffRange GyroController.new) 2))
    by (vm_compute; congruence).
  assert (B2 : Double.add
                 (Double.div
                    (GyroController.thighAngleRange GyroController.new) 2)
                 (Double.div
                    (GyroController.thighDiffRange GyroController.new) 2)
               <= CHARACTER.JOINTS.HIP.MAX_ANGLE)
    by (vm_compute; congruence).
  assert (B3 : CHARACTER.JOINTS.KNEE.MIN_ANGLE
               <= GyroController.calfTargetAngle GyroController.new)
    by (vm_compute; congruence).
  assert (B4 : GyroController.calfTargetAngle GyroController.new
               <= CHARACTER.JOINTS.KNEE.MAX_ANGLE)
    by (vm_compute; congruence).
  set (bound := Double.add
                  (Double.div
                     (GyroController.thighAngleRange GyroController.new) 2)
                  (Double.div
                     (GyroController.thighDiffRange GyroController.new) 2))
    in *.
  set (left := Double.add base _) in *. set (right := Double.sub base _) in *.
  set (lo := CHARACTER.JOINTS.HIP.MIN_ANGLE) in *.
  set (hi := CHARACTER.JOINTS.HIP.MAX_ANGLE) in *.
  clearbody bound left right lo hi.
  split_and!; try assumption; lra.
Qed.

Lemma X23_gyro_targets_within_limits_witness :
  let s :=
    GyroController.mk true (Some 60) (Some 10) 60 10 true 15 0 45 30
      (Double.div Math_PI 2) (Double.div Math_PI 4)
      (Double.div (- Math_PI) 6) in
  ~ GyroController.maxBetaTilt s == 0
  /\ ~ GyroController.maxGammaTilt s == 0
  /\ CHARACTER.JOINTS.HIP.MIN_ANGLE
     <= GyroController.leftThigh (GyroController.calculateTargetAngles s).
Proof.
  intros s.
  assert (H1 : ~ GyroController.maxBetaTilt s == 0) by (vm_compute; congruence).
  assert (H2 : ~ GyroController.maxGammaTilt s == 0)
    by (vm_compute; congruence).
  destruct (X23_gyro_targets_within_limits s H1 H2 eq_refl eq_refl eq_refl)
    as ([H _] & _).
  split_and!; [exact H1 | exact H2 | exact H].
Defined.

(** ** No missing torso *)

Lemma run_keeps_torso Math_sin Math_cos solve events :
  forall r,
    torsoPresent (EventLoop.game r) ->
    exists r',
      EventLoop.run Math_sin Math_cos solve events r = Some r'
      /\ torsoPresent (EventLoop.game r').
Proof.
  induction events as [|e rest IH]; intros r Ht; [by exists r|].
  destruct (handle_total Math_sin Math_cos solve e r Ht) as (r1 & H1 & Ht1).
  destruct (IH r1 Ht1) as (r' & Hr' & Ht').
  exists r'. simpl. rewrite H1. done.
Qed.

(** X24: [update] reads [position.x] of the torso without a test, and
    that read never fails.  From page load, whatever joints the engine
    refuses, whatever it computes and whatever the events are, every
    update finds the torso: the run goes through without the TypeError,
    and the torso is still there at the end. *)
Theorem X24_update_never_throws (Math_sin Math_cos : Q -> Q)
  (solve : gmap string RigidBody -> gmap string ImpulseJoint ->
           gmap string RigidBody)
  (faults : gset string) (t : Q) (events : list EventLoop.Event) :
  exists r,
    EventLoop.run Math_sin Math_cos solve events (EventLoop.boot faults t)
    = Some r
    /\ torsoPresent (EventLoop.game r).
Proof. apply run_keeps_torso. apply boot_torso. Qed.
